(** * drscp: generation of Super Check Partial files from contest logs

    A shallow embedding of the call-validation pipeline of [drscp]
    (drscp.cpp, drscp.h, count_values.h, command_line.cpp) and the properties
    proved about it.  The first part holds the embedding, function by
    function and under the names of the source; the second part the
    reference definition of a bust and the properties.

    Conventions of the embedding:
    - a [std::string] is a [list ascii]; string literals are written
      [cs "W1AW"];
    - [int] is a 32-bit signed integer carried as [Z]; where the source
      counts, multiplies or narrows into an [int] the wrap-around is written
      out ([wrap32]); differences of frequencies (kHz, below 30000) and of
      minutes of a contest stay far from the bounds and are taken in [Z];
      [time_t] is carried as [Z];
    - [std::unordered_map<string, T>] is a [gmap (list ascii) T] and
      [std::unordered_set<string>] a [gset (list ascii)]; a loop over such a
      container runs over [map_to_list] or [elements];
    - a [std::vector] is a [list]; an iterator into a vector is the index
      ([nat]) of the element it points to;
    - a function that may throw returns an [option], [None] being the
      exception; [outcome] tells a return of [main] or [process_directory]
      from [exit(-1)], an uncaught exception and a loop without end;
    - what the program prints while running ([-v], [-tr], [-i]) is left
      out. *)

From Stdlib Require Import ZArith Ascii String.
From Stdlib Require Import Floats.SpecFloat.
From stdpp Require Import base decidable option list sorting gmap strings.

Local Open Scope Z_scope.

(** * The embedding *)

(** ** Strings *)

Abbreviation callsign := (list ascii).

(** A string literal as a [std::string]. *)
Definition cs (s : string) : callsign := list_ascii_of_string s.

(** [ssize(s)]: the signed length of a container. *)
Definition ssize {A} (s : list A) : Z := Z.of_nat (length s).

(** Is [ss] a prefix of [s]? *)
Fixpoint starts_with (s ss : callsign) {struct ss} : bool :=
  match ss, s with
  | [], _ => true
  | _ :: _, [] => false
  | c :: ss', d :: s' => bool_decide (c = d) && starts_with s' ss'
  end.

(** Modelled from the spec: [contains(s, ss)] of string_functions.h, which is
    not among the sources; the spec reads "long contains short as a
    substring".  [ss] occurs in [s] at some offset. *)
Fixpoint contains (s ss : callsign) : bool :=
  starts_with s ss ||
  match s with
  | [] => false
  | _ :: s' => contains s' ss
  end.

(** ** Call analysis: [is_bust] (drscp.cpp) *)

(** [longer.substr(0, posn) + longer.substr(posn + 1)] *)
Definition remove_char (posn : nat) (longer : callsign) : callsign :=
  take posn longer ++ drop (S posn) longer.

(** [swap(call_tmp[posn], call_tmp[posn + 1])] on a copy of [call]; the
    source only evaluates it for [posn + 1 < call.length()]. *)
Definition swap_adjacent (posn : nat) (call : callsign) : callsign :=
  match call !! posn, call !! S posn with
  | Some a, Some b => <[S posn := a]> (<[posn := b]> call)
  | _, _ => call
  end.

(** The loop counting [differences]: positions [posn < call.length()] with
    [call[posn] != copied[posn]]; it is only run on strings of equal length. *)
Fixpoint differences (call copied : callsign) : Z :=
  match call, copied with
  | c :: call', d :: copied' =>
      (if bool_decide (c = d) then 0 else 1) + differences call' copied'
  | _, _ => 0
  end.

Definition is_bust (call copied : callsign) : bool :=
  if bool_decide (call = copied) then false
  else if 2 <=? Z.abs (ssize call - ssize copied) then false
  else if Z.abs (ssize call - ssize copied) =? 1 then
    let longer := if (length copied <? length call)%nat then call else copied in
    let shorter := if (length copied <? length call)%nat then copied else call in
    if contains longer shorter then true
    else
      (* for (posn = 1; posn < longer.length() - 1; ++posn) *)
      existsb (fun posn => bool_decide (remove_char posn longer = shorter))
              (seq 1 (length longer - 2))
  else
    if differences call copied =? 1 then true
    else
      (* for (posn = 0; posn < call.length() - 1; ++posn); the strings are
         distinct and of equal length here, so [call.length() >= 1] *)
      existsb (fun posn => bool_decide (swap_adjacent posn call = copied))
              (seq 0 (length call - 1)).


(** ** Machine integers *)

Definition INT_MAX : Z := 2147483647.

(** The value of an [int] after an operation whose exact result is [n]. *)
Definition wrap32 (n : Z) : Z := (n + 2147483648) mod 4294967296 - 2147483648.

(** ** Program constants and options (drscp.cpp) *)

Definition CLOCK_SKEW : Z := 2.
Definition FREQ_SKEW : Z := 2.
Definition RUN_TIME_RANGE : Z := 5.

(** The globals set from the command line.  ([traced_call] only selects
    what is printed while tracing and is left out.) *)
Record options := mk_options {
  CUTOFF_LIMIT : Z;
  MAX_PARALLEL : Z;
  TL_LIMIT : Z;
  PC_OUTPUT : Z;
  DISPLAY_BAD_QSOS : bool;
  tracing : bool;
  verbose : bool
}.

(** The initial values of the globals. *)
Definition default_options : options :=
  {| CUTOFF_LIMIT := 1; MAX_PARALLEL := 1; TL_LIMIT := 1; PC_OUTPUT := 100;
     DISPLAY_BAD_QSOS := false; tracing := false; verbose := false |}.

(** ** Bands (drscp.h) *)

Inductive HF_BAND := B160 | B80 | B40 | B20 | B15 | B10 | BAD.

#[global] Instance HF_BAND_eq_dec : EqDecision HF_BAND.
Proof. solve_decision. Defined.

(** [static_cast<int>(band)] *)
Definition HF_BAND_index (b : HF_BAND) : nat :=
  match b with
  | B160 => 0 | B80 => 1 | B40 => 2 | B20 => 3 | B15 => 4 | B10 => 5 | BAD => 6
  end%nat.

Definition HF_BAND_of_index (n : nat) : HF_BAND :=
  match n with
  | 0 => B160 | 1 => B80 | 2 => B40 | 3 => B20 | 4 => B15 | 5 => B10 | _ => BAD
  end%nat.

#[global] Instance HF_BAND_countable : Countable HF_BAND.
Proof.
  apply (inj_countable' HF_BAND_index HF_BAND_of_index). by intros [].
Defined.

(** [band_from_qrg]: the band in which the frequency [qrg] (kHz) lies;
    [None] is the exception thrown for a frequency outside the contest
    bands. *)
Definition band_from_qrg (qrg : Z) : option HF_BAND :=
  if (1800 <=? qrg) && (qrg <=? 2000) then Some B160
  else if (3500 <=? qrg) && (qrg <=? 4000) then Some B80
  else if (7000 <=? qrg) && (qrg <=? 7300) then Some B40
  else if (14000 <=? qrg) && (qrg <=? 14350) then Some B20
  else if (21000 <=? qrg) && (qrg <=? 21450) then Some B15
  else if (28000 <=? qrg) && (qrg <=? 29700) then Some B10
  else None.

(** ** QSOs (drscp.h, class [small_qso]) *)

Record small_qso := mk_small_qso {
  _tcall : callsign;      (* transmitted call *)
  _rcall : callsign;      (* received call *)
  _band : HF_BAND;        (* band *)
  _qrg : Z;               (* frequency, in kHz *)
  _time : Z;              (* UTC time (time_t) *)
  _rel_mins : Z;          (* relative minutes from the start of the contest *)
  _id : Z                 (* QSO identifier *)
}.

(** [small_qso::operator<]: [return (_time < sq._time);] *)
Definition small_qso_lt (a sq : small_qso) : bool := _time a <? _time sq.

(** The order [SORT] leaves a vector in: no element is less than an earlier
    one. *)
Definition chronological (a b : small_qso) : Prop := _time a <= _time b.

#[global] Instance chronological_dec : RelDecision chronological.
Proof. intros a b. unfold chronological. apply _. Defined.

(** [SORT(v)] is [std::sort(v.begin(), v.end(), std::less<>())], which uses
    [operator<].  [std::sort] does not say in which order it leaves elements
    that compare equivalent (here: QSOs with the same [_time]); the model
    uses a merge sort. *)
Definition SORT (v : list small_qso) : list small_qso :=
  merge_sort chronological v.

(** The setters [qso.rel_mins(n)], [qso.tcall(s)], [qso.rcall(s)]. *)
Definition set_rel_mins (n : Z) (q : small_qso) : small_qso :=
  {| _tcall := _tcall q; _rcall := _rcall q; _band := _band q; _qrg := _qrg q;
     _time := _time q; _rel_mins := n; _id := _id q |}.

Definition set_tcall (s : callsign) (q : small_qso) : small_qso :=
  {| _tcall := s; _rcall := _rcall q; _band := _band q; _qrg := _qrg q;
     _time := _time q; _rel_mins := _rel_mins q; _id := _id q |}.

Definition set_rcall (s : callsign) (q : small_qso) : small_qso :=
  {| _tcall := _tcall q; _rcall := s; _band := _band q; _qrg := _qrg q;
     _time := _time q; _rel_mins := _rel_mins q; _id := _id q |}.

(** [call_has_good_freq_info] *)
Definition call_has_good_freq_info (call : callsign)
    (calls_with_no_freq_info calls_with_poor_freq_info : gset callsign) : bool :=
  negb (bool_decide (call ∈ calls_with_no_freq_info)) &&
  negb (bool_decide (call ∈ calls_with_poor_freq_info)).

(** [rv[key] += value] on a map from calls to sets of calls. *)
Definition add_bust (key value : callsign)
    (rv : gmap callsign (gset callsign)) : gmap callsign (gset callsign) :=
  <[key := {[value]} ∪ default ∅ (rv !! key)]> rv.

(** [possible_busts]: the two nested loops over the container, [it2]
    starting at [next(it1)]. *)
Fixpoint possible_busts_from (calls : list callsign)
    (rv : gmap callsign (gset callsign)) : gmap callsign (gset callsign) :=
  match calls with
  | [] => rv
  | call1 :: rest =>
      possible_busts_from rest
        (foldl (fun rv call2 =>
                  if is_bust call1 call2
                  then add_bust call2 call1 (add_bust call1 call2 rv)
                  else rv)
               rv rest)
  end.

Definition possible_busts (calls : gset callsign)
    : gmap callsign (gset callsign) :=
  possible_busts_from (elements calls) ∅.

(** ** Contest parameters (drscp.h, class [contest_parameters]) *)

Record contest_parameters := mk_contest_parameters {
  _directory : callsign;  (* directory that contains the logs *)
  _hours : Z;             (* duration of the contest, in hours *)
  _t_start : Z;           (* time of the start of the contest *)
  _t_end : Z              (* one second past the end of the contest *)
}.

(** The constructor, after the three fields of the line have been split and
    converted: [dir] is [fields[0]], [start] the result of [timegm] on the
    date/time field and [hrs] is [from_string<int>(fields[2])].  The product
    [hrs * 3600] is computed on [int]. *)
Definition make_contest_parameters (dir : callsign) (start hrs : Z)
    : contest_parameters :=
  {| _directory := dir;
     _hours := hrs;
     _t_start := start;
     _t_end := start + wrap32 (hrs * 3600) |}.

(** [contest_parameters::in_contest_period] *)
Definition in_contest_period (cp : contest_parameters) (t : Z) : bool :=
  (t >=? _t_start cp) && (t <? _t_end cp).

(** ** Counting values (count_values.h) and the output map (drscp.h) *)

(** [count_values<string>::operator+=(v)]: the entry of [v] in the
    underlying map is incremented ([++] on [int32_t]), created at 0 if absent. *)
Definition count_values_add (v : callsign) (h : gmap callsign Z)
    : gmap callsign Z :=
  <[v := wrap32 (default 0 (h !! v) + 1)]> h.

(** [CALL_MAP += call]: [(cm[call])++] *)
Definition call_map_add (call : callsign) (cm : gmap callsign Z)
    : gmap callsign Z :=
  <[call := wrap32 (default 0 (cm !! call) + 1)]> cm.

(** [CALL_MAP += CALL_MAP]: [cm[pr.first] += pr.second] for every pair. *)
Definition call_map_merge (cm us : gmap callsign Z) : gmap callsign Z :=
  map_fold (fun call n cm => <[call := wrap32 (default 0 (cm !! call) + n)]> cm)
           cm us.

(** ** Vectors, iterators and time maps (drscp.cpp) *)

(** The elements of the iterator range [[first, last)] of [vec]. *)
Definition range {A} (vec : list A) (first last : nat) : list A :=
  take (last - first) (drop first vec).

(** [v.at(n)]: [None] is the [std::out_of_range] exception; a negative [n]
    converts to an index past every size. *)
Definition at_ {A} (v : list A) (n : Z) : option A :=
  if n <? 0 then None else v !! Z.to_nat n.

(** The monadic left fold used for loops whose body may throw. *)
Fixpoint foldlM {A B} (f : B -> A -> option B) (b : B) (l : list A)
    : option B :=
  match l with
  | [] => Some b
  | x :: l' => match f b x with Some b' => foldlM f b' l' | None => None end
  end.

(** [lower_bound(first, vec.end(), target, element.rel_mins() < target)]: on a
    range ordered by relative minutes, the first position at or after [first]
    whose element is not before [target]. *)
Definition lower_bound (vec : list small_qso) (first : nat) (target : Z) : nat :=
  match list_find (fun element => ~ (_rel_mins element < target))
                  (drop first vec) with
  | Some (n, _) => (first + n)%nat
  | None => length vec
  end.

(** [upper_bound(first, vec.end(), target, target < element.rel_mins())]: the
    first position at or after [first] whose element is after [target]. *)
Definition upper_bound (vec : list small_qso) (first : nat) (target : Z) : nat :=
  match list_find (fun element => target < _rel_mins element)
                  (drop first vec) with
  | Some (n, _) => (first + n)%nat
  | None => length vec
  end.

(** [get_bounds]: the iterator pair for the QSOs of [vec] within
    [ALLOWED_SKEW] minutes of [target_minutes]. *)
Definition get_bounds (target_minutes minimum_minutes maximum_minutes
    ALLOWED_SKEW : Z) (vec : list small_qso) : nat * nat :=
  let lower_target_minutes := Z.max (target_minutes - ALLOWED_SKEW) minimum_minutes in
  let upper_target_minutes := Z.min (target_minutes + ALLOWED_SKEW) maximum_minutes in
  let lb := lower_bound vec 0 lower_target_minutes in
  let ub := upper_bound vec lb upper_target_minutes in
  (lb, ub).

(** The loop of [time_map]: one [lower_bound] per minute, each search
    starting where the previous one ended. *)
Fixpoint time_map_loop (vec : list small_qso) (last_start : nat) (minutes : Z)
    (n : nat) : list nat :=
  match n with
  | O => []
  | S n' =>
      let it := lower_bound vec last_start minutes in
      it :: time_map_loop vec it (minutes + 1) n'
  end.

(** What [time_map] returns for a vector that is not empty: for each minute
    [0 .. max_rel_mins] the position of the first QSO of that minute or
    later, followed by [vec.end()]. *)
Definition time_map_entries (vec : list small_qso) (max_rel_mins : Z)
    : list nat :=
  time_map_loop vec 0 0 (Z.to_nat (max_rel_mins + 1)) ++ [length vec].

(** [time_map]: empty for an empty vector.  Otherwise
    [rv.reserve(time_map_size)] comes first, with the [int]
    [time_map_size = max_rel_mins + 1] converted to [size_t]: a negative
    size is beyond [max_size()] and [reserve] throws [std::length_error]
    ([None]). *)
Definition time_map (vec : list small_qso) (max_rel_mins : Z)
    : option (list nat) :=
  match vec with
  | [] => Some []
  | _ =>
      let time_map_size := max_rel_mins + 1 in
      if time_map_size <? 0 then None
      else Some (time_map_entries vec max_rel_mins)
  end.

(** [build_vec]: all the QSOs of a minilog in one vector, in chronological
    order. *)
Definition build_vec (qsos_per_call : gmap callsign (list small_qso))
    : list small_qso :=
  SORT (concat (map snd (map_to_list qsos_per_call))).

(** [tcalls]: all the keys of a minilog. *)
Definition tcalls (qsos_per_call : gmap callsign (list small_qso))
    : gset callsign :=
  dom qsos_per_call.

(** [build_minilog]: [rv[qso.band()][qso.tcall()] += qso] for every QSO. *)
Definition build_minilog (qsos_per_call : gmap callsign (list small_qso))
    : gmap HF_BAND (gmap callsign (list small_qso)) :=
  foldl (fun rv qso =>
           let minilog := default ∅ (rv !! _band qso) in
           <[_band qso :=
               <[_tcall qso := default [] (minilog !! _tcall qso) ++ [qso]]>
                 minilog]> rv)
        ∅ (concat (map snd (map_to_list qsos_per_call))).

(** ** The band pruner: [process_band] (drscp.cpp) *)

Section ProcessBand.

Variable opts : options.
Variable pruned_qsos_this_band all_qsos_this_band : gmap callsign (list small_qso).
Variable calls_with_no_freq_info calls_with_poor_freq_info : gset callsign.
Variable max_rel_mins : Z.

(** The lambda [frequency_match]. *)
Definition frequency_match (qso1 qso2 : small_qso) (def : bool) : bool :=
  if def then
    (bool_decide (_tcall qso1 ∈ calls_with_no_freq_info) ||
     bool_decide (_tcall qso2 ∈ calls_with_no_freq_info)) ||
    (bool_decide (_tcall qso1 ∈ calls_with_poor_freq_info) ||
     bool_decide (_tcall qso2 ∈ calls_with_poor_freq_info)) ||
    (Z.abs (_qrg qso1 - _qrg qso2) <=? FREQ_SKEW)
  else
    (negb (bool_decide (_tcall qso1 ∈ calls_with_no_freq_info)) &&
     negb (bool_decide (_tcall qso2 ∈ calls_with_no_freq_info))) &&
    (Z.abs (_qrg qso1 - _qrg qso2) <=? FREQ_SKEW).

(** [erase_if(pruned_vec, ids_to_remove.contains(qso.id()))] *)
Definition erase_ids (ids_to_remove : gset Z) (pruned_vec : list small_qso)
    : list small_qso :=
  filter (fun qso => _id qso ∉ ids_to_remove) pruned_vec.

(** *** Pass A: busts between two logs *)

(** The predicate handed to [find_if] for the pruned QSO [rqso]. *)
Definition tcall_match (rqso tqso : small_qso) : bool :=
  frequency_match tqso rqso true &&
  ((is_bust (_tcall tqso) (_rcall rqso) && bool_decide (_rcall tqso = _tcall rqso)) ||
   (is_bust (_tcall rqso) (_rcall tqso) && is_bust (_tcall tqso) (_rcall rqso))).

(** The body of the loop over [target_rel_mins]. *)
Definition pass_A_minute (all_vec pruned_vec : list small_qso)
    (all_time_map pruned_time_map : list nat)
    (ids_to_remove : gset Z) (target_rel_mins : Z) : option (gset Z) :=
  let lower_target_minutes := Z.max (target_rel_mins - CLOCK_SKEW) 0 in
  let upper_target_minutes := Z.min (target_rel_mins + CLOCK_SKEW) max_rel_mins in
  first ← at_ pruned_time_map target_rel_mins;
  last ← at_ pruned_time_map (target_rel_mins + 1);
  let pruned_rcall_targets := range pruned_vec first last in
  foldlM (fun ids rqso =>
            afirst ← at_ all_time_map lower_target_minutes;
            alast ← at_ all_time_map (upper_target_minutes + 1);
            Some (if existsb (tcall_match rqso) (range all_vec afirst alast)
                  then {[_id rqso]} ∪ ids else ids))
         ids_to_remove pruned_rcall_targets.

(** The minutes [0 .. max_rel_mins] the loops run over. *)
Definition minutes_of_contest : list Z :=
  map Z.of_nat (seq 0 (Z.to_nat (max_rel_mins + 1))).

Definition pass_A (all_vec pruned_vec : list small_qso)
    (all_time_map : list nat) : option (list small_qso) :=
  pruned_time_map ← time_map pruned_vec max_rel_mins;
  ids_to_remove ← foldlM (pass_A_minute all_vec pruned_vec all_time_map
                                        pruned_time_map)
                         ∅ minutes_of_contest;
  Some (erase_ids ids_to_remove pruned_vec).

(** *** Pass B: busts of a running entrant *)

(** [is_stn_running]: does [call] appear to have been running at
    [rel_mins] on [qrg]?  [None] is an exception of [at]. *)
Definition is_stn_running (call : callsign) (rel_mins qrg : Z)
    (tcalls : gset callsign) (all_vec : list small_qso)
    (all_time_map : list nat) (minimum_minutes maximum_minutes : Z)
    (ignore_call : callsign) : option bool :=
  if negb (bool_decide (call ∈ tcalls)) then Some false
  else
    let target_minutes := rel_mins in
    if call_has_good_freq_info call calls_with_no_freq_info
                               calls_with_poor_freq_info
    then
      log ← all_qsos_this_band !! call;
      let '(lb, ub) := get_bounds target_minutes minimum_minutes
                                  maximum_minutes CLOCK_SKEW log in
      Some (existsb (fun qso => Z.abs (qrg - _qrg qso) <=? FREQ_SKEW)
                    (range log lb ub))
    else
      let lower_target_minutes := Z.max (target_minutes - CLOCK_SKEW) minimum_minutes in
      let upper_target_minutes := Z.min (target_minutes + CLOCK_SKEW) maximum_minutes in
      first ← at_ all_time_map lower_target_minutes;
      last ← at_ all_time_map (upper_target_minutes + 1);
      Some (existsb (fun qso =>
                       negb (bool_decide (_tcall qso = ignore_call)) &&
                       bool_decide (_rcall qso = call) &&
                       (Z.abs (qrg - _qrg qso) <=? FREQ_SKEW))
                    (range all_vec first last)).

(** The body of the inner loop: one entrant [tcall] tried against one pruned
    QSO. *)
Definition pass_B_step (all_tcalls : gset callsign) (all_vec : list small_qso)
    (all_time_map : list nat) (qso : small_qso)
    (ids_to_remove : gset Z) (tcall : callsign) : option (gset Z) :=
  if bool_decide (_id qso ∈ ids_to_remove) then Some ids_to_remove
  else if is_bust tcall (_rcall qso) then
    running ← is_stn_running tcall (_rel_mins qso) (_qrg qso) all_tcalls
                             all_vec all_time_map 0 max_rel_mins (_tcall qso);
    Some (if running : bool then {[_id qso]} ∪ ids_to_remove else ids_to_remove)
  else Some ids_to_remove.

Definition pass_B (all_tcalls : gset callsign) (all_vec : list small_qso)
    (all_time_map : list nat) (pruned_vec : list small_qso)
    : option (list small_qso) :=
  ids_to_remove ←
    foldlM (fun ids qso =>
              foldlM (pass_B_step all_tcalls all_vec all_time_map qso)
                     ids (elements all_tcalls))
           ∅ pruned_vec;
  Some (erase_ids ids_to_remove pruned_vec).

(** *** Pass C: busts of a running station that sent in no log *)

(** The pseudo-logs [rcall_logs]: the pruned QSOs by received call, each log
    in chronological order. *)
Definition build_rcall_logs (pruned_vec : list small_qso)
    : gmap callsign (list small_qso) :=
  SORT <$>
    foldl (fun rcall_logs qso =>
             <[_rcall qso := default [] (rcall_logs !! _rcall qso) ++ [qso]]>
               rcall_logs)
          ∅ pruned_vec.

(** The histogram of the received calls of a vector. *)
Definition rcall_histogram (pruned_vec : list small_qso) : gmap callsign Z :=
  foldl (fun histogram qso => count_values_add (_rcall qso) histogram)
        ∅ pruned_vec.

(** The received calls in the order in which the loop over [inv_histogram]
    ([sorted_invert]: a map from count to the set of calls, greatest count
    first) visits them.  Within one count the source visits the calls in the
    order of [std::set<string>]; that order has no influence on the
    identifiers collected. *)
Definition inv_histogram_order (histogram : gmap callsign Z) : list callsign :=
  map fst (merge_sort (fun a b : callsign * Z => a.2 >= b.2)
                      (map_to_list histogram)).

(** The QSOs of [rcall] judged to be busts of a running station: the body of
    the loop over [rcalls_this_count]. *)
Definition pass_C_rcall (rcall_logs : gmap callsign (list small_qso))
    (possible_rcall_busts : gmap callsign (gset callsign))
    (ids_to_remove : gset Z) (rcall : callsign) : gset Z :=
  let rcall_log := default [] (rcall_logs !! rcall) in
  let rcall_busts := default ∅ (possible_rcall_busts !! rcall) in
  let log_of_rcall_and_busts :=
    SORT (foldl (fun log rcall_bust =>
                   log ++ default [] (rcall_logs !! rcall_bust))
                rcall_log (elements rcall_busts)) in
  foldl (fun ids rqso =>
           let '(lb, ub) := get_bounds (_rel_mins rqso) 0 max_rel_mins
                                       RUN_TIME_RANGE log_of_rcall_and_busts in
           let run_qso :=
             existsb (fun qso =>
                        if bool_decide (_rcall qso = rcall) then false
                        else frequency_match qso rqso false)
                     (range log_of_rcall_and_busts lb ub) in
           if run_qso then {[_id rqso]} ∪ ids else ids)
        ids_to_remove rcall_log.

Definition pass_C (pruned_vec : list small_qso) : list small_qso :=
  let rcall_logs := build_rcall_logs pruned_vec in
  let rcalls : gset callsign := list_to_set (map _rcall pruned_vec) in
  let possible_rcall_busts := possible_busts rcalls in
  let histogram := rcall_histogram pruned_vec in
  let ids_to_remove :=
    foldl (pass_C_rcall rcall_logs possible_rcall_busts) ∅
          (inv_histogram_order histogram) in
  erase_ids ids_to_remove pruned_vec.

(** *** Pass D: the cutoff *)

(** The verbose branch: one [erase_if] per entry of the histogram whose count
    is at or below [CUTOFF_LIMIT]. *)
Definition pass_D_verbose (histogram : gmap callsign Z)
    (pruned_vec : list small_qso) : list small_qso :=
  foldl (fun pruned_vec '(rcall, count) =>
           if count <=? CUTOFF_LIMIT opts
           then filter (fun qso => _rcall qso <> rcall) pruned_vec
           else pruned_vec)
        pruned_vec (map_to_list histogram).

(** The other branch: one [erase_if] on [histogram.at(qso.rcall())]; every
    received call of the vector is a key of the histogram just built, so
    [at] does not throw. *)
Definition pass_D_quiet (histogram : gmap callsign Z)
    (pruned_vec : list small_qso) : list small_qso :=
  filter (fun qso => ~ (default 0 (histogram !! _rcall qso) <= CUTOFF_LIMIT opts))
         pruned_vec.

Definition pass_D (pruned_vec : list small_qso) : list small_qso :=
  let histogram := rcall_histogram pruned_vec in
  if verbose opts then pass_D_verbose histogram pruned_vec
  else pass_D_quiet histogram pruned_vec.

(** *** The whole of [process_band] *)

(** The vector [pruned_vec] as it stands after the third pass. *)
Definition pruned_before_cutoff : option (list small_qso) :=
  let pruned_vec := build_vec pruned_qsos_this_band in
  let all_vec := build_vec all_qsos_this_band in
  let all_tcalls := tcalls all_qsos_this_band in
  all_time_map ← time_map all_vec max_rel_mins;
  pruned_vec ← pass_A all_vec pruned_vec all_time_map;
  pruned_vec ← pass_B all_tcalls all_vec all_time_map pruned_vec;
  Some (pass_C pruned_vec).

(** [local_scp_calls]: the received calls of the QSOs that remain. *)
Definition local_scp_calls (pruned_vec : list small_qso) : gset callsign :=
  list_to_set (map _rcall pruned_vec).

Definition process_band : option (gset callsign) :=
  pruned_vec ← pruned_before_cutoff;
  Some (local_scp_calls (pass_D pruned_vec)).

End ProcessBand.

(** ** The frequency-quality classifier: [calls_with_unreliable_freq] *)

(** *** The floating-point comparison

    [const float good_fraction { float(good) / total }; if (good_fraction < 0.9)]:
    the quotient is computed in IEEE-754 binary32 ([total] is converted to
    [float] for the division) and is converted to binary64 for the comparison
    with the [double] literal [0.9].  The operations are those of the
    Standard Library's specification of IEEE-754 arithmetic. *)

(** [float(n)] for an [int] [n]. *)
Definition float_of_int (n : Z) : spec_float := binary_normalize 24 128 n 0 false.

(** The conversion of a [float] to [double], which is exact. *)
Definition double_of_float (x : spec_float) : spec_float :=
  match x with
  | S754_finite s m e =>
      binary_normalize 53 1024 (if s then Z.neg m else Z.pos m) e false
  | _ => x
  end.

(** The literal [0.9]: the [double] nearest to nine tenths,
    8106479329266893 * 2^-53. *)
Definition double_0_9 : spec_float := S754_finite false 8106479329266893 (-53).

Definition good_fraction (good total : Z) : spec_float :=
  SFdiv 24 128 (float_of_int good) (float_of_int total).

(** [good_fraction < 0.9] *)
Definition below_0_9 (x : spec_float) : bool :=
  SFltb (double_of_float x) double_0_9.

(** *** The cross-index of QSOs between entrants *)

Abbreviation BAND_TIME_FREQ := (HF_BAND * Z * Z)%type.

(** [worked_by_this_tcall]: the QSOs of one log whose received call is an
    entrant with frequency information.  [None] is the exception of
    [band_from_qrg]. *)
Definition worked_by (all_qsos : gmap callsign (list small_qso))
    (calls_with_no_freq_info : gset callsign) (qsos : list small_qso)
    : option (gmap callsign (list BAND_TIME_FREQ)) :=
  foldlM (fun worked_by_this_tcall qso =>
            let rcall := _rcall qso in
            if negb (bool_decide (rcall ∈ calls_with_no_freq_info)) &&
               bool_decide (is_Some (all_qsos !! rcall))
            then
              band ← band_from_qrg (_qrg qso);
              Some (<[rcall := default [] (worked_by_this_tcall !! rcall) ++
                                 [(band, _rel_mins qso, _qrg qso)]]>
                      worked_by_this_tcall)
            else Some worked_by_this_tcall)
         ∅ qsos.

Definition build_worked (all_qsos : gmap callsign (list small_qso))
    (calls_with_no_freq_info : gset callsign)
    : option (gmap callsign (gmap callsign (list BAND_TIME_FREQ))) :=
  foldlM (fun worked '(tcall, qsos) =>
            if negb (bool_decide (tcall ∈ calls_with_no_freq_info))
            then
              worked_by_this_tcall ← worked_by all_qsos calls_with_no_freq_info qsos;
              Some (<[tcall := worked_by_this_tcall]> worked)
            else Some worked)
         ∅ (map_to_list all_qsos).

(** The innermost loop: the reverse QSOs [vtf] found in the log of the peer,
    compared with one QSO [(tband, ttime, tfreq)]. *)
Definition count_reverse (tband : HF_BAND) (ttime tfreq : Z)
    (vtf : list BAND_TIME_FREQ) (total_good : Z * Z) : Z * Z :=
  foldl (fun '(total, good) '(rband, rtime, rfreq) =>
           if bool_decide (tband = rband) &&
              (Z.abs (ttime - rtime) <? RUN_TIME_RANGE)
           then (wrap32 (total + 1),
                 if Z.abs (tfreq - rfreq) <? FREQ_SKEW then wrap32 (good + 1)
                 else good)
           else (total, good))
        total_good vtf.

(** The counts [(total, good)] accumulated for one [tcall]; [None] is the
    exception of [worked.at(rcall)]. *)
Definition accumulate_counts
    (worked : gmap callsign (gmap callsign (list BAND_TIME_FREQ)))
    (tcall : callsign) (rcall_map : gmap callsign (list BAND_TIME_FREQ))
    : option (Z * Z) :=
  foldlM (fun total_good '(rcall, btf_vec) =>
            foldlM (fun total_good '(tband, ttime, tfreq) =>
                      rcall_worked ← worked !! rcall;
                      Some (match rcall_worked !! tcall with
                            | Some vtf =>
                                count_reverse tband ttime tfreq vtf total_good
                            | None => total_good
                            end))
                   total_good btf_vec)
         (0, 0) (map_to_list rcall_map).

(** The last loop: is a log with these counts unreliable? *)
Definition unreliable (total_good : Z * Z) : bool :=
  let '(total, good) := total_good in
  if total =? 0 then false else below_0_9 (good_fraction good total).

Definition calls_with_unreliable_freq
    (all_qsos : gmap callsign (list small_qso))
    (calls_with_no_freq_info : gset callsign) : option (gset callsign) :=
  worked ← build_worked all_qsos calls_with_no_freq_info;
  accumulated_counts ←
    foldlM (fun accumulated_counts '(tcall, rcall_map) =>
              total_good ← accumulate_counts worked tcall rcall_map;
              Some (<[tcall := total_good]> accumulated_counts))
           (∅ : gmap callsign (Z * Z)) (map_to_list worked);
  Some (dom (filter (fun '(_, total_good) => unreliable total_good = true)
                    accumulated_counts)).

(** ** Reading the logs of a contest (drscp.cpp, [process_directory]) *)

(** How a function that may end the program comes back. *)
Inductive outcome (A : Type) :=
  | Returns (a : A)     (* normal return *)
  | Exits (code : Z)    (* a call of [exit(code)] *)
  | Throws              (* an exception nothing catches *)
  | Hangs.              (* a loop that never ends *)
Arguments Returns {A} a.
Arguments Exits {A} code.
Arguments Throws {A}.
Arguments Hangs {A}.

Definition legal_chars : callsign := cs "ABCDEFGHIJKLMNOPQRSTUVWXYZ1234567890/".

(** [s.find_first_not_of(legal_chars) != string::npos] *)
Definition has_illegal_char (s : callsign) : bool :=
  existsb (fun c => negb (bool_decide (c ∈ legal_chars))) s.

(** Modelled from the spec: [remove_from_end(s, e)] of string_functions.h,
    which is not among the sources; the spec reads "trailing /QRP and /QRPP
    suffixes are stripped". *)
Definition remove_from_end (s e : callsign) : callsign :=
  if bool_decide (length e <= length s)%nat &&
     bool_decide (drop (length s - length e) s = e)
  then take (length s - length e) s
  else s.

(** The body of the loop over the lines of a log, for a line that starts
    with [QSO:]; [qso] is the [small_qso] constructed from the line (the
    default-constructed, empty QSO if the line could not be parsed).  [None]
    stands for [continue] and for a QSO that is not stored. *)
Definition accept_qso (cp : contest_parameters) (qso : small_qso)
    : option small_qso :=
  if negb (in_contest_period cp (_time qso)) then None
  else
    let qso := set_rel_mins (wrap32 ((_time qso - _t_start cp) ÷ 60)) qso in
    if bool_decide (_tcall qso = []) then None
    else
      let qso := set_tcall (remove_from_end (_tcall qso) (cs "/QRP")) qso in
      let qso := set_rcall (remove_from_end (_rcall qso) (cs "/QRP")) qso in
      let qso := set_tcall (remove_from_end (_tcall qso) (cs "/QRPP")) qso in
      let qso := set_rcall (remove_from_end (_rcall qso) (cs "/QRPP")) qso in
      if (length (_tcall qso) <? 3)%nat || (length (_rcall qso) <? 3)%nat
      then None
      else if has_illegal_char (_tcall qso) || has_illegal_char (_rcall qso)
      then None
      else if bool_decide (_tcall qso = _rcall qso) then None
      else Some qso.

(** [tcall_qsos] of one log file, given the QSOs constructed from its
    [QSO:] lines in the order of the file. *)
Definition read_log (cp : contest_parameters) (qso_lines : list small_qso)
    : gmap callsign (list small_qso) :=
  foldl (fun tcall_qsos line =>
           match accept_qso cp line with
           | Some qso =>
               <[_tcall qso := default [] (tcall_qsos !! _tcall qso) ++ [qso]]>
                 tcall_qsos
           | None => tcall_qsos
           end)
        ∅ qso_lines.

(** What the loop over the log files builds. *)
Record ingested := mk_ingested {
  all_qsos : gmap callsign (list small_qso);  (* all QSOs as recorded in the logs *)
  scp_calls : gset callsign;                  (* the entrants included automatically *)
  n_valid_logs : Z
}.

(** [all_qsos += { tcall, qsos }] is [insert], which keeps the entry of a call
    that is already a key. *)
Definition insert_new (tcall : callsign) (qsos : list small_qso)
    (m : gmap callsign (list small_qso)) : gmap callsign (list small_qso) :=
  match m !! tcall with
  | Some _ => m
  | None => <[tcall := qsos]> m
  end.

(** The part of the loop body that follows the reading of one file. *)
Definition ingest_log (opts : options) (cp : contest_parameters)
    (st : ingested) (qso_lines : list small_qso) : ingested :=
  let tcall_qsos := read_log cp qso_lines in
  if bool_decide (tcall_qsos = ∅) then st
  else
    foldl (fun st '(tcall, qsos) =>
             {| all_qsos := insert_new tcall qsos (all_qsos st);
                scp_calls := if ssize qsos >=? TL_LIMIT opts
                             then {[tcall]} ∪ scp_calls st else scp_calls st;
                n_valid_logs := n_valid_logs st |})
          {| all_qsos := all_qsos st; scp_calls := scp_calls st;
             n_valid_logs := wrap32 (n_valid_logs st + 1) |}
          (map_to_list tcall_qsos).

(** The state after all the files of the directory; [logs] holds, for each
    file, the QSOs constructed from its [QSO:] lines. *)
Definition ingest (opts : options) (cp : contest_parameters)
    (logs : list (list small_qso)) : ingested :=
  foldl (ingest_log opts cp)
        {| all_qsos := ∅; scp_calls := ∅; n_valid_logs := 0 |} logs.

(** ** The pipeline of one contest: [process_directory] (drscp.cpp) *)

Definition default_band_freq : list Z := [1800; 3500; 7000; 14000; 21000; 28000].

(** The loop filling [scp_cm]: one count per QSO whose received call is an
    entrant. *)
Definition count_entrant_rcalls (scp_calls : gset callsign)
    (qsos_per_call : gmap callsign (list small_qso)) : gmap callsign Z :=
  foldl (fun scp_cm '(tcall, qsos) =>
           foldl (fun scp_cm qso =>
                    if bool_decide (_rcall qso ∈ scp_calls)
                    then call_map_add (_rcall qso) scp_cm else scp_cm)
                 scp_cm qsos)
        ∅ (map_to_list qsos_per_call).

(** [pruned_qsos] after the QSOs with an entrant have been erased, and then
    the logs left empty. *)
Definition prune_entrant_rcalls (scp_calls : gset callsign)
    (qsos_per_call : gmap callsign (list small_qso))
    : gmap callsign (list small_qso) :=
  filter (fun '(_, qsos) => qsos <> [])
         (filter (fun qso => _rcall qso ∉ scp_calls) <$> qsos_per_call).

(** The entrants all of whose frequencies are band-edge defaults. *)
Definition no_freq_info (qsos_per_call : gmap callsign (list small_qso))
    : gset callsign :=
  dom (filter (fun '(_, qsos) =>
                 forallb (fun qso => bool_decide (_qrg qso ∈ default_band_freq))
                         qsos = true)
              qsos_per_call).

(** The loop filling the returned map: one count per QSO whose received call
    was returned by a band. *)
Definition count_returned_rcalls (returned_calls : gset callsign)
    (qsos_per_call : gmap callsign (list small_qso)) (rv : gmap callsign Z)
    : gmap callsign Z :=
  foldl (fun rv '(tcall, qsos) =>
           foldl (fun rv qso =>
                    if bool_decide (_rcall qso ∈ returned_calls)
                    then call_map_add (_rcall qso) rv else rv)
                 rv qsos)
        rv (map_to_list qsos_per_call).

(** The bands are processed by one task each; a task only reads what it
    shares with the others, and the results are collected in the order of
    the bands. *)
Definition process_bands (opts : options)
    (pruned_per_band_qsos all_per_band_qsos
       : gmap HF_BAND (gmap callsign (list small_qso)))
    (calls_with_no_freq_info calls_with_poor_freq_info : gset callsign)
    (max_rel_mins : Z) : option (list (gset callsign)) :=
  foldlM (fun out_calls this_band =>
            match pruned_per_band_qsos !! this_band,
                  all_per_band_qsos !! this_band with
            | Some pruned_qsos_this_band, Some all_qsos_this_band =>
                band_calls ← process_band opts pruned_qsos_this_band
                                          all_qsos_this_band
                                          calls_with_no_freq_info
                                          calls_with_poor_freq_info
                                          max_rel_mins;
                Some (out_calls ++ [band_calls])
            | _, _ => Some out_calls
            end)
         [] [B160; B80; B40; B20; B15; B10].

(** [process_directory], from the QSOs constructed from the files of the
    directory. *)
Definition process_directory (opts : options) (cp : contest_parameters)
    (logs : list (list small_qso)) : outcome (gmap callsign Z) :=
  let max_rel_mins := wrap32 (wrap32 (_hours cp * 60) - 1) in
  let st := ingest opts cp logs in
  if n_valid_logs st =? 0 then Exits (-1)
  else
    let scp_calls := scp_calls st in
    let all_qsos := SORT <$> all_qsos st in
    let scp_cm := count_entrant_rcalls scp_calls all_qsos in
    let pruned_qsos := prune_entrant_rcalls scp_calls all_qsos in
    let calls_with_no_freq_info := no_freq_info all_qsos in
    match calls_with_unreliable_freq all_qsos calls_with_no_freq_info with
    | None => Throws
    | Some calls_with_poor_freq_info =>
        let all_per_band_qsos := build_minilog all_qsos in
        let pruned_per_band_qsos := build_minilog pruned_qsos in
        match process_bands opts pruned_per_band_qsos all_per_band_qsos
                            calls_with_no_freq_info calls_with_poor_freq_info
                            max_rel_mins with
        | None => Throws
        | Some out_calls =>
            let returned_calls : gset callsign := ⋃ out_calls in
            let rv := call_map_merge ∅ scp_cm in
            Returns (count_returned_rcalls returned_calls all_qsos rv)
        end
    end.

(** ** The command line (command_line.cpp) *)

(** [_arg]: the arguments, the name of the program first. *)
Record command_line := mk_command_line { _arg : list callsign }.

Definition _argc (cl : command_line) : Z := ssize (_arg cl).

(** [n_parameters()] is defined in command_line.h, which is not among the
    sources.  command_line.cpp uses it as the index of the last argument: the
    loops of [tolower()] and [parameter_present()] run up to it, and
    [parameter(n)] throws from [_argc] on; so it is [_argc - 1]. *)
Definition n_parameters (cl : command_line) : Z := _argc cl - 1.

(** [parameter(n)]; [None] is the exception for [n >= _argc]. *)
Definition parameter (cl : command_line) (n : Z) : option callsign :=
  at_ (_arg cl) n.

(** The integers [lo, lo + 1, ...] below [hi]. *)
Definition indices (lo hi : Z) : list Z :=
  map (fun k => lo + Z.of_nat k) (seq 0 (Z.to_nat (hi - lo))).

(** [value_present(s)]: is [s] one of the parameters before the last? *)
Definition value_present (cl : command_line) (s : callsign) : bool :=
  existsb (fun n => bool_decide (parameter cl n = Some s))
          (indices 1 (n_parameters cl)).

(** [value(s)]: the parameter that follows the last occurrence of [s]. *)
Definition value (cl : command_line) (s : callsign) : callsign :=
  if negb (value_present cl s) then []
  else
    foldl (fun rv n =>
             if bool_decide (parameter cl n = Some s)
             then default [] (parameter cl (n + 1)) else rv)
          [] (indices 1 (n_parameters cl)).

(** [parameter_present(s)]: is [s] one of the parameters? *)
Definition parameter_present (cl : command_line) (s : callsign) : bool :=
  existsb (fun n => bool_decide (parameter cl n = Some s))
          (indices 1 (n_parameters cl + 1)).

(** ** The contest scheduler: [main] (drscp.cpp) *)

(** Sequencing of steps that may end the program. *)
Definition outcome_bind {A B} (x : outcome A) (f : A -> outcome B) : outcome B :=
  match x with
  | Returns a => f a
  | Exits code => Exits code
  | Throws => Throws
  | Hangs => Hangs
  end.

(** What [main] obtains from the file system and from the conversions of
    string_functions.h and diskfile.h, which are not among the sources. *)
Record environment := mk_environment {
  (* [file_exists(filename)] *)
  file_exists : callsign -> bool;
  (* [to_lines(read_file(filename))] *)
  read_lines : callsign -> list callsign;
  (* [directory_exists(dirname, LINKS::INCLUDE)] *)
  directory_exists : callsign -> bool;
  (* the fields of a contest line as the constructor of [contest_parameters]
     reads them: the directory, the start time given by [timegm] and the
     number of hours; [None] where the constructor calls [exit(-1)] *)
  contest_fields : callsign -> option (callsign * Z * Z);
  (* [from_string<int>(s)], taken to convert every string *)
  from_string_int : callsign -> Z;
  (* for each file of a directory, the QSOs constructed from its [QSO:] lines *)
  logs_in_directory : callsign -> list (list small_qso)
}.

(** A line of output. *)
Inductive output_line :=
  | SCP_line (call : callsign)                 (* [cout << pr.first << endl] *)
  | XSCP_line (call : callsign) (count : Z).   (* [... << " " << pr.second << endl] *)

Definition line_call (l : output_line) : callsign :=
  match l with
  | SCP_line call => call
  | XSCP_line call _ => call
  end.

Section Main.

Variable env : environment.

(** [value_line(values, PC_OUTPUT)] is not among the sources: the threshold
    below which [main] erases calls is a parameter. *)
Variable value_line : list Z -> Z -> Z.

(** [compare_calls], the order of [CALL_MAP], is not among the sources; it is
    taken to be a strict total order on callsigns, so that the keys of a
    [CALL_MAP] are distinct strings. *)
Variable compare_calls : callsign -> callsign -> bool.

(** The pairs of a [CALL_MAP] in the order of its iterators. *)
Definition call_map_pairs (cm : gmap callsign Z) : list (callsign * Z) :=
  merge_sort (fun a b : callsign * Z => negb (compare_calls b.1 a.1))
             (map_to_list cm).

(** [s.starts_with(c)] *)
Definition starts_with_char (s : callsign) (c : ascii) : bool :=
  match s with
  | d :: _ => bool_decide (d = c)
  | [] => false
  end.

(** [contest_parameters { line }] *)
Definition contest_of_line (line : callsign) : outcome contest_parameters :=
  match contest_fields env line with
  | Some (dir, start, hrs) => Returns (make_contest_parameters dir start hrs)
  | None => Exits (-1)
  end.

(** [params_vec] as built from the command line. *)
Definition contests_of_command_line (cl : command_line)
    : outcome (list contest_parameters) :=
  if negb (value_present cl (cs "-dir")) then Exits (-1)
  else
    let rawdirname := value cl (cs "-dir") in
    if starts_with_char rawdirname "@"%char then
      let filename := drop 1 rawdirname in
      if negb (file_exists env filename) then Exits (-1)
      else
        foldl (fun params_vec line =>
                 outcome_bind params_vec (fun params_vec =>
                   if negb (bool_decide (line = [])) &&
                      negb (starts_with_char line "#"%char) &&
                      bool_decide (" "%char ∈ line)
                   then outcome_bind (contest_of_line line)
                          (fun cp => Returns (params_vec ++ [cp]))
                   else Returns params_vec))
              (Returns []) (read_lines env filename)
    else
      if negb (value_present cl (cs "-start")) then Exits (-1)
      else if negb (value_present cl (cs "-hrs")) then Exits (-1)
      else
        outcome_bind
          (contest_of_line (rawdirname ++ cs " " ++ value cl (cs "-start") ++
                            cs " " ++ value cl (cs "-hrs")))
          (fun cp => Returns [cp]).

(** The globals after the options have been read. *)
Definition options_of_command_line (cl : command_line) : options :=
  {| CUTOFF_LIMIT := if value_present cl (cs "-l")
                     then from_string_int env (value cl (cs "-l")) else 1;
     MAX_PARALLEL := if value_present cl (cs "-p")
                     then from_string_int env (value cl (cs "-p")) else 1;
     TL_LIMIT := if value_present cl (cs "-tl")
                 then from_string_int env (value cl (cs "-tl")) else 1;
     PC_OUTPUT := if value_present cl (cs "-xpc")
                  then from_string_int env (value cl (cs "-xpc")) else 100;
     DISPLAY_BAD_QSOS := parameter_present cl (cs "-i");
     tracing := value_present cl (cs "-tr");
     verbose := parameter_present cl (cs "-v") |}.

(** The two loops over the futures.  Every directory is processed by a task
    of its own and the maps the tasks return are added to [xscp_calls] as the
    tasks complete; the sum does not depend on the order, and the model adds
    them in the order of [params_vec].  With [MAX_PARALLEL] equal to 0 the
    loop that waits for a free slot ([while (processing_directories ==
    MAX_PARALLEL)]) never ends, as no task has been started. *)
Definition process_contests (opts : options)
    (params_vec : list contest_parameters) : outcome (gmap callsign Z) :=
  match params_vec with
  | [] => Returns ∅
  | _ =>
      if MAX_PARALLEL opts =? 0 then Hangs
      else
        foldl (fun xscp_calls cp =>
                 outcome_bind xscp_calls (fun xscp_calls =>
                   outcome_bind
                     (process_directory opts cp
                        (logs_in_directory env (_directory cp)))
                     (fun calls => Returns (call_map_merge xscp_calls calls))))
              (Returns ∅) params_vec
  end.

(** "possibly prune the list for output" *)
Definition prune_for_output (opts : options) (xscp_calls : gmap callsign Z)
    : gmap callsign Z :=
  if PC_OUTPUT opts =? 100 then xscp_calls
  else
    let values := map snd (call_map_pairs xscp_calls) in
    let val_limit := value_line values (PC_OUTPUT opts) in
    filter (fun pr : callsign * Z => ~ (pr.2 < val_limit)) xscp_calls.

(** "output the list of [X]SCP calls, one per line" *)
Definition output_calls (xscp : bool) (xscp_calls : gmap callsign Z)
    : list output_line :=
  map (fun pr : callsign * Z =>
         if xscp then XSCP_line pr.1 pr.2 else SCP_line pr.1)
      (call_map_pairs xscp_calls).

(** [main]: the value it returns and the [X]SCP lines it has written (what
    the options [-v] and [-tr] print besides is left out). *)
Definition main (cl : command_line) : outcome (Z * list output_line) :=
  outcome_bind (contests_of_command_line cl) (fun params_vec =>
    if existsb (fun cp => negb (directory_exists env (_directory cp))) params_vec
    then Exits (-1)
    else
      let opts := options_of_command_line cl in
      let xscp := parameter_present cl (cs "-x") in
      outcome_bind (process_contests opts params_vec) (fun xscp_calls =>
        let xscp_calls := prune_for_output opts xscp_calls in
        Returns (1, output_calls xscp xscp_calls))).

End Main.

(** The exit status the parent of the process sees: the low eight bits of
    the value returned by [main] or handed to [exit]; none when the program
    is ended by a signal or does not end. *)
Definition exit_status {A} (r : outcome (Z * A)) : option Z :=
  match r with
  | Returns (code, _) => Some (code mod 256)
  | Exits code => Some (code mod 256)
  | Throws => None
  | Hangs => None
  end.

(** ** Predicates used in the statements *)

(** The number of QSOs of a vector whose received call is [call]. *)
Definition rcall_count (call : callsign) (vec : list small_qso) : Z :=
  ssize (filter (fun qso => _rcall qso = call) vec).

(** Some log records [call] as the received call of a QSO. *)
Definition recorded_as_rcall (call : callsign)
    (qsos_per_call : gmap callsign (list small_qso)) : Prop :=
  exists tcall qsos qso,
    qsos_per_call !! tcall = Some qsos /\ qso ∈ qsos /\ _rcall qso = call.

(** Every [exit] of the program is [exit(-1)]. *)
Definition exits_minus_1 {A} (r : outcome A) : Prop :=
  forall code, r = Exits code -> code = -1.

(** A map of busts lists [a] among the busts of [b] whenever it lists [b]
    among the busts of [a]. *)
Definition busts_symmetric (rv : gmap callsign (gset callsign)) : Prop :=
  forall a b, b ∈ default ∅ (rv !! a) -> a ∈ default ∅ (rv !! b).

(** ** A small contest, used to run the definitions

    One hour on 20 m, starting at [example_start].  Three entrants (K1AAA,
    W2BBB and W3CCC) work one another and the stations N7DR and KX9XYZ, which
    sent in no log. *)

Definition example_start : Z := 1666994400.

Definition example_cp : contest_parameters :=
  make_contest_parameters (cs "logs") example_start 1.

(** A QSO as the constructor of [small_qso] leaves it ([_rel_mins] is 0),
    logged [minute] minutes after the start. *)
Definition example_qso (tcall rcall : string) (qrg minute id : Z) : small_qso :=
  {| _tcall := cs tcall; _rcall := cs rcall;
     _band := default BAD (band_from_qrg qrg); _qrg := qrg;
     _time := example_start + 60 * minute; _rel_mins := 0; _id := id |}.

Definition example_log_K1AAA : list small_qso :=
  [ example_qso "K1AAA" "W2BBB" 14050 0 0;
    example_qso "K1AAA" "N7DR" 14050 3 1;
    example_qso "K1AAA" "KX9XYZ" 14050 7 2;
    example_qso "K1AAA" "W3CCC" 14050 12 3 ].

Definition example_log_W2BBB : list small_qso :=
  [ example_qso "W2BBB" "K1AAA" 14050 0 4;
    example_qso "W2BBB" "N7DR" 14020 20 5;
    example_qso "W2BBB" "W3CCC" 14020 25 6 ].

Definition example_log_W3CCC : list small_qso :=
  [ example_qso "W3CCC" "K1AAA" 14050 12 7;
    example_qso "W3CCC" "W2BBB" 14020 25 8;
    example_qso "W3CCC" "N7DR" 14030 40 9 ].

Definition example_logs : list (list small_qso) :=
  [example_log_K1AAA; example_log_W2BBB; example_log_W3CCC].

(** The map [process_directory] returns for the small contest. *)
Definition example_rv : gmap callsign Z :=
  <[cs "N7DR" := 3]> (<[cs "K1AAA" := 2]> (<[cs "W2BBB" := 2]>
    (<[cs "W3CCC" := 2]> ∅))).

(** The QSOs of the three logs as [process_directory] hands them to
    [process_band] for 20 m. *)
Definition example_all_20m : gmap callsign (list small_qso) :=
  default ∅ (build_minilog (all_qsos (ingest default_options example_cp
                                              example_logs)) !! B20).

Definition example_pruned_20m : gmap callsign (list small_qso) :=
  prune_entrant_rcalls {[cs "K1AAA"; cs "W2BBB"; cs "W3CCC"]} example_all_20m.

(** Two QSOs logged in the same minute, with increasing identifiers. *)
Definition example_qso_first : small_qso :=
  example_qso "K1AAA" "N7DR" 14050 3 1.
Definition example_qso_second : small_qso :=
  example_qso "W2BBB" "N7DR" 14050 3 2.

(** Two entrants that worked each other ten times, ten minutes apart; they
    logged the same frequency nine times and frequencies 10 kHz apart
    once. *)
Definition example_nine_of_ten : gmap callsign (list small_qso) :=
  <[cs "K1AAA" :=
      map (fun k => set_rel_mins (10 * Z.of_nat k)
                      (example_qso "K1AAA" "W2BBB" 14050 (10 * Z.of_nat k)
                                   (Z.of_nat k)))
          (seq 0 10)]>
  (<[cs "W2BBB" :=
      map (fun k => set_rel_mins (10 * Z.of_nat k)
                      (example_qso "W2BBB" "K1AAA"
                                   (if (k =? 3)%nat then 14060 else 14050)
                                   (10 * Z.of_nat k) (100 + Z.of_nat k)))
          (seq 0 10)]> ∅).

(** A run of the program on the small contest:
    [drscp -dir logs -start 2022-10-28T22:00 -hrs 1]. *)
Definition example_command_line : command_line :=
  {| _arg := [cs "drscp"; cs "-dir"; cs "logs"; cs "-start";
              cs "2022-10-28T22:00"; cs "-hrs"; cs "1"] |}.

Definition example_environment : environment :=
  {| file_exists := fun _ => false;
     read_lines := fun _ => [];
     directory_exists := fun dir => bool_decide (dir = cs "logs");
     contest_fields := fun _ => Some (cs "logs", example_start, 1);
     from_string_int := fun _ => 1;
     logs_in_directory := fun _ => example_logs |}.

(** An order of callsigns and a threshold function to run [main] with. *)
Definition example_compare_calls (a b : callsign) : bool :=
  (encode a <? encode b)%positive.

Definition example_value_line (values : list Z) (pc : Z) : Z := 50.

(** The counts of scenario 6 of the specification. *)
Definition example_counts : gmap callsign Z :=
  <[cs "X1X" := 100]> (<[cs "Y1Y" := 50]> (<[cs "Z1Z" := 50]>
    (<[cs "W1W" := 1]> ∅))).

(** [pruned_vec] of the small contest on 20 m as the first three passes
    leave it: no QSO is removed. *)
Definition example_pruned_vec : list small_qso :=
  [ set_rel_mins 3 (example_qso "K1AAA" "N7DR" 14050 3 1);
    set_rel_mins 7 (example_qso "K1AAA" "KX9XYZ" 14050 7 2);
    set_rel_mins 20 (example_qso "W2BBB" "N7DR" 14020 20 5);
    set_rel_mins 40 (example_qso "W3CCC" "N7DR" 14030 40 9) ].

(** The ratio good/total is below nine tenths, in exact arithmetic. *)
Definition ratio_below_nine_tenths (total_good : Z * Z) : Prop :=
  let '(total, good) := total_good in 10 * good < 9 * total.

(** ** Predicates and pure forms used by the further properties *)

(** The order of a vector that [time_map] and [get_bounds] search by
    bisection: by relative minutes. *)
Definition by_rel_mins (a b : small_qso) : Prop := _rel_mins a <= _rel_mins b.

#[global] Instance by_rel_mins_dec : RelDecision by_rel_mins.
Proof. intros a b. unfold by_rel_mins. apply _. Defined.

(** The number of QSOs of [vec] logged before the minute [target]: in a
    vector in the order of its minutes, the index of the first QSO that is
    not before it. *)
Definition count_before (target : Z) (vec : list small_qso) : nat :=
  length (filter (fun q => _rel_mins q < target) vec).

(** What [process_directory] has checked of a QSO it stores in the log of
    [tcall] for the contest [cp]. *)
Definition stored_qso (cp : contest_parameters) (tcall : callsign)
    (qso : small_qso) : Prop :=
  _tcall qso = tcall /\
  _t_start cp <= _time qso < _t_end cp /\
  _rel_mins qso = wrap32 ((_time qso - _t_start cp) ÷ 60) /\
  (3 <= length (_tcall qso))%nat /\ (3 <= length (_rcall qso))%nat /\
  has_illegal_char (_tcall qso) = false /\
  has_illegal_char (_rcall qso) = false /\
  _tcall qso <> _rcall qso.

(** The busts of [k] listed by a map of busts. *)
Definition busts_of (rv : gmap callsign (gset callsign)) (k : callsign)
    : gset callsign :=
  default ∅ (rv !! k).

(** Was [tqso] logged within [skew] minutes of [rqso]? *)
Definition minutes_apart (skew : Z) (rqso tqso : small_qso) : Prop :=
  Z.abs (_rel_mins tqso - _rel_mins rqso) <= skew.

#[global] Instance minutes_apart_dec skew rqso tqso :
  Decision (minutes_apart skew rqso tqso).
Proof. unfold minutes_apart. apply _. Defined.

(** The pruned QSOs that the first pass marks for removal. *)
Definition marked_A (calls_with_no_freq_info calls_with_poor_freq_info : gset callsign)
    (all_vec : list small_qso) (rqso : small_qso) : bool :=
  existsb (tcall_match calls_with_no_freq_info calls_with_poor_freq_info rqso)
          (filter (minutes_apart CLOCK_SKEW rqso) all_vec).

(** What a pass adds to [ids_to_remove] for the QSO [q]. *)
Definition mark (marked : small_qso -> bool) (q : small_qso) : gset Z :=
  if marked q then {[_id q]} else ∅.

(** Does the entrant [call] appear to have been running where [qso] was
    logged?  ([is_stn_running] with the ranges of iterators read as the QSOs
    logged within [CLOCK_SKEW] minutes.) *)
Definition running_entrant (all_qsos_this_band : gmap callsign (list small_qso))
    (calls_with_no_freq_info calls_with_poor_freq_info : gset callsign)
    (all_vec : list small_qso) (call : callsign) (qso : small_qso) : bool :=
  bool_decide (call ∈ tcalls all_qsos_this_band) &&
  if call_has_good_freq_info call calls_with_no_freq_info calls_with_poor_freq_info
  then existsb (fun q => Z.abs (_qrg qso - _qrg q) <=? FREQ_SKEW)
               (filter (minutes_apart CLOCK_SKEW qso)
                       (default [] (all_qsos_this_band !! call)))
  else existsb (fun q => negb (bool_decide (_tcall q = _tcall qso)) &&
                         bool_decide (_rcall q = call) &&
                         (Z.abs (_qrg qso - _qrg q) <=? FREQ_SKEW))
               (filter (minutes_apart CLOCK_SKEW qso) all_vec).

(** The pruned QSOs that the second pass marks for removal. *)
Definition marked_B (all_qsos_this_band : gmap callsign (list small_qso))
    (calls_with_no_freq_info calls_with_poor_freq_info : gset callsign)
    (all_vec : list small_qso) (qso : small_qso) : bool :=
  existsb (fun tcall =>
             is_bust tcall (_rcall qso) &&
             running_entrant all_qsos_this_band calls_with_no_freq_info
                             calls_with_poor_freq_info all_vec tcall qso)
          (elements (tcalls all_qsos_this_band)).

(** Relative minutes do not decrease with time among the QSOs of [vec]. *)
Definition rel_mins_monotone (vec : list small_qso) : Prop :=
  forall a b, a ∈ vec -> b ∈ vec -> _time a <= _time b ->
              _rel_mins a <= _rel_mins b.

(** The pruned QSOs that the third pass marks for removal: a QSO of the
    pruned vector logged within [RUN_TIME_RANGE] minutes has a received call
    that is a bust of the one of [rqso], and the frequencies match. *)
Definition marked_C (calls_with_no_freq_info calls_with_poor_freq_info : gset callsign)
    (pruned_vec : list small_qso) (rqso : small_qso) : bool :=
  existsb (fun qso =>
             is_bust (_rcall rqso) (_rcall qso) &&
             frequency_match calls_with_no_freq_info calls_with_poor_freq_info
                             qso rqso false)
          (filter (minutes_apart RUN_TIME_RANGE rqso) pruned_vec).

(** A QSO of the contest that starts at [start] and lasts up to the minute
    [max_rel_mins]. *)
Definition in_contest_qso (start max_rel_mins : Z) (q : small_qso) : Prop :=
  _rel_mins q = (_time q - start) `div` 60 /\ 0 <= _rel_mins q <= max_rel_mins.

#[global] Instance in_contest_qso_dec start max_rel_mins q :
  Decision (in_contest_qso start max_rel_mins q).
Proof. unfold in_contest_qso. apply _. Defined.

(** The logs of a band as [process_directory] hands them to [process_band]:
    each log in chronological order and made of QSOs of the contest. *)
Definition band_logs (start max_rel_mins : Z)
    (qsos_this_band : gmap callsign (list small_qso)) : Prop :=
  map_Forall (fun _ log => StronglySorted chronological log /\
                           Forall (in_contest_qso start max_rel_mins) log)
             qsos_this_band.

(** [erase_if] on the identifiers of the QSOs a pass has marked. *)
Definition remove_marked (marked : small_qso -> bool) (vec : list small_qso)
    : list small_qso :=
  erase_ids (list_to_set (map _id (filter (fun q => marked q = true) vec))) vec.

(** What the first three passes of [process_band] leave of the pruned
    QSOs. *)
Definition prune_band (calls_with_no_freq_info calls_with_poor_freq_info : gset callsign)
    (pruned_qsos_this_band all_qsos_this_band : gmap callsign (list small_qso))
    : list small_qso :=
  let all_vec := build_vec all_qsos_this_band in
  let pruned_vec := build_vec pruned_qsos_this_band in
  let pruned_vec :=
    remove_marked (marked_A calls_with_no_freq_info calls_with_poor_freq_info
                            all_vec) pruned_vec in
  let pruned_vec :=
    remove_marked (marked_B all_qsos_this_band calls_with_no_freq_info
                            calls_with_poor_freq_info all_vec) pruned_vec in
  remove_marked (marked_C calls_with_no_freq_info calls_with_poor_freq_info
                          pruned_vec) pruned_vec.

(** Every QSO of the log of [tcall] has [tcall] as its transmitted call. *)
Definition keyed_by_tcall (qsos_per_call : gmap callsign (list small_qso)) : Prop :=
  map_Forall (fun tcall qsos => Forall (fun q => _tcall q = tcall) qsos)
             qsos_per_call.

(** The log of [call] in the minilog of [band]; empty if there is none. *)
Definition minilog_of (rv : gmap HF_BAND (gmap callsign (list small_qso)))
    (band : HF_BAND) (call : callsign) : list small_qso :=
  default [] (default ∅ (rv !! band) !! call).

(** Every log of a minilog is non-empty, and so is every minilog. *)
Definition minilogs_inhabited (rv : gmap HF_BAND (gmap callsign (list small_qso))) : Prop :=
  map_Forall (fun _ minilog =>
                minilog <> (∅ : gmap callsign (list small_qso)) /\
                map_Forall (fun _ log => log <> ([] : list small_qso)) minilog) rv.

(** The frequency of the QSO lies in one of the contest bands. *)
Definition valid_frequency (q : small_qso) : Prop :=
  is_Some (band_from_qrg (_qrg q)).

#[global] Instance valid_frequency_dec q : Decision (valid_frequency q).
Proof. unfold valid_frequency. apply _. Defined.

(** The calls a cross-index of worked stations may list: the entrants with
    frequency information. *)
Definition peer (all_qsos : gmap callsign (list small_qso))
    (calls_with_no_freq_info : gset callsign) (rcall : callsign) : Prop :=
  (rcall ∉ calls_with_no_freq_info) /\ is_Some (all_qsos !! rcall).

(** A QSO as the constructor of [small_qso] leaves it: empty after an error,
    or with a frequency in a contest band. *)
Definition constructed (q : small_qso) : Prop :=
  _tcall q = [] \/ valid_frequency q.

#[global] Instance constructed_dec q : Decision (constructed q).
Proof. unfold constructed. apply _. Defined.

(** The calls returned for one band, if the band holds QSOs. *)
Definition band_result (opts : options)
    (calls_with_no_freq_info calls_with_poor_freq_info : gset callsign)
    (pruned_per_band_qsos all_per_band_qsos
       : gmap HF_BAND (gmap callsign (list small_qso)))
    (this_band : HF_BAND) : option (gset callsign) :=
  match pruned_per_band_qsos !! this_band, all_per_band_qsos !! this_band with
  | Some pruned_qsos_this_band, Some all_qsos_this_band =>
      Some (local_scp_calls
              (pass_D opts
                 (prune_band calls_with_no_freq_info calls_with_poor_freq_info
                             pruned_qsos_this_band all_qsos_this_band)))
  | _, _ => None
  end.

(** The bands in the order in which [process_directory] starts their tasks. *)
Definition contest_bands : list HF_BAND := [B160; B80; B40; B20; B15; B10].

(** A line of a list file that [main] takes for a contest: not empty, not a
    comment, and with a space in it. *)
Definition contest_line (line : callsign) : bool :=
  negb (bool_decide (line = [])) && negb (starts_with_char line "#"%char) &&
  bool_decide (" "%char ∈ line).

(** The log a file holds for [tcall], for each of the files that hold
    one, in the order of the directory. *)
Definition logs_of (cp : contest_parameters) (tcall : callsign)
    (logs : list (list small_qso)) : list (list small_qso) :=
  omap (fun log => read_log cp log !! tcall) logs.

(** ** The rest of class [count_values] (count_values.h) *)

(** [total_count()]: [rv += n] over the entries, on [int32_t]. *)
Definition total_count (h : gmap callsign Z) : Z :=
  map_fold (fun _ n rv => wrap32 (rv + n)) 0 h.

(** [operator+=(const std::vector<T>&)]: one [+=] per element. *)
Definition count_values_add_all (tvec : list callsign) (h : gmap callsign Z)
    : gmap callsign Z :=
  foldl (fun h v => count_values_add v h) h tvec.

(** [sorted_invert()]: [rv[n] += value] for every entry; the result maps a
    count to the set of the values that have it. *)
Definition sorted_invert (h : gmap callsign Z) : gmap Z (gset callsign) :=
  map_fold (fun value n rv => <[n := {[value]} ∪ default ∅ (rv !! n)]> rv) ∅ h.

(** [maximum()], given the entries of the underlying [unordered_map] in the
    order in which its iterators visit them: an entry replaces [rv] when its
    count is above [max_value], which is set to the least [int32_t] and
    never changed.  [rv] starts as the value-initialised pair. *)
Definition maximum (entries : list (callsign * Z)) : callsign * Z :=
  foldl (fun rv '(value, n) => if -2147483648 <? n then (value, n) else rv)
        ([], 0) entries.

(** [minimum()] likewise, with [min_value] the greatest [int32_t]. *)
Definition minimum (entries : list (callsign * Z)) : callsign * Z :=
  foldl (fun rv '(value, n) => if n <? 2147483647 then (value, n) else rv)
        ([], 0) entries.

(** The number of occurrences of [v] in a vector. *)
Definition occurrences (v : callsign) (tvec : list callsign) : Z :=
  ssize (filter (fun x => x = v) tvec).

(** ** The construction of a QSO from a line of a log (drscp.h) *)

(** The fields of [struct tm] that the constructor sets; the others are
    zero. *)
Record tm := mk_tm {
  tm_year : Z; tm_mon : Z; tm_mday : Z; tm_hour : Z; tm_min : Z
}.

(** [small_qso { }]: the value-initialised QSO that the constructor leaves
    after an error. *)
Definition default_small_qso : small_qso :=
  {| _tcall := []; _rcall := []; _band := BAD; _qrg := 0; _time := 0;
     _rel_mins := 0; _id := 0 |}.

(** [qso_fields[n]], for [n] below the size of the vector. *)
Definition field (qso_fields : list callsign) (n : nat) : callsign :=
  default [] (qso_fields !! n).

Section Constructor.

(** The conversions of string_functions.h and of the C library, which are
    not among the sources. *)
Variable from_string_int : callsign -> Z.
Variable contains_letter contains_digit : callsign -> bool.
Variable substring : callsign -> nat -> nat -> callsign.
Variable timegm : tm -> Z.

(** [small_qso(const std::vector<std::string_view>& qso_fields)], with the
    value [qso_id] of the global counter that becomes the identifier. *)
Definition small_qso_of_fields (qso_id : Z) (qso_fields : list callsign)
    : small_qso :=
  if (length qso_fields <? 9)%nat then default_small_qso
  else
    let qrg := from_string_int (field qso_fields 1) in
    let tcall := field qso_fields 5 in
    let rcall := field qso_fields 8 in
    if negb (contains_letter tcall) then default_small_qso
    else if negb (contains_digit tcall) then default_small_qso
    else if negb (contains_letter rcall) then default_small_qso
    else if negb (contains_digit rcall) then default_small_qso
    else
      match band_from_qrg qrg with
      | None => default_small_qso      (* catch (...) *)
      | Some band =>
          let dat := field qso_fields 3 in
          let utc := field qso_fields 4 in
          let t :=
            {| tm_year := wrap32 (from_string_int (substring dat 0 4) - 1900);
               tm_mon := wrap32 (from_string_int (substring dat 5 2) - 1);
               tm_mday := from_string_int (substring dat 8 2);
               tm_hour := from_string_int (substring utc 0 2);
               tm_min := from_string_int (substring utc 2 2) |} in
          {| _tcall := tcall; _rcall := rcall; _band := band; _qrg := qrg;
             _time := timegm t; _rel_mins := 0; _id := qso_id |}
      end.

(** The QSOs constructed from the lines of a log, one after the other: every
    construction takes the next value of the counter [qso_id] (an [int]). *)
Fixpoint construct_all (qso_id : Z) (lines : list (list callsign))
    : list small_qso :=
  match lines with
  | [] => []
  | qso_fields :: rest =>
      small_qso_of_fields qso_id qso_fields
        :: construct_all (wrap32 (qso_id + 1)) rest
  end.

End Constructor.

(** ** Plain calls *)

(** A call made of at least three letters and digits: one that the checks of
    [process_directory] on the calls let through, and that ends in no
    [/QRP]. *)
Definition plain_call (s : callsign) : Prop :=
  (3 <= length s)%nat /\
  Forall (fun c => c ∈ cs "ABCDEFGHIJKLMNOPQRSTUVWXYZ1234567890") s.

#[global] Instance plain_call_dec s : Decision (plain_call s).
Proof. unfold plain_call. apply _. Defined.

(** A QSO between two different plain calls. *)
Definition plain_qso (qso : small_qso) : Prop :=
  plain_call (_tcall qso) /\ plain_call (_rcall qso) /\ _tcall qso <> _rcall qso.

#[global] Instance plain_qso_dec qso : Decision (plain_qso qso).
Proof. unfold plain_qso. apply _. Defined.

(** ** Definitions for the further properties *)

(** The step of the loops of [main] over the futures: the map returned for
    the contest [cp] is added to [xscp_calls]. *)
Definition add_contest (env : environment) (opts : options)
    (xscp_calls : outcome (gmap callsign Z)) (cp : contest_parameters)
    : outcome (gmap callsign Z) :=
  outcome_bind xscp_calls (fun xscp_calls =>
    outcome_bind
      (process_directory opts cp (logs_in_directory env (_directory cp)))
      (fun calls => Returns (call_map_merge xscp_calls calls))).

(** [process_directory] returns for the contest [cp]. *)
Definition contest_returns (env : environment) (opts : options)
    (cp : contest_parameters) : Prop :=
  exists rv, process_directory opts cp (logs_in_directory env (_directory cp))
             = Returns rv.

(** A command line that names a list file, and a list file of directory
    names without start times. *)
Definition example_list_command_line : command_line :=
  {| _arg := [cs "drscp"; cs "-dir"; cs "@contests"] |}.

Definition example_list_environment : environment :=
  {| file_exists := fun filename => bool_decide (filename = cs "contests");
     read_lines := fun _ => [cs "# the logs of 2022"; cs "cqww-2022"; [];
                             cs "arrl-dx-2022"];
     directory_exists := fun _ => true;
     contest_fields := fun _ => None;
     from_string_int := fun _ => 1;
     logs_in_directory := fun _ => example_logs |}.

(** A second contest on the logs of the example: the same start, two
    hours. *)
Definition example_cp_two_hours : contest_parameters :=
  make_contest_parameters (cs "logs") example_start 2.

(** A command line that asks for no parallel task at all, and an
    environment that converts the digit [0]. *)
Definition example_no_task_command_line : command_line :=
  {| _arg := [cs "drscp"; cs "-dir"; cs "logs"; cs "-start";
              cs "2022-10-28T22:00"; cs "-hrs"; cs "1"; cs "-p"; cs "0"] |}.

Definition example_no_task_environment : environment :=
  {| file_exists := fun _ => false;
     read_lines := fun _ => [];
     directory_exists := fun dir => bool_decide (dir = cs "logs");
     contest_fields := fun _ => Some (cs "logs", example_start, 1);
     from_string_int := fun s => if bool_decide (s = cs "0") then 0 else 1;
     logs_in_directory := fun _ => example_logs |}.

(** ** The loops of [main] over the futures, pass by pass *)

(** The state of the loops: the tasks started and not yet collected, in the
    order of the list [futures]; the counter; the calls collected. *)
Record scheduler := mk_scheduler {
  futures : list contest_parameters;
  processing_directories : Z;
  xscp_calls : gmap callsign Z
}.

(** The state before the first loop. *)
Definition initial_scheduler : scheduler :=
  {| futures := []; processing_directories := 0; xscp_calls := ∅ |}.

Section Scheduler.

Variable env : environment.
Variable opts : options.

(** One pass of the [for] loop over the futures.  [ready i] says whether
    [wait_for(0s)] finds the task at position [i] completed; the first such
    task is collected: its map is added ([get] rethrows what the task has
    thrown), the future erased, the counter decremented; then [break]. *)
Definition poll (ready : nat -> bool) (s : scheduler) : outcome scheduler :=
  match list_find (fun i => ready i = true) (seq 0 (length (futures s))) with
  | Some (i, _) =>
      match futures s !! i with
      | Some cp =>
          outcome_bind
            (process_directory opts cp (logs_in_directory env (_directory cp)))
            (fun calls =>
               Returns {| futures := delete i (futures s);
                          processing_directories :=
                            wrap32 (processing_directories s - 1);
                          xscp_calls := call_map_merge (xscp_calls s) calls |})
      | None => Returns s
      end
  | None => Returns s
  end.

(** [while (processing_directories == MAX_PARALLEL)]: a pass over the
    futures, then a sleep, as long as the counter equals the limit.  [ready
    n] is what the passes find when [n] more passes are allowed; [None]: the
    loop is still running after [fuel] passes. *)
Fixpoint wait_for_slot (ready : nat -> nat -> bool) (fuel : nat)
    (s : scheduler) : option (outcome scheduler) :=
  if negb (processing_directories s =? MAX_PARALLEL opts) then Some (Returns s)
  else
    match fuel with
    | O => None
    | S fuel' =>
        match poll (ready fuel') s with
        | Returns s' => wait_for_slot ready fuel' s'
        | Exits code => Some (Exits code)
        | Throws => Some Throws
        | Hangs => Some Hangs
        end
    end.

(** The loop over [params_vec]: wait for a slot, start the task of the
    contest at the end of [futures], increment the counter.  Each wait is
    allowed [fuel] passes; [ready k] is what the passes find while [k]
    contests are still to be queued after this one. *)
Fixpoint queue_contests (ready : nat -> nat -> nat -> bool) (fuel : nat)
    (s : scheduler) (params_vec : list contest_parameters)
    : option (outcome scheduler) :=
  match params_vec with
  | [] => Some (Returns s)
  | cp :: rest =>
      match wait_for_slot (ready (length rest)) fuel s with
      | None => None
      | Some (Returns s') =>
          queue_contests ready fuel
            {| futures := futures s' ++ [cp];
               processing_directories :=
                 wrap32 (processing_directories s' + 1);
               xscp_calls := xscp_calls s' |}
            rest
      | Some (Exits code) => Some (Exits code)
      | Some Throws => Some Throws
      | Some Hangs => Some Hangs
      end
  end.

(** [while (!futures.empty())]: passes over the futures until all are
    collected; [None]: still running after [fuel] passes. *)
Fixpoint collect_futures (ready : nat -> nat -> bool) (fuel : nat)
    (s : scheduler) : option (outcome scheduler) :=
  match futures s with
  | [] => Some (Returns s)
  | _ =>
      match fuel with
      | O => None
      | S fuel' =>
          match poll (ready fuel') s with
          | Returns s' => collect_futures ready fuel' s'
          | Exits code => Some (Exits code)
          | Throws => Some Throws
          | Hangs => Some Hangs
          end
      end
  end.

(** The two loops one after the other, and the calls collected. *)
Definition run_contests (ready : nat -> nat -> nat -> bool)
    (ready_end : nat -> nat -> bool) (fuel : nat)
    (params_vec : list contest_parameters)
    : option (outcome (gmap callsign Z)) :=
  match queue_contests ready fuel initial_scheduler params_vec with
  | None => None
  | Some (Returns s) =>
      match collect_futures ready_end fuel s with
      | None => None
      | Some (Returns s') => Some (Returns (xscp_calls s'))
      | Some (Exits code) => Some (Exits code)
      | Some Throws => Some Throws
      | Some Hangs => Some Hangs
      end
  | Some (Exits code) => Some (Exits code)
  | Some Throws => Some Throws
  | Some Hangs => Some Hangs
  end.

End Scheduler.

(** The counter is the number of futures, and all of them return. *)
Definition counted_futures (env : environment) (opts : options)
    (s : scheduler) : Prop :=
  processing_directories s = ssize (futures s) /\
  Forall (contest_returns env opts) (futures s).
(** * Properties

    ** The reference definition of a bust, in the words of the specification

    Rule 1: lengths that differ by two or more are never a bust.
    Rule 2: lengths that differ by one: the longer contains the shorter as a
    substring, or deleting one interior character (position 1 to
    [len(long) - 2]) of the longer yields the shorter.
    Rule 3: equal lengths: exactly one character differs, or swapping two
    adjacent characters of the target yields the candidate. *)
Module Reference.

Definition substring_of (short long : callsign) : Prop :=
  exists pre post, long = pre ++ short ++ post.

Definition interior_deletion (long short : callsign) : Prop :=
  exists pre c post,
    long = pre ++ c :: post /\ short = pre ++ post /\
    (1 <= length pre <= length long - 2)%nat.

Definition one_char_differs (target candidate : callsign) : Prop :=
  exists pre a b post,
    a <> b /\ target = pre ++ a :: post /\ candidate = pre ++ b :: post.

Definition adjacent_swap (target candidate : callsign) : Prop :=
  exists pre a b post,
    target = pre ++ a :: b :: post /\ candidate = pre ++ b :: a :: post.

(** The condition of rule 2, [long] being the longer of the two strings. *)
Definition insertion_or_deletion (long short : callsign) : Prop :=
  substring_of short long \/ interior_deletion long short.

Definition length_difference (target candidate : callsign) : Z :=
  Z.abs (ssize target - ssize candidate).

Definition bust (target candidate : callsign) : Prop :=
  (* rule 1 *)
  ~ 2 <= length_difference target candidate /\
  (* rule 2 *)
  (length_difference target candidate = 1 ->
     ((length candidate < length target)%nat /\
        insertion_or_deletion target candidate) \/
     ((length target < length candidate)%nat /\
        insertion_or_deletion candidate target)) /\
  (* rule 3 *)
  (length_difference target candidate = 0 ->
     one_char_differs target candidate \/ adjacent_swap target candidate).

End Reference.

(** ** Properties of the call analyzer *)

Section IsBust.

Example is_bust_scenario_1 : is_bust (cs "K1ABC") (cs "K1ABCDE") = false.
Proof. reflexivity. Qed.
Example is_bust_scenario_2a : is_bust (cs "W1AW") (cs "W1AWW") = true.
Proof. reflexivity. Qed.
Example is_bust_scenario_2b : is_bust (cs "W1AW") (cs "W1AX") = true.
Proof. reflexivity. Qed.
Example is_bust_scenario_3a : is_bust (cs "N7DR") (cs "N7RD") = true.
Proof. reflexivity. Qed.
Example is_bust_scenario_3b : is_bust (cs "N7DR") (cs "DR7N") = false.
Proof. reflexivity. Qed.


Lemma starts_with_spec (s ss : callsign) :
  starts_with s ss = true <-> exists post, s = ss ++ post.
Proof.
  revert s; induction ss as [|c ss IH]; intros s; simpl.
  - split; [intros _; by exists s | done].
  - destruct s as [|d s].
    + split; [done | intros [post H]; discriminate].
    + rewrite andb_true_iff, bool_decide_eq_true, IH. split.
      * intros [-> [post ->]]. by exists post.
      * intros [post H]. injection H as -> ->. eauto.
Qed.

Lemma contains_spec (s ss : callsign) :
  contains s ss = true <-> Reference.substring_of ss s.
Proof.
  unfold Reference.substring_of.
  induction s as [|d s IH].
  - simpl. rewrite orb_false_r, starts_with_spec. split.
    + intros [post H]. by exists [], post.
    + intros [pre [post H]]. symmetry in H.
      apply app_eq_nil in H as [-> H]. apply app_eq_nil in H as [-> ->].
      by exists [].
  - cbn [contains]. rewrite orb_true_iff, starts_with_spec, IH. split.
    + intros [[post H] | [pre [post H]]].
      * by exists [], post.
      * exists (d :: pre), post. by rewrite H.
    + intros [[|e pre] [post H]].
      * left. by exists post.
      * right. injection H as -> ->. by exists pre, post.
Qed.

Lemma remove_char_middle (pre : callsign) c post :
  remove_char (length pre) (pre ++ c :: post) = pre ++ post.
Proof.
  unfold remove_char. rewrite take_app_length. f_equal.
  rewrite (cons_middle c pre post), app_assoc.
  rewrite drop_app_length'; [done | rewrite length_app; simpl; lia].
Qed.

Lemma remove_char_spec (long short : callsign) :
  existsb (fun posn => bool_decide (remove_char posn long = short))
          (seq 1 (length long - 2)) = true
  <-> Reference.interior_deletion long short.
Proof.
  rewrite existsb_exists. unfold Reference.interior_deletion. split.
  - intros [posn [Hin Heq]]. apply in_seq in Hin.
    apply bool_decide_eq_true in Heq.
    destruct (lookup_lt_is_Some_2 long posn) as [c Hc]; [lia|].
    exists (take posn long), c, (drop (S posn) long).
    split; [by rewrite take_drop_middle|].
    split; [by rewrite <- Heq|].
    rewrite length_take. lia.
  - intros (pre & c & post & -> & -> & Hlen).
    exists (length pre). split.
    + apply in_seq. lia.
    + apply bool_decide_eq_true, remove_char_middle.
Qed.

Lemma differences_nonneg (call copied : callsign) : 0 <= differences call copied.
Proof.
  revert copied; induction call as [|c call IH]; intros [|d copied]; simpl;
    try lia.
  specialize (IH copied). case_bool_decide; lia.
Qed.

Lemma differences_zero (call copied : callsign) :
  length call = length copied ->
  differences call copied = 0 <-> call = copied.
Proof.
  revert copied; induction call as [|c call IH]; intros [|d copied] Hlen;
    simpl in *; try done.
  injection Hlen as Hlen. specialize (IH copied Hlen).
  pose proof (differences_nonneg call copied).
  case_bool_decide as Hcd.
  - subst d. rewrite Z.add_0_l, IH. split; [by intros -> | by intros [= ->]].
  - split; [lia | intros [= -> _]; done].
Qed.

Lemma differences_one_spec (call copied : callsign) :
  length call = length copied ->
  differences call copied = 1 <-> Reference.one_char_differs call copied.
Proof.
  unfold Reference.one_char_differs.
  revert copied; induction call as [|c call IH]; intros [|d copied] Hlen;
    simpl in *; try done.
  - split; [done | intros (pre & ? & ? & ? & _ & H & _)].
    by destruct pre.
  - injection Hlen as Hlen. specialize (IH copied Hlen).
    pose proof (differences_nonneg call copied).
    case_bool_decide as Hcd.
    + subst d. rewrite Z.add_0_l, IH. split.
      * intros (pre & a & b & post & Hab & -> & ->).
        by exists (c :: pre), a, b, post.
      * intros ([|e pre] & a & b & post & Hab & Hc & Hd).
        -- injection Hc as -> _. injection Hd as -> _. done.
        -- injection Hc as _ ->. injection Hd as _ ->.
           by exists pre, a, b, post.
    + split.
      * intros Hd. assert (differences call copied = 0) as H0 by lia.
        apply differences_zero in H0 as ->; [|done].
        by exists [], c, d, copied.
      * intros ([|e pre] & a & b & post & Hab & Hc & Hd).
        -- injection Hc as _ ->. injection Hd as _ ->.
           assert (differences post post = 0) as ->; [|done].
           by apply differences_zero.
        -- injection Hc as -> _. injection Hd as -> _. done.
Qed.

Lemma swap_adjacent_cons (posn : nat) c (call : callsign) :
  swap_adjacent (S posn) (c :: call) = c :: swap_adjacent posn call.
Proof.
  unfold swap_adjacent. simpl.
  by destruct (call !! posn), (call !! S posn).
Qed.

Lemma swap_adjacent_middle (pre : callsign) a b post :
  swap_adjacent (length pre) (pre ++ a :: b :: post) = pre ++ b :: a :: post.
Proof.
  induction pre as [|c pre IH]; [done|].
  simpl. by rewrite swap_adjacent_cons, IH.
Qed.

Lemma swap_adjacent_spec (call copied : callsign) :
  existsb (fun posn => bool_decide (swap_adjacent posn call = copied))
          (seq 0 (length call - 1)) = true
  <-> Reference.adjacent_swap call copied.
Proof.
  rewrite existsb_exists. unfold Reference.adjacent_swap. split.
  - intros [posn [Hin Heq]]. apply in_seq in Hin.
    apply bool_decide_eq_true in Heq.
    destruct (lookup_lt_is_Some_2 call posn) as [a Ha]; [lia|].
    destruct (lookup_lt_is_Some_2 call (S posn)) as [b Hb]; [lia|].
    exists (take posn call), a, b, (drop (S (S posn)) call).
    assert (call = take posn call ++ a :: b :: drop (S (S posn)) call) as Hc.
    { rewrite <- (drop_S call b (S posn) Hb).
      by rewrite (take_drop_middle call posn a Ha). }
    split; [done|].
    rewrite <- Heq. rewrite Hc at 1.
    assert (posn = length (take posn call)) as Hp by (rewrite length_take; lia).
    rewrite Hp at 1. apply swap_adjacent_middle.
  - intros (pre & a & b & post & -> & ->).
    exists (length pre). split.
    + apply in_seq. rewrite length_app. simpl. lia.
    + apply bool_decide_eq_true, swap_adjacent_middle.
Qed.

Lemma is_bust_irreflexive (call : callsign) : is_bust call call = false.
Proof. unfold is_bust. by rewrite bool_decide_eq_true_2. Qed.

(** The three rules, one case per length relation. *)
Lemma reference_bust_cases (target candidate : callsign) :
  Reference.bust target candidate <->
  (length target = S (length candidate) /\
     (Reference.substring_of candidate target \/
      Reference.interior_deletion target candidate)) \/
  (length candidate = S (length target) /\
     (Reference.substring_of target candidate \/
      Reference.interior_deletion candidate target)) \/
  (length target = length candidate /\
     (Reference.one_char_differs target candidate \/
      Reference.adjacent_swap target candidate)).
Proof.
  unfold Reference.bust, Reference.length_difference,
    Reference.insertion_or_deletion, ssize.
  split.
  - intros (H1 & H2 & H3).
    destruct (Z.eq_dec
                (Z.abs (Z.of_nat (length target) - Z.of_nat (length candidate)))
                1) as [Hd|Hd].
    + destruct (H2 Hd) as [[Hlt H]|[Hlt H]]; [left | right; left];
        (split; [lia | done]).
    + right; right. split; [lia|]. apply H3. lia.
  - intros [[Hlen H]|[[Hlen H]|[Hlen H]]].
    + split; [lia|]. split; [intros _; left; split; [lia | done] | lia].
    + split; [lia|]. split; [intros _; right; split; [lia | done] | lia].
    + split; [lia|]. split; [lia | done].
Qed.

Lemma is_bust_iff_reference (call copied : callsign) :
  call <> copied ->
  is_bust call copied = true <-> Reference.bust call copied.
Proof.
  intros Hne. rewrite reference_bust_cases. unfold is_bust, ssize.
  rewrite bool_decide_eq_false_2 by done.
  destruct (2 <=? Z.abs (Z.of_nat (length call) - Z.of_nat (length copied)))
    eqn:H2.
  { apply Z.leb_le in H2. split; [done|]. intros [[H _]|[[H _]|[H _]]]; lia. }
  apply Z.leb_gt in H2.
  destruct (Z.abs (Z.of_nat (length call) - Z.of_nat (length copied)) =? 1)
    eqn:H1.
  - apply Z.eqb_eq in H1.
    destruct (length copied <? length call)%nat eqn:Hlt.
    + apply Nat.ltb_lt in Hlt.
      destruct (contains call copied) eqn:Hc.
      * apply contains_spec in Hc. split; [intros _|done].
        left. split; [lia | by left].
      * rewrite remove_char_spec. split.
        -- intros Hd. left. split; [lia | by right].
        -- intros [[_ [Hs|Hd]]|[[H _]|[H _]]]; try lia; [|done].
           apply contains_spec in Hs. congruence.
    + apply Nat.ltb_ge in Hlt.
      destruct (contains copied call) eqn:Hc.
      * apply contains_spec in Hc. split; [intros _|done].
        right; left. split; [lia | by left].
      * rewrite remove_char_spec. split.
        -- intros Hd. right; left. split; [lia | by right].
        -- intros [[H _]|[[_ [Hs|Hd]]|[H _]]]; try lia; [|done].
           apply contains_spec in Hs. congruence.
  - apply Z.eqb_neq in H1.
    assert (length call = length copied) as Hlen by lia.
    destruct (differences call copied =? 1) eqn:Hd.
    + apply Z.eqb_eq, differences_one_spec in Hd; [|done].
      split; [intros _|done]. right; right. split; [done | by left].
    + apply Z.eqb_neq in Hd. rewrite swap_adjacent_spec. split.
      * intros Hs. right; right. split; [done | by right].
      * intros [[H _]|[[H _]|[_ [Ho|Hs]]]]; try lia; [|done].
        apply differences_one_spec in Ho; [lia | done].
Qed.

Lemma reference_bust_sym (a b : callsign) :
  Reference.bust a b -> Reference.bust b a.
Proof.
  rewrite !reference_bust_cases. intros [H|[H|[Hlen [Ho|Hs]]]].
  - by right; left.
  - by left.
  - right; right. split; [done|]. left.
    destruct Ho as (pre & x & y & post & Hxy & -> & ->).
    by exists pre, y, x, post.
  - right; right. split; [done|]. right.
    destruct Hs as (pre & x & y & post & -> & ->).
    by exists pre, y, x, post.
Qed.

Lemma is_bust_sym (a b : callsign) : is_bust a b = is_bust b a.
Proof.
  destruct (decide (a = b)) as [->|Hne]; [done|].
  assert (b <> a) as Hne' by congruence.
  apply eq_true_iff_eq.
  rewrite !is_bust_iff_reference by done.
  split; apply reference_bust_sym.
Qed.

End IsBust.

(** C1. For distinct callsigns [is_bust] decides exactly the three-rule
    reference definition of the specification (rule 1: lengths differing by
    two or more are no bust; rule 2: lengths differing by one, substring or
    interior deletion; rule 3: equal lengths, one differing character or an
    adjacent swap), and no callsign is a bust of itself.  Non-emptiness of
    the callsigns is not needed. *)
Theorem is_bust_matches_reference (target candidate : callsign) :
  target <> candidate ->
  (is_bust target candidate = true <-> Reference.bust target candidate) /\
  is_bust target target = false /\ is_bust candidate candidate = false.
Proof.
  intros Hne. split; [by apply is_bust_iff_reference|].
  split; apply is_bust_irreflexive.
Qed.

Lemma is_bust_matches_reference_witness :
  cs "W1AW" <> cs "W1AX" /\
  (is_bust (cs "W1AW") (cs "W1AX") = true <->
     Reference.bust (cs "W1AW") (cs "W1AX")) /\
  is_bust (cs "W1AW") (cs "W1AW") = false /\
  is_bust (cs "W1AX") (cs "W1AX") = false.
Proof.
  assert (cs "W1AW" <> cs "W1AX") as Hne by discriminate.
  split; [exact Hne|].
  exact (is_bust_matches_reference (cs "W1AW") (cs "W1AX") Hne).
Defined.

(** C2. The bust relation computed by [is_bust] is symmetric:
    [is_bust a b = is_bust b a] for every pair of callsigns (distinct or
    not). *)
Theorem is_bust_symmetric (a b : callsign) : is_bust a b = is_bust b a.
Proof. apply is_bust_sym. Qed.

(** ** Bands *)

(** The cascade of tests of [band_from_qrg], one case per exit. *)
Lemma band_from_qrg_cases (qrg : Z) :
  (1800 <= qrg <= 2000 /\ band_from_qrg qrg = Some B160) \/
  (3500 <= qrg <= 4000 /\ band_from_qrg qrg = Some B80) \/
  (7000 <= qrg <= 7300 /\ band_from_qrg qrg = Some B40) \/
  (14000 <= qrg <= 14350 /\ band_from_qrg qrg = Some B20) \/
  (21000 <= qrg <= 21450 /\ band_from_qrg qrg = Some B15) \/
  (28000 <= qrg <= 29700 /\ band_from_qrg qrg = Some B10) \/
  (~ (1800 <= qrg <= 2000 \/ 3500 <= qrg <= 4000 \/ 7000 <= qrg <= 7300 \/
      14000 <= qrg <= 14350 \/ 21000 <= qrg <= 21450 \/
      28000 <= qrg <= 29700) /\ band_from_qrg qrg = None).
Proof.
  unfold band_from_qrg.
  destruct ((1800 <=? qrg) && (qrg <=? 2000)) eqn:H160.
  { left. split; [lia | done]. }
  destruct ((3500 <=? qrg) && (qrg <=? 4000)) eqn:H80.
  { right; left. split; [lia | done]. }
  destruct ((7000 <=? qrg) && (qrg <=? 7300)) eqn:H40.
  { do 2 right; left. split; [lia | done]. }
  destruct ((14000 <=? qrg) && (qrg <=? 14350)) eqn:H20.
  { do 3 right; left. split; [lia | done]. }
  destruct ((21000 <=? qrg) && (qrg <=? 21450)) eqn:H15.
  { do 4 right; left. split; [lia | done]. }
  destruct ((28000 <=? qrg) && (qrg <=? 29700)) eqn:H10.
  { do 5 right; left. split; [lia | done]. }
  do 6 right. split; [lia | done].
Qed.

(** C6. [band_from_qrg] maps a frequency to a band exactly when the frequency
    lies in the inclusive range of that band (160 m: 1800-2000, 80 m:
    3500-4000, 40 m: 7000-7300, 20 m: 14000-14350, 15 m: 21000-21450, 10 m:
    28000-29700 kHz), band edges such as 7300 included, and throws exactly
    for the frequencies outside all six ranges. *)
Theorem band_from_qrg_ranges (qrg : Z) :
  (band_from_qrg qrg = Some B160 <-> 1800 <= qrg <= 2000) /\
  (band_from_qrg qrg = Some B80 <-> 3500 <= qrg <= 4000) /\
  (band_from_qrg qrg = Some B40 <-> 7000 <= qrg <= 7300) /\
  (band_from_qrg qrg = Some B20 <-> 14000 <= qrg <= 14350) /\
  (band_from_qrg qrg = Some B15 <-> 21000 <= qrg <= 21450) /\
  (band_from_qrg qrg = Some B10 <-> 28000 <= qrg <= 29700) /\
  (band_from_qrg qrg = None <->
     ~ (1800 <= qrg <= 2000 \/ 3500 <= qrg <= 4000 \/ 7000 <= qrg <= 7300 \/
        14000 <= qrg <= 14350 \/ 21000 <= qrg <= 21450 \/
        28000 <= qrg <= 29700)) /\
  band_from_qrg qrg <> Some BAD /\
  band_from_qrg 7000 = Some B40 /\ band_from_qrg 7300 = Some B40.
Proof.
  destruct (band_from_qrg_cases qrg)
    as [[H ->]|[[H ->]|[[H ->]|[[H ->]|[[H ->]|[[H ->]|[H ->]]]]]]];
    repeat split; intros; try discriminate; try lia; reflexivity.
Qed.

Example band_from_qrg_edges :
  band_from_qrg 1800 = Some B160 /\ band_from_qrg 2000 = Some B160 /\
  band_from_qrg 2001 = None /\ band_from_qrg 1799 = None /\
  band_from_qrg 29700 = Some B10 /\ band_from_qrg 29701 = None.
Proof. by vm_compute. Qed.

(** ** The contest period *)

Lemma wrap32_small (n : Z) :
  -2147483648 <= n <= 2147483647 -> wrap32 n = n.
Proof.
  intros H. unfold wrap32.
  rewrite Z.mod_small by lia. lia.
Qed.

Lemma in_contest_period_spec (cp : contest_parameters) (t : Z) :
  in_contest_period cp t = true <-> _t_start cp <= t < _t_end cp.
Proof.
  unfold in_contest_period.
  rewrite andb_true_iff, Z.geb_le, Z.ltb_lt. lia.
Qed.

Lemma accept_qso_time (cp : contest_parameters) (qso qso' : small_qso) :
  accept_qso cp qso = Some qso' ->
  _time qso' = _time qso /\ _t_start cp <= _time qso < _t_end cp.
Proof.
  unfold accept_qso.
  destruct (in_contest_period cp (_time qso)) eqn:Hin; [|done].
  apply in_contest_period_spec in Hin. cbn [negb].
  repeat (case_match; try done).
  by intros [= <-].
Qed.

(** Every QSO stored by the loop over the lines of a log satisfies what
    [accept_qso] guarantees. *)
Lemma read_log_Forall (P : small_qso -> Prop) (cp : contest_parameters)
    (qso_lines : list small_qso) :
  (forall qso qso', accept_qso cp qso = Some qso' -> P qso') ->
  map_Forall (fun _ qsos => Forall P qsos) (read_log cp qso_lines).
Proof.
  intros HP. unfold read_log.
  assert (forall m : gmap callsign (list small_qso),
    map_Forall (fun _ qsos => Forall P qsos) m ->
    map_Forall (fun _ qsos => Forall P qsos)
      (foldl (fun tcall_qsos line =>
                match accept_qso cp line with
                | Some qso =>
                    <[_tcall qso := default [] (tcall_qsos !! _tcall qso) ++ [qso]]>
                      tcall_qsos
                | None => tcall_qsos
                end) m qso_lines)) as Hgen.
  { induction qso_lines as [|line lines IH]; intros m Hm; [done|].
    simpl. apply IH.
    destruct (accept_qso cp line) as [qso|] eqn:Hacc; [|done].
    apply map_Forall_insert_2; [|done].
    apply Forall_app. split.
    - destruct (m !! _tcall qso) as [qsos|] eqn:Hl; simpl; [|done].
      by apply (Hm _ _ Hl).
    - apply Forall_singleton. by eapply HP. }
  apply Hgen, map_Forall_empty.
Qed.

Lemma insert_new_Forall (P : small_qso -> Prop) (tcall : callsign)
    (qsos : list small_qso) (m : gmap callsign (list small_qso)) :
  Forall P qsos ->
  map_Forall (fun _ qsos => Forall P qsos) m ->
  map_Forall (fun _ qsos => Forall P qsos) (insert_new tcall qsos m).
Proof.
  intros Hq Hm. unfold insert_new.
  destruct (m !! tcall); [done|]. by apply map_Forall_insert_2.
Qed.

Lemma ingest_log_Forall (P : small_qso -> Prop) opts cp st qso_lines :
  (forall qso qso', accept_qso cp qso = Some qso' -> P qso') ->
  map_Forall (fun _ qsos => Forall P qsos) (all_qsos st) ->
  map_Forall (fun _ qsos => Forall P qsos)
             (all_qsos (ingest_log opts cp st qso_lines)).
Proof.
  intros HP Hst. unfold ingest_log.
  pose proof (read_log_Forall P cp qso_lines HP) as Hlog.
  case_bool_decide; [done|].
  set (st0 := {| all_qsos := all_qsos st; scp_calls := scp_calls st;
                 n_valid_logs := wrap32 (n_valid_logs st + 1) |}).
  assert (map_Forall (fun _ qsos => Forall P qsos) (all_qsos st0)) as H0 by done.
  assert (Forall (fun pr : callsign * list small_qso => Forall P pr.2)
                 (map_to_list (read_log cp qso_lines))) as Hl.
  { apply Forall_forall. intros [tcall qsos] Hin.
    apply elem_of_map_to_list in Hin. by apply (Hlog _ _ Hin). }
  clearbody st0. revert st0 H0.
  induction Hl as [|[tcall qsos] l Hq _ IH]; intros st0 H0; [done|].
  simpl. apply IH. simpl. by apply insert_new_Forall.
Qed.

Lemma ingest_Forall (P : small_qso -> Prop) opts cp logs :
  (forall qso qso', accept_qso cp qso = Some qso' -> P qso') ->
  map_Forall (fun _ qsos => Forall P qsos) (all_qsos (ingest opts cp logs)).
Proof.
  intros HP. unfold ingest.
  set (st0 := {| all_qsos := ∅; scp_calls := ∅; n_valid_logs := 0 |}).
  assert (map_Forall (fun _ qsos => Forall P qsos) (all_qsos st0)) as H0
    by apply map_Forall_empty.
  clearbody st0. revert st0 H0.
  induction logs as [|log logs IH]; intros st0 H0; [done|].
  simpl. apply IH. by apply ingest_log_Forall.
Qed.

(** A QSO of the small contest (one hour) logged at the very start is stored,
    with relative minute 0; one logged 59 minutes later is stored; one logged
    exactly one hour after the start is dropped. *)
Example accept_qso_at_the_edges :
  accept_qso example_cp (example_qso "K1AAA" "N7DR" 14050 0 1)
  = Some (example_qso "K1AAA" "N7DR" 14050 0 1) /\
  accept_qso example_cp (example_qso "K1AAA" "N7DR" 14050 59 1)
  = Some (set_rel_mins 59 (example_qso "K1AAA" "N7DR" 14050 59 1)) /\
  accept_qso example_cp (example_qso "K1AAA" "N7DR" 14050 60 1) = None /\
  accept_qso example_cp (example_qso "K1AAA" "N7DR" 14050 (-1) 1) = None.
Proof. repeat split; by vm_compute. Qed.

(** ** The order of QSOs *)

#[local] Instance chronological_total : Total chronological.
Proof. intros a b. unfold chronological. lia. Qed.

#[local] Instance chronological_trans : Transitive chronological.
Proof. intros a b c. unfold chronological. lia. Qed.

Lemma SORT_Permutation (v : list small_qso) : SORT v ≡ₚ v.
Proof. apply merge_sort_Permutation. Qed.

Lemma SORT_sorted (v : list small_qso) : StronglySorted chronological (SORT v).
Proof. apply StronglySorted_merge_sort; apply _. Qed.

Lemma elem_of_SORT (v : list small_qso) (q : small_qso) : q ∈ SORT v <-> q ∈ v.
Proof. by rewrite SORT_Permutation. Qed.

Lemma small_qso_lt_spec (a b : small_qso) :
  small_qso_lt a b = true <-> _time a < _time b.
Proof. unfold small_qso_lt. apply Z.ltb_lt. Qed.

Lemma StronglySorted_lookup_chronological (v : list small_qso) (i j : nat)
    (a b : small_qso) :
  StronglySorted chronological v ->
  (i < j)%nat -> v !! i = Some a -> v !! j = Some b -> _time a <= _time b.
Proof.
  intros Hs. revert i j.
  induction Hs as [|x v Hs IH Hall]; intros i j Hij Hi Hj; [done|].
  destruct j as [|j]; [lia|].
  destruct i as [|i]; simpl in *.
  - injection Hi as ->.
    apply (proj1 (Forall_forall _ _) Hall). by eapply list_elem_of_lookup_2.
  - apply (IH i j); [lia | done | done].
Qed.

Lemma build_vec_Permutation (qsos_per_call : gmap callsign (list small_qso)) :
  build_vec qsos_per_call ≡ₚ concat (map snd (map_to_list qsos_per_call)).
Proof. apply SORT_Permutation. Qed.

(** The claim of C8 fails on the code: the second of two QSOs with the same
    time and increasing identifiers should sort after the first, but
    [operator<] does not order them. *)
Lemma small_qso_lt_ignores_id :
  (_time example_qso_first < _time example_qso_second \/
   (_time example_qso_first = _time example_qso_second /\
    _id example_qso_first < _id example_qso_second)) /\
  small_qso_lt example_qso_first example_qso_second = false /\
  small_qso_lt example_qso_second example_qso_first = false.
Proof.
  split; [right; split; [reflexivity | by vm_compute]|].
  split; reflexivity.
Qed.

(** C8, amended. QSO records are ordered by time alone: [a] sorts before [b]
    iff [a.time < b.time], identifiers are not compared; every chronological
    vector built by [build_vec] (and by [SORT]) holds the same QSOs in
    non-decreasing order of time, no QSO being less than an earlier one. *)
Theorem small_qso_order_is_by_time :
  (forall a b : small_qso, small_qso_lt a b = true <-> _time a < _time b) /\
  (forall (qsos_per_call : gmap callsign (list small_qso)) i j a b,
     (i < j)%nat ->
     build_vec qsos_per_call !! i = Some a ->
     build_vec qsos_per_call !! j = Some b ->
     _time a <= _time b /\ small_qso_lt b a = false) /\
  (forall qsos_per_call : gmap callsign (list small_qso),
     build_vec qsos_per_call ≡ₚ concat (map snd (map_to_list qsos_per_call))) /\
  (forall v : list small_qso,
     StronglySorted chronological (SORT v) /\ SORT v ≡ₚ v).
Proof.
  split; [apply small_qso_lt_spec|].
  split.
  - intros m i j a b Hij Hi Hj.
    assert (_time a <= _time b) as Hle.
    { eapply (StronglySorted_lookup_chronological (build_vec m) i j);
        [apply SORT_sorted | done..]. }
    split; [done|]. unfold small_qso_lt. apply Z.ltb_ge. lia.
  - split; [apply build_vec_Permutation|].
    intros v. split; [apply SORT_sorted | apply SORT_Permutation].
Qed.

(** ** The output of the scheduler *)

Section Output.

Variable value_line : list Z -> Z -> Z.
Variable compare_calls : callsign -> callsign -> bool.

Lemma call_map_pairs_Permutation (cm : gmap callsign Z) :
  call_map_pairs compare_calls cm ≡ₚ map_to_list cm.
Proof. apply merge_sort_Permutation. Qed.

Lemma output_calls_calls (xscp : bool) (cm : gmap callsign Z) :
  map line_call (output_calls compare_calls xscp cm) =
  map fst (call_map_pairs compare_calls cm).
Proof.
  unfold output_calls. rewrite map_map. apply map_ext.
  intros [call n]. by destruct xscp.
Qed.

Lemma elem_of_output_calls (xscp : bool) (cm : gmap callsign Z) (call : callsign) :
  call ∈ map line_call (output_calls compare_calls xscp cm) <->
  is_Some (cm !! call).
Proof.
  rewrite output_calls_calls, call_map_pairs_Permutation.
  rewrite list_elem_of_fmap. split.
  - intros [[c n] [-> Hin]]. apply elem_of_map_to_list in Hin. by exists n.
  - intros [n Hn]. exists (call, n). split; [done|].
    by apply elem_of_map_to_list.
Qed.

Lemma prune_for_output_lookup (opts : options) (cm : gmap callsign Z)
    (call : callsign) (n : Z) :
  prune_for_output value_line compare_calls opts cm !! call = Some n <->
  cm !! call = Some n /\
  (PC_OUTPUT opts = 100 \/
   ~ n < value_line (map snd (call_map_pairs compare_calls cm)) (PC_OUTPUT opts)).
Proof.
  unfold prune_for_output.
  destruct (PC_OUTPUT opts =? 100) eqn:Hpc.
  - apply Z.eqb_eq in Hpc. split; [intros H; split; [done | by left] | by intros [H _]].
  - apply Z.eqb_neq in Hpc. rewrite map_lookup_filter_Some. simpl.
    split; intros [H1 H2]; (split; [done|]); [by right | by destruct H2].
Qed.

End Output.

(** C4. Top-percent truncation never splits a tie and does nothing at 100.
    The calls written are the same whether the output is SCP or XSCP; with
    [PC_OUTPUT = 100] the map is left as it is and every call of the
    accumulated map is written; and whatever [PC_OUTPUT] is, if a call with
    count [k] is written then every call of the map with a count of [k] or
    more is written. *)
Theorem top_percent_truncation (value_line : list Z -> Z -> Z)
    (compare_calls : callsign -> callsign -> bool) (opts : options)
    (xscp_calls : gmap callsign Z) :
  let written xscp :=
    map line_call
        (output_calls compare_calls xscp
           (prune_for_output value_line compare_calls opts xscp_calls)) in
  written true = written false /\
  (PC_OUTPUT opts = 100 ->
     prune_for_output value_line compare_calls opts xscp_calls = xscp_calls /\
     forall call, call ∈ written false <-> is_Some (xscp_calls !! call)) /\
  (forall xscp call k call' k',
     xscp_calls !! call = Some k -> xscp_calls !! call' = Some k' -> k <= k' ->
     call ∈ written xscp -> call' ∈ written xscp).
Proof.
  intros written. unfold written. split.
  { by rewrite !output_calls_calls. }
  split.
  - intros Hpc.
    assert (prune_for_output value_line compare_calls opts xscp_calls
            = xscp_calls) as ->.
    { unfold prune_for_output. by rewrite Hpc. }
    split; [done|]. intros call. apply elem_of_output_calls.
  - intros xscp call k call' k' Hk Hk' Hle.
    rewrite !elem_of_output_calls. intros [n Hn].
    apply prune_for_output_lookup in Hn as [Hn Hkeep].
    assert (n = k) as -> by congruence.
    exists k'. apply prune_for_output_lookup. split; [done|].
    destruct Hkeep as [Hpc|Hkeep]; [by left | right; lia].
Qed.

(** Scenario 6 of the specification: with counts X:100, Y:50, Z:50, W:1 and
    a threshold of 50, Y and Z are both written. *)
Lemma top_percent_truncation_witness :
  let opts := {| CUTOFF_LIMIT := 1; MAX_PARALLEL := 1; TL_LIMIT := 1;
                 PC_OUTPUT := 80; DISPLAY_BAD_QSOS := false;
                 tracing := false; verbose := false |} in
  let written xscp :=
    map line_call
        (output_calls example_compare_calls xscp
           (prune_for_output example_value_line example_compare_calls opts
                             example_counts)) in
  ((cs "Y1Y" ∈ written true) -> (cs "Z1Z" ∈ written true)) /\
  (cs "Y1Y" ∈ written true) /\ (cs "W1W" ∉ written true) /\
  written true = written false.
Proof.
  intros opts written.
  pose proof (top_percent_truncation example_value_line example_compare_calls
                opts example_counts) as (Hsame & _ & Hmono).
  split.
  { apply (Hmono true (cs "Y1Y") 50 (cs "Z1Z") 50);
      [by vm_compute | by vm_compute | lia]. }
  assert (written true = [cs "X1X"; cs "Z1Z"; cs "Y1Y"]) as Hw
    by (vm_compute; reflexivity).
  split.
  { rewrite Hw, list_elem_of_In. simpl. auto. }
  split; [|exact Hsame].
  rewrite Hw, list_elem_of_In. simpl. intros [H|[H|[H|[]]]]; discriminate.
Defined.

(** ** The keys of the map returned by [process_directory] *)

Lemma call_map_add_is_Some (call k : callsign) (cm : gmap callsign Z) :
  is_Some (call_map_add call cm !! k) <-> k = call \/ is_Some (cm !! k).
Proof.
  unfold call_map_add. rewrite lookup_insert_is_Some'.
  split; (intros [H|H]; [by left | by right]).
Qed.

Lemma call_map_merge_is_Some (cm us : gmap callsign Z) (k : callsign) :
  is_Some (call_map_merge cm us !! k) ->
  is_Some (cm !! k) \/ is_Some (us !! k).
Proof.
  unfold call_map_merge.
  apply (map_fold_weak_ind
           (fun (r : gmap callsign Z) (us : gmap callsign Z) =>
              is_Some (r !! k) -> is_Some (cm !! k) \/ is_Some (us !! k))).
  - intros H. by left.
  - intros i x m r Hi IH H.
    apply lookup_insert_is_Some' in H as [->|H].
    + right. rewrite lookup_insert_eq. by eexists.
    + destruct (IH H) as [H'|H']; [by left | right].
      apply lookup_insert_is_Some'. by right.
Qed.

(** The inner loop over the QSOs of one log. *)
Lemma count_qsos_is_Some (calls : gset callsign) (qsos : list small_qso)
    (rv : gmap callsign Z) (k : callsign) :
  is_Some (foldl (fun rv qso =>
                    if bool_decide (_rcall qso ∈ calls)
                    then call_map_add (_rcall qso) rv else rv)
                 rv qsos !! k) ->
  is_Some (rv !! k) \/ exists qso, qso ∈ qsos /\ _rcall qso = k.
Proof.
  revert rv. induction qsos as [|qso qsos IH]; intros rv H; [by left|].
  simpl in H. apply IH in H as [H|(q & Hq & Hk)].
  - case_bool_decide.
    + apply call_map_add_is_Some in H as [->|H]; [right | by left].
      exists qso. split; [apply list_elem_of_here | done].
    + by left.
  - right. exists q. split; [by apply list_elem_of_further | done].
Qed.

Lemma count_returned_rcalls_is_Some (calls : gset callsign)
    (qsos_per_call : gmap callsign (list small_qso)) (rv : gmap callsign Z)
    (k : callsign) :
  is_Some (count_returned_rcalls calls qsos_per_call rv !! k) ->
  is_Some (rv !! k) \/ recorded_as_rcall k qsos_per_call.
Proof.
  unfold count_returned_rcalls.
  assert (forall pr, pr ∈ map_to_list qsos_per_call ->
                     qsos_per_call !! pr.1 = Some pr.2) as Hl.
  { intros [tcall qsos] Hin. by apply elem_of_map_to_list. }
  revert rv Hl. generalize (map_to_list qsos_per_call) as l.
  induction l as [|[tcall qsos] l IH]; intros rv Hl H; [by left|].
  simpl in H. apply IH in H as [H|H].
  - apply count_qsos_is_Some in H as [H|(q & Hq & Hk)]; [by left | right].
    exists tcall, qsos, q. split; [|done].
    apply (Hl (tcall, qsos)), list_elem_of_here.
  - by right.
  - intros pr Hpr. apply Hl. by apply list_elem_of_further.
Qed.

Lemma count_entrant_rcalls_is_Some (calls : gset callsign)
    (qsos_per_call : gmap callsign (list small_qso)) (k : callsign) :
  is_Some (count_entrant_rcalls calls qsos_per_call !! k) ->
  recorded_as_rcall k qsos_per_call.
Proof.
  intros H.
  change (count_entrant_rcalls calls qsos_per_call)
    with (count_returned_rcalls calls qsos_per_call ∅) in H.
  apply count_returned_rcalls_is_Some in H as [H|H]; [|done].
  rewrite lookup_empty in H. by destruct H.
Qed.

(** Sorting the logs does not change what they record. *)
Lemma recorded_as_rcall_SORT (call : callsign)
    (qsos_per_call : gmap callsign (list small_qso)) :
  recorded_as_rcall call (SORT <$> qsos_per_call) ->
  recorded_as_rcall call qsos_per_call.
Proof.
  intros (tcall & qsos & q & Hl & Hq & Hk).
  apply lookup_fmap_Some in Hl as (qsos' & <- & Hl).
  exists tcall, qsos', q. split; [done|]. split; [|done].
  by apply elem_of_SORT.
Qed.

Lemma process_directory_keys (opts : options) (cp : contest_parameters)
    (logs : list (list small_qso)) (rv : gmap callsign Z) (call : callsign) :
  process_directory opts cp logs = Returns rv ->
  is_Some (rv !! call) ->
  recorded_as_rcall call (all_qsos (ingest opts cp logs)).
Proof.
  unfold process_directory. intros Hrun Hcall.
  destruct (n_valid_logs (ingest opts cp logs) =? 0); [done|].
  destruct (calls_with_unreliable_freq _ _) as [poor|]; [|done].
  destruct (process_bands _ _ _ _ _ _) as [out_calls|]; [|done].
  injection Hrun as <-.
  apply recorded_as_rcall_SORT.
  apply count_returned_rcalls_is_Some in Hcall as [Hcall|Hcall]; [|done].
  apply call_map_merge_is_Some in Hcall as [Hcall|Hcall].
  - rewrite lookup_empty in Hcall. by destruct Hcall.
  - by apply count_entrant_rcalls_is_Some in Hcall.
Qed.

(** The small contest: the three entrants are counted twice each, N7DR three
    times, and KX9XYZ, logged once, is cut off. *)
Lemma example_process_directory :
  process_directory default_options example_cp example_logs = Returns example_rv.
Proof. vm_compute. reflexivity. Qed.

(** C10. The map returned by the pipeline of a contest holds a callsign only
    if some ingested QSO has it as its received call; so a callsign (an
    entrant's or not, whatever [TL_LIMIT] is) that no log records as a
    received call is absent from the map. *)
Theorem returned_calls_are_recorded_rcalls (opts : options)
    (cp : contest_parameters) (logs : list (list small_qso))
    (rv : gmap callsign Z) :
  process_directory opts cp logs = Returns rv ->
  (forall call, is_Some (rv !! call) ->
     recorded_as_rcall call (all_qsos (ingest opts cp logs))) /\
  (forall call, ~ recorded_as_rcall call (all_qsos (ingest opts cp logs)) ->
     rv !! call = None).
Proof.
  intros Hrun. split.
  - intros call. by apply process_directory_keys.
  - intros call Hno. apply eq_None_not_Some. intros Hsome.
    apply Hno. by eapply process_directory_keys.
Qed.

Lemma returned_calls_are_recorded_rcalls_witness :
  exists rv,
    process_directory default_options example_cp example_logs = Returns rv /\
    (forall call, is_Some (rv !! call) ->
       recorded_as_rcall call
         (all_qsos (ingest default_options example_cp example_logs))) /\
    (forall call,
       ~ recorded_as_rcall call
           (all_qsos (ingest default_options example_cp example_logs)) ->
       rv !! call = None).
Proof.
  exists example_rv.
  split; [exact example_process_directory|].
  exact (returned_calls_are_recorded_rcalls default_options example_cp
           example_logs example_rv example_process_directory).
Defined.

(** ** The cutoff of the band pruner *)

Lemma rcall_count_snoc (call : callsign) (vec : list small_qso) (qso : small_qso) :
  rcall_count call (vec ++ [qso]) =
  rcall_count call vec + (if decide (_rcall qso = call) then 1 else 0).
Proof.
  unfold rcall_count, ssize. rewrite filter_app, length_app.
  rewrite filter_cons, filter_nil. case_decide; simpl; lia.
Qed.

Lemma rcall_count_bounds (call : callsign) (vec : list small_qso) :
  0 <= rcall_count call vec <= ssize vec.
Proof.
  unfold rcall_count, ssize.
  pose proof (length_filter (fun qso => _rcall qso = call) vec). lia.
Qed.

Lemma rcall_count_pos (vec : list small_qso) (qso : small_qso) :
  qso ∈ vec -> 0 < rcall_count (_rcall qso) vec.
Proof.
  intros Hin. unfold rcall_count, ssize.
  assert (qso ∈ filter (fun q => _rcall q = _rcall qso) vec) as Hf
    by (by apply list_elem_of_filter).
  destruct (filter _ vec); [by apply elem_of_nil in Hf | simpl; lia].
Qed.

(** The histogram holds the number of occurrences of each received call, as
    long as the vector is short enough for an [int32_t] to count it. *)
Lemma count_values_add_lookup (v k : callsign) (h : gmap callsign Z) :
  count_values_add v h !! k =
  if decide (v = k) then Some (wrap32 (default 0 (h !! v) + 1)) else h !! k.
Proof.
  unfold count_values_add. case_decide as Hvk.
  - subst k. by rewrite lookup_insert_eq.
  - by rewrite lookup_insert_ne.
Qed.

Lemma rcall_histogram_lookup (vec : list small_qso) (call : callsign) :
  ssize vec <= INT_MAX ->
  rcall_histogram vec !! call =
  if decide (rcall_count call vec = 0) then None
  else Some (rcall_count call vec).
Proof.
  unfold rcall_histogram.
  induction vec as [|qso vec IH] using rev_ind; intros Hlen.
  - simpl. by rewrite lookup_empty.
  - rewrite foldl_snoc, rcall_count_snoc, count_values_add_lookup.
    unfold ssize in Hlen. rewrite length_app in Hlen. simpl in Hlen.
    unfold INT_MAX in *.
    pose proof (rcall_count_bounds call vec) as Hb. unfold ssize in Hb.
    assert (ssize vec <= 2147483647) as Hvec by (unfold ssize; lia).
    destruct (decide (_rcall qso = call)) as [Heq|Hne].
    + subst call. rewrite (IH Hvec).
      rewrite (decide_False (P := _ + 1 = 0)) by lia.
      case_decide as H0; simpl.
      * rewrite H0. by rewrite wrap32_small by lia.
      * by rewrite wrap32_small by lia.
    + rewrite (IH Hvec), Z.add_0_r. done.
Qed.

Lemma filter_all {A} (P : A -> Prop) `{!forall x, Decision (P x)} (l : list A) :
  (forall x, P x) -> filter P l = l.
Proof.
  intros HP. induction l as [|x l IH]; [done|].
  by rewrite filter_cons_True, IH.
Qed.

Section Cutoff.

Variable opts : options.

Lemma pass_D_quiet_spec (vec : list small_qso) :
  ssize vec <= INT_MAX ->
  pass_D_quiet opts (rcall_histogram vec) vec =
  filter (fun qso => ~ rcall_count (_rcall qso) vec <= CUTOFF_LIMIT opts) vec.
Proof.
  intros Hlen. unfold pass_D_quiet.
  assert (forall sub : list small_qso, (forall q, q ∈ sub -> q ∈ vec) ->
    filter (fun qso => ~ default 0 (rcall_histogram vec !! _rcall qso)
                          <= CUTOFF_LIMIT opts) sub =
    filter (fun qso => ~ rcall_count (_rcall qso) vec <= CUTOFF_LIMIT opts) sub)
    as Hsub.
  { induction sub as [|q sub IH]; intros Hin; [done|].
    rewrite !filter_cons.
    rewrite IH by (intros q' Hq'; apply Hin; by apply list_elem_of_further).
    pose proof (rcall_count_pos vec q (Hin q (list_elem_of_here _ _))) as Hpos.
    rewrite rcall_histogram_lookup by done.
    rewrite (decide_False (P := rcall_count (_rcall q) vec = 0)) by lia.
    done. }
  by apply Hsub.
Qed.

(** The loop of the verbose branch, for any list of histogram entries. *)
Lemma pass_D_verbose_loop (entries : list (callsign * Z)) (vec : list small_qso) :
  foldl (fun pruned_vec '(rcall, count) =>
           if count <=? CUTOFF_LIMIT opts
           then filter (fun qso => _rcall qso <> rcall) pruned_vec
           else pruned_vec)
        vec entries =
  filter (fun qso => Forall (fun pr : callsign * Z =>
                               ~ (pr.2 <= CUTOFF_LIMIT opts /\ _rcall qso = pr.1))
                            entries)
         vec.
Proof.
  revert vec. induction entries as [|[rcall count] entries IH]; intros vec.
  - simpl. symmetry. apply filter_all. intros; by apply Forall_nil.
  - simpl. rewrite IH.
    destruct (Z.leb_spec count (CUTOFF_LIMIT opts)) as [Hle|Hgt].
    + rewrite list_filter_filter. apply list_filter_iff. intros q.
      rewrite Forall_cons. simpl. split.
      * intros [H1 H2]. split; [|done]. intros [_ Heq]. done.
      * intros [H1 H2]. split; [done|]. intros Heq. apply H1. done.
    + apply list_filter_iff. intros q. rewrite Forall_cons. simpl.
      split; [intros H; split; [lia | done] | by intros [_ H]].
Qed.

Lemma pass_D_verbose_spec (vec : list small_qso) :
  ssize vec <= INT_MAX ->
  pass_D_verbose opts (rcall_histogram vec) vec =
  filter (fun qso => ~ rcall_count (_rcall qso) vec <= CUTOFF_LIMIT opts) vec.
Proof.
  intros Hlen. unfold pass_D_verbose. rewrite pass_D_verbose_loop.
  assert (forall sub : list small_qso, (forall q, q ∈ sub -> q ∈ vec) ->
    filter (fun qso => Forall (fun pr : callsign * Z =>
                                 ~ (pr.2 <= CUTOFF_LIMIT opts /\ _rcall qso = pr.1))
                              (map_to_list (rcall_histogram vec))) sub =
    filter (fun qso => ~ rcall_count (_rcall qso) vec <= CUTOFF_LIMIT opts) sub)
    as Hsub.
  { induction sub as [|q sub IH]; intros Hin; [done|].
    rewrite !filter_cons.
    rewrite IH by (intros q' Hq'; apply Hin; by apply list_elem_of_further).
    pose proof (rcall_count_pos vec q (Hin q (list_elem_of_here _ _))) as Hpos.
    assert (rcall_histogram vec !! _rcall q = Some (rcall_count (_rcall q) vec))
      as Hh by (rewrite rcall_histogram_lookup by done; apply decide_False; lia).
    apply decide_ext. rewrite Forall_forall. split.
    - intros HF Hle.
      apply (HF (_rcall q, rcall_count (_rcall q) vec)); [|done].
      by apply elem_of_map_to_list.
    - intros Hgt [rcall count] Hpr [Hle Heq]. simpl in *. subst rcall.
      apply elem_of_map_to_list in Hpr.
      assert (count = rcall_count (_rcall q) vec) as -> by congruence.
      done. }
  by apply Hsub.
Qed.

Lemma pass_D_spec (vec : list small_qso) :
  ssize vec <= INT_MAX ->
  pass_D opts vec =
  filter (fun qso => ~ rcall_count (_rcall qso) vec <= CUTOFF_LIMIT opts) vec.
Proof.
  intros Hlen. unfold pass_D.
  destruct (verbose opts);
    [by apply pass_D_verbose_spec | by apply pass_D_quiet_spec].
Qed.

(** The cutoff keeps or drops all the QSOs of a received call together. *)
Lemma rcall_count_pass_D (vec : list small_qso) (qso : small_qso) :
  ssize vec <= INT_MAX ->
  qso ∈ pass_D opts vec ->
  rcall_count (_rcall qso) (pass_D opts vec) = rcall_count (_rcall qso) vec.
Proof.
  intros Hlen. rewrite pass_D_spec by done.
  intros [Hkeep Hin]%list_elem_of_filter.
  unfold rcall_count. f_equal.
  rewrite list_filter_filter. apply list_filter_iff.
  intros q. split; [by intros [H _] | intros H; split; [done|]].
  by rewrite H.
Qed.

End Cutoff.

(** The small contest on 20 m: the first three passes remove nothing. *)
Lemma example_pruned_before_cutoff :
  pruned_before_cutoff example_pruned_20m example_all_20m ∅ ∅ 59 =
  Some example_pruned_vec.
Proof. vm_compute. reflexivity. Qed.

(** C3. Pass D of the band pruner.  Let [pruned_vec] be the vector left by
    the first three passes (short enough for its histogram to be counted on
    [int32_t]).  [process_band] returns the received calls of the QSOs that
    survive the cutoff; a QSO survives iff its received call occurs more than
    [CUTOFF_LIMIT] times in [pruned_vec] (a count equal to [CUTOFF_LIMIT] is
    dropped: the comparison is "less than or equal"); so every call returned
    has at least [CUTOFF_LIMIT + 1] surviving QSOs on the band. *)
Theorem process_band_cutoff (opts : options)
    (pruned_qsos_this_band all_qsos_this_band : gmap callsign (list small_qso))
    (calls_with_no_freq_info calls_with_poor_freq_info : gset callsign)
    (max_rel_mins : Z) (pruned_vec : list small_qso) :
  pruned_before_cutoff pruned_qsos_this_band all_qsos_this_band
                       calls_with_no_freq_info calls_with_poor_freq_info
                       max_rel_mins = Some pruned_vec ->
  ssize pruned_vec <= INT_MAX ->
  let survivors := pass_D opts pruned_vec in
  process_band opts pruned_qsos_this_band all_qsos_this_band
               calls_with_no_freq_info calls_with_poor_freq_info max_rel_mins
  = Some (local_scp_calls survivors) /\
  (forall qso, qso ∈ pruned_vec ->
     (qso ∈ survivors <->
      ~ rcall_count (_rcall qso) pruned_vec <= CUTOFF_LIMIT opts)) /\
  (forall call, call ∈ local_scp_calls survivors ->
     CUTOFF_LIMIT opts + 1 <= rcall_count call survivors).
Proof.
  intros Hvec Hlen survivors. split.
  { unfold process_band. by rewrite Hvec. }
  split.
  - intros qso Hin. unfold survivors. rewrite pass_D_spec by done.
    rewrite list_elem_of_filter. split; [by intros [H _] | by intros H].
  - intros call Hcall. unfold local_scp_calls in Hcall.
    apply elem_of_list_to_set, list_elem_of_fmap in Hcall as (qso & -> & Hin).
    unfold survivors in *.
    rewrite (rcall_count_pass_D opts pruned_vec qso Hlen Hin).
    rewrite pass_D_spec in Hin by done.
    apply list_elem_of_filter in Hin as [Hkeep _]. lia.
Qed.

Lemma process_band_cutoff_witness :
  pruned_before_cutoff example_pruned_20m example_all_20m ∅ ∅ 59
  = Some example_pruned_vec /\
  ssize example_pruned_vec <= INT_MAX /\
  let survivors := pass_D default_options example_pruned_vec in
  process_band default_options example_pruned_20m example_all_20m ∅ ∅ 59
  = Some (local_scp_calls survivors) /\
  (forall qso, qso ∈ example_pruned_vec ->
     (qso ∈ survivors <->
      ~ rcall_count (_rcall qso) example_pruned_vec
        <= CUTOFF_LIMIT default_options)) /\
  (forall call, call ∈ local_scp_calls survivors ->
     CUTOFF_LIMIT default_options + 1 <= rcall_count call survivors).
Proof.
  assert (ssize example_pruned_vec <= INT_MAX) as Hlen by (by vm_compute).
  split; [exact example_pruned_before_cutoff|].
  split; [exact Hlen|].
  exact (process_band_cutoff default_options example_pruned_20m
           example_all_20m ∅ ∅ 59 example_pruned_vec
           example_pruned_before_cutoff Hlen).
Defined.

(** On the small contest N7DR, logged three times, is returned, and KX9XYZ,
    logged once, is cut off. *)
Example example_process_band :
  process_band default_options example_pruned_20m example_all_20m ∅ ∅ 59
  = Some {[cs "N7DR"]}.
Proof. vm_compute. reflexivity. Qed.

(** ** The frequency-quality classifier at nine tenths *)

(** The quotient 9/10 computed on [float] is 15099494 * 2^-24, below nine
    tenths, while the [double] literal [0.9] is above it. *)
Lemma good_fraction_9_10 :
  good_fraction 9 10 = S754_finite false 15099494 (-24) /\
  double_of_float (good_fraction 9 10) = S754_finite false 8106479114518528 (-53) /\
  10 * 15099494 < 9 * 2 ^ 24 /\
  9 * 2 ^ 53 < 10 * 8106479329266893.
Proof. repeat split; by vm_compute. Qed.

(** C7 (the code departs from the claim). A sender whose reverse QSOs agree in
    nine pairings out of ten has a ratio of exactly 0.9, which is not below
    0.9, and yet is classified as poor: the ratio is rounded to [float] and
    compared with the [double] literal [0.9]. *)
Theorem nine_of_ten_is_classified_poor :
  (build_worked example_nine_of_ten ∅ ≫= fun worked =>
     accumulate_counts worked (cs "K1AAA")
                       (default ∅ (worked !! cs "K1AAA"))) = Some (10, 9) /\
  ~ ratio_below_nine_tenths (10, 9) /\
  unreliable (10, 9) = true /\
  calls_with_unreliable_freq example_nine_of_ten ∅
  = Some {[cs "K1AAA"; cs "W2BBB"]}.
Proof.
  split; [by vm_compute|].
  split; [unfold ratio_below_nine_tenths; lia|].
  split; [by vm_compute|].
  vm_compute. reflexivity.
Qed.

(** Where the two counts are equal the classifier agrees with the claim: a
    log all of whose pairings are good is not poor, and one without pairings
    is not classified. *)
Example unreliable_examples :
  unreliable (10, 10) = false /\ unreliable (0, 0) = false /\
  unreliable (10, 8) = true /\ unreliable (100, 91) = false.
Proof. repeat split; by vm_compute. Qed.

(** For up to a hundred pairings the comparison made by the code marks a log
    exactly when its ratio is at most nine tenths: it differs from "below
    0.9" at the ratio 0.9 itself. *)
Lemma unreliable_up_to_100 :
  forallb (fun total =>
             forallb (fun good =>
                        Bool.eqb (unreliable (Z.of_nat total, Z.of_nat good))
                                 ((0 <? Z.of_nat total) &&
                                  (10 * Z.of_nat good <=? 9 * Z.of_nat total)))
                     (seq 0 (S total)))
          (seq 0 101) = true.
Proof. vm_compute. reflexivity. Qed.

Lemma unreliable_small_counts (total good : Z) :
  0 < total <= 100 -> 0 <= good <= total ->
  unreliable (total, good) = true <-> 10 * good <= 9 * total.
Proof.
  intros Ht Hg.
  pose proof unreliable_up_to_100 as H.
  rewrite forallb_forall in H.
  specialize (H (Z.to_nat total)).
  rewrite forallb_forall in H.
  assert (In (Z.to_nat total) (seq 0 101)) as Hin1 by (apply in_seq; lia).
  assert (In (Z.to_nat good) (seq 0 (S (Z.to_nat total)))) as Hin2
    by (apply in_seq; lia).
  specialize (H Hin1 (Z.to_nat good) Hin2).
  rewrite !Z2Nat.id in H by lia.
  apply Bool.eqb_prop in H. rewrite H.
  rewrite andb_true_iff, Z.ltb_lt, Z.leb_le. split; [by intros [_ ?] | lia].
Qed.

(** ** The exit status of the program *)

Section ExitStatus.

Variable env : environment.
Variable value_line : list Z -> Z -> Z.
Variable compare_calls : callsign -> callsign -> bool.

Lemma outcome_bind_exits {A B} (x : outcome A) (f : A -> outcome B) :
  exits_minus_1 x -> (forall a, exits_minus_1 (f a)) ->
  exits_minus_1 (outcome_bind x f).
Proof.
  intros Hx Hf code. destruct x as [a|c| |]; simpl; try done.
  - apply Hf.
  - intros [= <-]. by apply Hx.
Qed.

Lemma contest_of_line_exits (line : callsign) :
  exits_minus_1 (contest_of_line env line).
Proof.
  unfold contest_of_line. intros code.
  destruct (contest_fields env line) as [[[dir start] hrs]|]; [done|].
  by intros [= <-].
Qed.

Lemma contests_of_command_line_exits (cl : command_line) :
  exits_minus_1 (contests_of_command_line env cl).
Proof.
  unfold contests_of_command_line.
  destruct (negb (value_present cl (cs "-dir"))); [by intros code [= <-]|].
  destruct (starts_with_char _ _).
  - destruct (negb (file_exists env _)); [by intros code [= <-]|].
    generalize (read_lines env (drop 1 (value cl (cs "-dir")))) as lines.
    assert (exits_minus_1 (Returns [] : outcome (list contest_parameters)))
      as H0 by done.
    revert H0.
    generalize (Returns [] : outcome (list contest_parameters)) as acc.
    intros acc H0 lines. revert acc H0.
    induction lines as [|line lines IH]; intros acc H0; [done|].
    simpl. apply IH. apply outcome_bind_exits; [done|].
    intros params. destruct (_ && _); [|done].
    apply outcome_bind_exits; [apply contest_of_line_exits | done].
  - destruct (negb (value_present cl (cs "-start"))); [by intros code [= <-]|].
    destruct (negb (value_present cl (cs "-hrs"))); [by intros code [= <-]|].
    apply outcome_bind_exits; [apply contest_of_line_exits | done].
Qed.

Lemma process_directory_exits (opts : options) (cp : contest_parameters)
    (logs : list (list small_qso)) :
  exits_minus_1 (process_directory opts cp logs).
Proof.
  unfold process_directory. intros code.
  destruct (_ =? 0); [by intros [= <-]|].
  destruct (calls_with_unreliable_freq _ _); [|done].
  by destruct (process_bands _ _ _ _ _ _).
Qed.

Lemma process_contests_exits (opts : options)
    (params_vec : list contest_parameters) :
  exits_minus_1 (process_contests env opts params_vec).
Proof.
  unfold process_contests.
  destruct params_vec as [|cp0 params]; [done|].
  destruct (_ =? 0); [done|].
  generalize (cp0 :: params) as l.
  assert (exits_minus_1 (Returns ∅ : outcome (gmap callsign Z))) as H0 by done.
  revert H0. generalize (Returns ∅ : outcome (gmap callsign Z)) as acc.
  intros acc H0 l. revert acc H0.
  induction l as [|cp l IH]; intros acc H0; [done|].
  simpl. apply IH. apply outcome_bind_exits; [done|].
  intros xscp_calls.
  apply outcome_bind_exits; [apply process_directory_exits | done].
Qed.

(** Whatever the command line and the logs, [main] returns 1 or calls
    [exit(-1)]: no run of the program ends with the exit status 0. *)
Lemma main_exit_status (cl : command_line) :
  match main env value_line compare_calls cl with
  | Returns (code, _) => code = 1
  | Exits code => code = -1
  | Throws | Hangs => True
  end.
Proof.
  pose proof (contests_of_command_line_exits cl) as Hc.
  unfold main.
  destruct (contests_of_command_line env cl) as [params|code| |]; simpl;
    [|by apply Hc|done|done].
  destruct (existsb _ params); [done|].
  pose proof (process_contests_exits (options_of_command_line env cl) params)
    as Hp.
  destruct (process_contests env _ params) as [xscp_calls|code| |]; simpl;
    [done|by apply Hp|done|done].
Qed.

Lemma main_never_exits_0 (cl : command_line) :
  exit_status (main env value_line compare_calls cl) <> Some 0.
Proof.
  pose proof (main_exit_status cl) as H.
  destruct (main env value_line compare_calls cl) as [[code out]|code| |];
    simpl; try done; subst code; by vm_compute.
Qed.

(** A command line without [-dir] is a configuration error: [exit(-1)]. *)
Lemma main_without_dir (cl : command_line) :
  value_present cl (cs "-dir") = false ->
  main env value_line compare_calls cl = Exits (-1).
Proof.
  intros H. unfold main, contests_of_command_line. by rewrite H.
Qed.

End ExitStatus.

(** A directory without a valid log is an ingest error: [exit(-1)]. *)
Lemma process_directory_without_logs (opts : options) (cp : contest_parameters) :
  process_directory opts cp [] = Exits (-1).
Proof. reflexivity. Qed.

(** C9 (the code departs from the claim). On a successful run, here of the
    small contest with all the configuration checks passing and three valid
    logs, [main] returns 1 after writing the calls: the exit status of the
    process is 1, not 0.  (A run that ends in [exit(-1)] has the status
    255.) *)
Theorem successful_run_returns_1 :
  main example_environment example_value_line example_compare_calls
       example_command_line
  = Returns (1, [SCP_line (cs "N7DR"); SCP_line (cs "K1AAA");
                 SCP_line (cs "W2BBB"); SCP_line (cs "W3CCC")]) /\
  exit_status (main example_environment example_value_line
                    example_compare_calls example_command_line) = Some 1 /\
  exit_status (Exits (-1) : outcome (Z * list output_line)) = Some 255.
Proof.
  assert (main example_environment example_value_line example_compare_calls
               example_command_line
          = Returns (1, [SCP_line (cs "N7DR"); SCP_line (cs "K1AAA");
                         SCP_line (cs "W2BBB"); SCP_line (cs "W3CCC")])) as H
    by (vm_compute; reflexivity).
  split; [exact H|]. split; [by rewrite H | reflexivity].
Qed.

(** ** The band pruner returns on the vectors the pipeline hands it

    [process_band] reads its time maps with [at], which throws on an index
    out of range, and [time_map] throws when the size it reserves is
    negative.  On a band with at least one QSO in each of the two minilogs
    and with all relative minutes of the pruned QSOs within the contest, the
    size is positive and no index is out of range. *)

Lemma foldlM_is_Some {A B} (f : B -> A -> option B) (l : list A) (b : B) :
  (forall b' x, x ∈ l -> is_Some (f b' x)) -> is_Some (foldlM f b l).
Proof.
  revert b. induction l as [|x l IH]; intros b Hf; [by eexists|].
  simpl. destruct (Hf b x (list_elem_of_here _ _)) as [b' ->].
  apply IH. intros b'' y Hy. apply Hf. by apply list_elem_of_further.
Qed.

Lemma length_time_map_loop (vec : list small_qso) (last_start : nat)
    (minutes : Z) (n : nat) :
  length (time_map_loop vec last_start minutes n) = n.
Proof.
  revert last_start minutes. induction n as [|n IH]; intros s m; [done|].
  simpl. by rewrite IH.
Qed.

(** [time_map] returns for a vector that is not empty when the size it
    reserves is not negative. *)
Lemma time_map_Some (vec : list small_qso) (max_rel_mins : Z) :
  vec <> [] -> 0 <= max_rel_mins + 1 ->
  time_map vec max_rel_mins = Some (time_map_entries vec max_rel_mins).
Proof.
  intros Hvec Hmax. unfold time_map.
  destruct vec as [|q vec]; [done|].
  cbv zeta. by destruct (Z.ltb_spec (max_rel_mins + 1) 0) as [?|_]; [lia|].
Qed.

(** It throws when the size is negative. *)
Lemma time_map_throws (vec : list small_qso) (max_rel_mins : Z) :
  vec <> [] -> max_rel_mins + 1 < 0 -> time_map vec max_rel_mins = None.
Proof.
  intros Hvec Hmax. unfold time_map.
  destruct vec as [|q vec]; [done|].
  cbv zeta. by destruct (Z.ltb_spec (max_rel_mins + 1) 0) as [_|?]; [|lia].
Qed.

Lemma at_time_map_is_Some (vec : list small_qso) (max_rel_mins n : Z) :
  vec <> [] -> 0 <= n <= max_rel_mins + 1 ->
  is_Some (at_ (time_map_entries vec max_rel_mins) n).
Proof.
  intros Hvec Hn. unfold at_, time_map_entries.
  destruct (Z.ltb_spec n 0) as [?|_]; [lia|].
  apply lookup_lt_is_Some_2.
  rewrite length_app, length_time_map_loop. simpl. lia.
Qed.

Lemma elem_of_minutes_of_contest (max_rel_mins m : Z) :
  m ∈ minutes_of_contest max_rel_mins -> 0 <= m <= max_rel_mins.
Proof.
  unfold minutes_of_contest. intros Hm.
  apply list_elem_of_fmap in Hm as (k & -> & Hk).
  apply list_elem_of_In, in_seq in Hk. lia.
Qed.

Section Returns.

Variable pruned_qsos_this_band all_qsos_this_band : gmap callsign (list small_qso).
Variable calls_with_no_freq_info calls_with_poor_freq_info : gset callsign.
Variable max_rel_mins : Z.

Hypothesis all_not_empty : build_vec all_qsos_this_band <> [].
Hypothesis pruned_not_empty : build_vec pruned_qsos_this_band <> [].
Hypothesis pruned_in_contest :
  forall qso, qso ∈ build_vec pruned_qsos_this_band ->
              0 <= _rel_mins qso <= max_rel_mins.

Lemma max_rel_mins_nonneg : 0 <= max_rel_mins.
Proof.
  destruct (build_vec pruned_qsos_this_band) as [|qso vec] eqn:Hvec; [done|].
  pose proof (pruned_in_contest qso (list_elem_of_here _ _)). lia.
Qed.

Lemma pass_A_returns :
  is_Some (pass_A calls_with_no_freq_info calls_with_poor_freq_info
                  max_rel_mins (build_vec all_qsos_this_band)
                  (build_vec pruned_qsos_this_band)
                  (time_map_entries (build_vec all_qsos_this_band) max_rel_mins)).
Proof.
  pose proof max_rel_mins_nonneg as Hmax.
  unfold pass_A.
  rewrite (time_map_Some (build_vec pruned_qsos_this_band) max_rel_mins)
    by (done || lia).
  simpl.
  destruct (foldlM_is_Some
              (pass_A_minute calls_with_no_freq_info calls_with_poor_freq_info
                 max_rel_mins (build_vec all_qsos_this_band)
                 (build_vec pruned_qsos_this_band)
                 (time_map_entries (build_vec all_qsos_this_band) max_rel_mins)
                 (time_map_entries (build_vec pruned_qsos_this_band) max_rel_mins))
              (minutes_of_contest max_rel_mins) ∅) as [ids Hids].
  - intros ids m Hm. apply elem_of_minutes_of_contest in Hm.
    unfold pass_A_minute.
    destruct (at_time_map_is_Some (build_vec pruned_qsos_this_band)
                max_rel_mins m pruned_not_empty) as [first ->]; [lia|].
    destruct (at_time_map_is_Some (build_vec pruned_qsos_this_band)
                max_rel_mins (m + 1) pruned_not_empty) as [last ->]; [lia|].
    simpl. apply foldlM_is_Some. intros ids' rqso _.
    destruct (at_time_map_is_Some (build_vec all_qsos_this_band)
                max_rel_mins (Z.max (m - CLOCK_SKEW) 0) all_not_empty)
      as [afirst ->]; [unfold CLOCK_SKEW; lia|].
    destruct (at_time_map_is_Some (build_vec all_qsos_this_band)
                max_rel_mins (Z.min (m + CLOCK_SKEW) max_rel_mins + 1)
                all_not_empty)
      as [alast ->]; [unfold CLOCK_SKEW; lia|].
    simpl. by eexists.
  - rewrite Hids. simpl. by eexists.
Qed.

Lemma is_stn_running_returns (call : callsign) (rel_mins qrg : Z)
    (ignore_call : callsign) :
  0 <= rel_mins <= max_rel_mins ->
  is_Some (is_stn_running all_qsos_this_band calls_with_no_freq_info
             calls_with_poor_freq_info call rel_mins qrg
             (tcalls all_qsos_this_band) (build_vec all_qsos_this_band)
             (time_map_entries (build_vec all_qsos_this_band) max_rel_mins)
             0 max_rel_mins ignore_call).
Proof.
  intros Hm. unfold is_stn_running.
  case_bool_decide as Hcall; simpl; [|by eexists].
  destruct (call_has_good_freq_info _ _ _).
  - unfold tcalls in Hcall. apply elem_of_dom in Hcall as [log ->]. simpl.
    destruct (get_bounds rel_mins 0 max_rel_mins CLOCK_SKEW log). by eexists.
  - destruct (at_time_map_is_Some (build_vec all_qsos_this_band)
                max_rel_mins (Z.max (rel_mins - CLOCK_SKEW) 0) all_not_empty)
      as [first ->]; [unfold CLOCK_SKEW; lia|].
    destruct (at_time_map_is_Some (build_vec all_qsos_this_band)
                max_rel_mins (Z.min (rel_mins + CLOCK_SKEW) max_rel_mins + 1)
                all_not_empty)
      as [last ->]; [unfold CLOCK_SKEW; lia|].
    simpl. by eexists.
Qed.

Lemma pass_B_returns (pruned_vec : list small_qso) :
  (forall qso, qso ∈ pruned_vec -> 0 <= _rel_mins qso <= max_rel_mins) ->
  is_Some (pass_B all_qsos_this_band calls_with_no_freq_info
                  calls_with_poor_freq_info max_rel_mins
                  (tcalls all_qsos_this_band) (build_vec all_qsos_this_band)
                  (time_map_entries (build_vec all_qsos_this_band) max_rel_mins)
                  pruned_vec).
Proof.
  intros Hvec. unfold pass_B.
  match goal with
  | |- is_Some (mbind _ (foldlM ?f ?b ?l)) =>
      destruct (foldlM_is_Some f l b) as [ids Hids]
  end.
  - intros ids qso Hqso. apply foldlM_is_Some. intros ids' tcall _.
    unfold pass_B_step.
    case_bool_decide; [by eexists|].
    destruct (is_bust tcall (_rcall qso)); [|by eexists].
    destruct (is_stn_running_returns tcall (_rel_mins qso) (_qrg qso)
                (_tcall qso) (Hvec qso Hqso)) as [running ->].
    simpl. by eexists.
  - rewrite Hids. simpl. by eexists.
Qed.

(** The first three passes return. *)
Lemma pruned_before_cutoff_returns :
  is_Some (pruned_before_cutoff pruned_qsos_this_band all_qsos_this_band
             calls_with_no_freq_info calls_with_poor_freq_info max_rel_mins).
Proof.
  pose proof max_rel_mins_nonneg as Hmax.
  unfold pruned_before_cutoff.
  rewrite (time_map_Some (build_vec all_qsos_this_band) max_rel_mins)
    by (done || lia).
  simpl.
  destruct pass_A_returns as [vecA HA]. rewrite HA. simpl.
  assert (forall qso, qso ∈ vecA -> 0 <= _rel_mins qso <= max_rel_mins) as HvecA.
  { unfold pass_A in HA.
    rewrite (time_map_Some (build_vec pruned_qsos_this_band) max_rel_mins)
      in HA by (done || lia).
    simpl in HA.
    destruct (foldlM _ _ _) as [ids|]; [|done].
    injection HA as <-. intros qso Hq.
    apply list_elem_of_filter in Hq as [_ Hq]. by apply pruned_in_contest. }
  destruct (pass_B_returns vecA HvecA) as [vecB ->]. simpl. by eexists.
Qed.

(** So does [process_band], and its result is the one of the cutoff. *)
Lemma process_band_returns (opts : options) :
  exists pruned_vec,
    pruned_before_cutoff pruned_qsos_this_band all_qsos_this_band
      calls_with_no_freq_info calls_with_poor_freq_info max_rel_mins
    = Some pruned_vec /\
    process_band opts pruned_qsos_this_band all_qsos_this_band
      calls_with_no_freq_info calls_with_poor_freq_info max_rel_mins
    = Some (local_scp_calls (pass_D opts pruned_vec)).
Proof.
  destruct pruned_before_cutoff_returns as [pruned_vec Hvec].
  exists pruned_vec. split; [done|].
  unfold process_band. by rewrite Hvec.
Qed.

End Returns.

(** With a number of hours so large that [hours * 60] wraps around,
    [max_rel_mins] is negative: [time_map] throws on the QSOs of a band, and
    [process_directory] with it. *)
Example process_directory_throws_on_wrapped_hours :
  time_map example_pruned_vec (wrap32 (wrap32 (35791395 * 60) - 1)) = None /\
  process_directory default_options
    (make_contest_parameters (cs "logs") example_start 35791395) example_logs
  = Throws.
Proof. split; [reflexivity | vm_compute; reflexivity]. Qed.

(** ** The map of possible busts is symmetric *)

Lemma add_bust_lookup (key value k : callsign)
    (rv : gmap callsign (gset callsign)) (c : callsign) :
  c ∈ default ∅ (add_bust key value rv !! k) <->
  (k = key /\ c = value) \/ c ∈ default ∅ (rv !! k).
Proof.
  unfold add_bust. destruct (decide (key = k)) as [->|Hne].
  - rewrite lookup_insert_eq. simpl. rewrite elem_of_union, elem_of_singleton.
    split; (intros [H|H]; [left | by right]); [by split | by destruct H].
  - rewrite lookup_insert_ne by done.
    split; [by right | intros [[-> _]|H]; done].
Qed.

Lemma add_bust_pair_symmetric (call1 call2 : callsign)
    (rv : gmap callsign (gset callsign)) :
  busts_symmetric rv ->
  busts_symmetric (add_bust call2 call1 (add_bust call1 call2 rv)).
Proof.
  intros Hrv a b. rewrite !add_bust_lookup.
  intros [[-> ->]|[[-> ->]|H]].
  - right; left. done.
  - left. done.
  - right; right. by apply Hrv.
Qed.

Lemma possible_busts_from_symmetric (calls : list callsign)
    (rv : gmap callsign (gset callsign)) :
  busts_symmetric rv -> busts_symmetric (possible_busts_from calls rv).
Proof.
  revert rv. induction calls as [|call1 rest IH]; intros rv Hrv; [done|].
  simpl. apply IH. clear IH.
  generalize rest as l. intros l. revert rv Hrv.
  induction l as [|call2 l IHl]; intros rv Hrv; [done|].
  simpl. apply IHl. destruct (is_bust call1 call2); [|done].
  by apply add_bust_pair_symmetric.
Qed.

(** "busting is symmetrical": whenever [possible_busts] lists [b] among the
    busts of [a], it lists [a] among the busts of [b]. *)
Lemma possible_busts_symmetric (calls : gset callsign) :
  busts_symmetric (possible_busts calls).
Proof.
  apply possible_busts_from_symmetric. intros a b.
  rewrite lookup_empty. simpl. by rewrite elem_of_empty.
Qed.

(** * Lemmas for the further properties

    ** Bisection on a vector in the order of its minutes *)

Lemma count_before_cons (t : Z) (x : small_qso) (l : list small_qso) :
  Forall (by_rel_mins x) l ->
  count_before t (x :: l) =
  if decide (_rel_mins x < t) then S (count_before t l) else 0%nat.
Proof.
  intros Hall. unfold count_before. rewrite filter_cons.
  destruct (decide (_rel_mins x < t)) as [Hx|Hx]; [done|].
  rewrite (proj2 (length_zero_iff_nil _)); [done|].
  induction Hall as [|y l Hy _ IH]; [done|].
  rewrite filter_cons. unfold by_rel_mins in Hy.
  destruct (decide (_rel_mins y < t)); [lia | done].
Qed.

Lemma count_before_le_length (t : Z) (vec : list small_qso) :
  (count_before t vec <= length vec)%nat.
Proof. apply length_filter. Qed.

Lemma count_before_mono (t t' : Z) (vec : list small_qso) :
  t <= t' -> (count_before t vec <= count_before t' vec)%nat.
Proof.
  intros Ht. unfold count_before.
  induction vec as [|x l IH]; [done|].
  rewrite !filter_cons.
  destruct (decide (_rel_mins x < t)), (decide (_rel_mins x < t')); simpl; lia.
Qed.

Lemma count_before_zero (t : Z) (x : small_qso) (l : list small_qso) :
  Forall (by_rel_mins x) l -> ~ (_rel_mins x < t) -> count_before t l = 0%nat.
Proof.
  intros Hall Hx. unfold count_before. apply length_zero_iff_nil.
  induction Hall as [|y l Hy _ IH]; [done|].
  rewrite filter_cons. unfold by_rel_mins in Hy.
  destruct (decide (_rel_mins y < t)); [lia | done].
Qed.

Lemma range_count_before (lo hi : Z) (vec : list small_qso) :
  StronglySorted by_rel_mins vec ->
  range vec (count_before lo vec) (count_before hi vec) =
  filter (fun q => lo <= _rel_mins q < hi) vec.
Proof.
  induction 1 as [|x l Hs IH Hall]; [done|].
  rewrite !count_before_cons by done. rewrite filter_cons.
  unfold range in *.
  destruct (decide (_rel_mins x < lo)) as [Hlo|Hlo],
           (decide (_rel_mins x < hi)) as [Hhi|Hhi];
    destruct (decide (lo <= _rel_mins x < hi)) as [Hx|Hx]; try lia.
  - exact IH.
  - rewrite <- IH, (count_before_zero hi x l) by done. done.
  - rewrite <- IH, (count_before_zero lo x l) by done.
    simpl. by rewrite Nat.sub_0_r.
  - rewrite <- IH, (count_before_zero lo x l), (count_before_zero hi x l) by done.
    done.
Qed.

Lemma count_before_drop (t : Z) (first : nat) (vec : list small_qso) :
  StronglySorted by_rel_mins vec ->
  count_before t (drop first vec) = (count_before t vec - first)%nat.
Proof.
  intros Hs. revert first.
  induction Hs as [|x l Hs IH Hall]; intros first.
  { by rewrite drop_nil. }
  destruct first as [|first]; [simpl; lia|].
  rewrite (count_before_cons t x l) by done. simpl. rewrite IH.
  destruct (decide (_rel_mins x < t)) as [Hx|Hx]; [done|].
  by rewrite (count_before_zero t x l).
Qed.

Lemma lower_bound_0 (t : Z) (vec : list small_qso) :
  StronglySorted by_rel_mins vec ->
  lower_bound vec 0 t = count_before t vec.
Proof.
  unfold lower_bound. rewrite drop_0.
  induction 1 as [|x l Hs IH Hall]; [done|].
  rewrite (count_before_cons t x l) by done. simpl.
  destruct (decide (~ _rel_mins x < t)) as [Hx|Hx].
  - simpl. by rewrite decide_False by done.
  - rewrite decide_True by lia.
    destruct (list_find _ l) as [[n q]|]; simpl in *; lia.
Qed.

Lemma StronglySorted_drop {A} (R : A -> A -> Prop) (n : nat) (l : list A) :
  StronglySorted R l -> StronglySorted R (drop n l).
Proof.
  intros Hs. revert n. induction Hs as [|x l Hs IH Hall]; intros n.
  { rewrite drop_nil. constructor. }
  destruct n as [|n]; [by constructor|]. simpl. apply IH.
Qed.

Lemma lower_bound_sorted (t : Z) (first : nat) (vec : list small_qso) :
  StronglySorted by_rel_mins vec -> (first <= length vec)%nat ->
  lower_bound vec first t = Nat.max first (count_before t vec).
Proof.
  intros Hs Hfirst.
  pose proof (lower_bound_0 t (drop first vec) (StronglySorted_drop _ first _ Hs)) as H0.
  rewrite count_before_drop in H0 by done.
  unfold lower_bound in *. rewrite drop_0 in H0.
  destruct (list_find _ (drop first vec)) as [[n q]|]; [lia|].
  rewrite length_drop in H0.
  pose proof (count_before_le_length t vec). lia.
Qed.

Lemma upper_bound_lower_bound (t : Z) (first : nat) (vec : list small_qso) :
  upper_bound vec first t = lower_bound vec first (t + 1).
Proof.
  unfold upper_bound, lower_bound.
  rewrite (list_find_ext (fun element => t < _rel_mins element)
                         (fun element => ~ _rel_mins element < t + 1)); [done|].
  intros x. lia.
Qed.

Lemma get_bounds_sorted (target_minutes minimum_minutes maximum_minutes
    ALLOWED_SKEW : Z) (vec : list small_qso) :
  StronglySorted by_rel_mins vec ->
  let '(lb, ub) := get_bounds target_minutes minimum_minutes maximum_minutes
                              ALLOWED_SKEW vec in
  (lb <= ub <= length vec)%nat /\
  range vec lb ub =
  filter (fun q => Z.max (target_minutes - ALLOWED_SKEW) minimum_minutes
                   <= _rel_mins q <=
                   Z.min (target_minutes + ALLOWED_SKEW) maximum_minutes) vec.
Proof.
  intros Hs. unfold get_bounds.
  set (lo := Z.max _ _). set (hi := Z.min _ _).
  rewrite upper_bound_lower_bound.
  rewrite (lower_bound_sorted lo 0) by (done || lia).
  rewrite Nat.max_0_l.
  pose proof (count_before_le_length lo vec) as Hlo.
  pose proof (count_before_le_length (hi + 1) vec) as Hhi.
  rewrite lower_bound_sorted by done.
  split; [lia|].
  destruct (Nat.max_spec (count_before lo vec) (count_before (hi + 1) vec))
    as [[Hlt ->]|[Hge ->]].
  - rewrite range_count_before by done.
    apply list_filter_iff. intros q. lia.
  - unfold range. rewrite Nat.sub_diag. simpl.
    pose proof (range_count_before lo (hi + 1) vec Hs) as Hr.
    unfold range in Hr.
    replace (count_before (hi + 1) vec - count_before lo vec)%nat with 0%nat in Hr by lia.
    simpl in Hr. rewrite Hr.
    apply list_filter_iff. intros q. lia.
Qed.

Lemma time_map_loop_lookup (vec : list small_qso) (n : nat) :
  StronglySorted by_rel_mins vec ->
  forall (last_start : nat) (minutes : Z) (k : nat),
    (last_start <= count_before minutes vec)%nat -> (k < n)%nat ->
    time_map_loop vec last_start minutes n !! k =
    Some (count_before (minutes + Z.of_nat k) vec).
Proof.
  intros Hs. induction n as [|n IH]; intros last_start minutes k Hlast Hk; [lia|].
  simpl.
  pose proof (count_before_le_length minutes vec) as Hlen.
  rewrite lower_bound_sorted by (done || lia).
  rewrite Nat.max_r by done.
  destruct k as [|k]; simpl.
  - by rewrite Z.add_0_r.
  - rewrite IH; [|by apply count_before_mono; lia|lia].
    do 2 f_equal. lia.
Qed.

Lemma at_time_map (vec : list small_qso) (max_rel_mins m : Z) :
  StronglySorted by_rel_mins vec -> vec <> [] ->
  0 <= m <= max_rel_mins ->
  at_ (time_map_entries vec max_rel_mins) m = Some (count_before m vec).
Proof.
  intros Hs Hvec Hm. unfold at_, time_map_entries.
  destruct (Z.ltb_spec m 0) as [?|_]; [lia|].
  rewrite lookup_app_l by (rewrite length_time_map_loop; lia).
  rewrite time_map_loop_lookup by (done || lia).
  do 2 f_equal. lia.
Qed.

Lemma at_time_map_end (vec : list small_qso) (max_rel_mins : Z) :
  vec <> [] -> 0 <= max_rel_mins + 1 ->
  at_ (time_map_entries vec max_rel_mins) (max_rel_mins + 1) = Some (length vec).
Proof.
  intros Hvec Hm. unfold at_, time_map_entries.
  destruct (Z.ltb_spec (max_rel_mins + 1) 0) as [?|_]; [lia|].
  rewrite lookup_app_r by (rewrite length_time_map_loop; lia).
  rewrite length_time_map_loop.
  by rewrite Nat.sub_diag.
Qed.

Lemma count_before_all (t : Z) (vec : list small_qso) :
  (forall q, q ∈ vec -> _rel_mins q < t) -> count_before t vec = length vec.
Proof.
  intros Hall. unfold count_before. f_equal.
  induction vec as [|x l IH]; [done|].
  rewrite filter_cons, decide_True.
  - f_equal. apply IH. intros q Hq. apply Hall. by apply list_elem_of_further.
  - apply Hall, list_elem_of_here.
Qed.

(** at the upper end *)
Lemma at_time_map_succ (vec : list small_qso) (max_rel_mins m : Z) :
  StronglySorted by_rel_mins vec -> vec <> [] ->
  (forall q, q ∈ vec -> _rel_mins q <= max_rel_mins) ->
  0 <= m <= max_rel_mins ->
  at_ (time_map_entries vec max_rel_mins) (m + 1) = Some (count_before (m + 1) vec).
Proof.
  intros Hs Hvec Hmax Hm.
  destruct (decide (m = max_rel_mins)) as [->|Hne].
  - rewrite at_time_map_end by (done || lia).
    rewrite count_before_all; [done|].
    intros q Hq. specialize (Hmax q Hq). lia.
  - apply at_time_map; (done || lia).
Qed.

(** ** What the loop over the files stores *)

Lemma accept_qso_stored (cp : contest_parameters) (qso qso' : small_qso) :
  accept_qso cp qso = Some qso' -> stored_qso cp (_tcall qso') qso'.
Proof.
  unfold accept_qso.
  destruct (in_contest_period cp (_time qso)) eqn:Hin; [|done].
  apply in_contest_period_spec in Hin. cbn [negb].
  case_bool_decide as Hempty; [done|].
  set (q4 := set_rcall _ (set_tcall _ (set_rcall _ (set_tcall _ (set_rel_mins _ qso))))).
  destruct (_ || _) eqn:Hlen; [done|].
  destruct (has_illegal_char (_tcall q4) || has_illegal_char (_rcall q4)) eqn:Hill; [done|].
  case_bool_decide as Hself; [done|].
  intros [= <-].
  apply orb_false_iff in Hlen as [Hl1 Hl2].
  apply Nat.ltb_ge in Hl1, Hl2.
  apply orb_false_iff in Hill as [Hi1 Hi2].
  unfold stored_qso. split_and!; try done.
  all: subst q4; simpl; lia.
Qed.

Lemma read_log_Forall_key (P : callsign -> small_qso -> Prop)
    (cp : contest_parameters) (qso_lines : list small_qso) :
  (forall qso qso', qso ∈ qso_lines -> accept_qso cp qso = Some qso' ->
                    P (_tcall qso') qso') ->
  map_Forall (fun tcall qsos => qsos <> [] /\ Forall (P tcall) qsos)
             (read_log cp qso_lines).
Proof.
  unfold read_log.
  set (Q := fun (tcall : callsign) (qsos : list small_qso) =>
              qsos <> [] /\ Forall (P tcall) qsos).
  assert (map_Forall Q (∅ : gmap callsign (list small_qso))) as H0
    by apply map_Forall_empty.
  revert H0. generalize (∅ : gmap callsign (list small_qso)) as m.
  induction qso_lines as [|line lines IH]; intros m Hm HP; [done|].
  simpl. apply IH.
  - destruct (accept_qso cp line) as [qso|] eqn:Hacc; [|done].
    apply map_Forall_insert_2; [|done].
    split; [by destruct (default _ _)|].
    apply Forall_app. split.
    + destruct (m !! _tcall qso) as [qsos|] eqn:Hl; simpl; [|done].
      by apply (Hm _ _ Hl).
    + apply Forall_singleton. apply (HP line); [apply list_elem_of_here | done].
  - intros qso qso' Hin. apply HP. by apply list_elem_of_further.
Qed.

Lemma ingest_log_Forall_key (Q : callsign -> list small_qso -> Prop)
    opts cp st qso_lines :
  map_Forall Q (read_log cp qso_lines) ->
  map_Forall Q (all_qsos st) ->
  map_Forall Q (all_qsos (ingest_log opts cp st qso_lines)).
Proof.
  intros Hlog Hst. unfold ingest_log.
  case_bool_decide; [done|].
  set (st0 := {| all_qsos := all_qsos st; scp_calls := scp_calls st;
                 n_valid_logs := wrap32 (n_valid_logs st + 1) |}).
  assert (map_Forall Q (all_qsos st0)) as H0 by done.
  assert (Forall (fun pr : callsign * list small_qso => Q pr.1 pr.2)
                 (map_to_list (read_log cp qso_lines))) as Hl.
  { apply Forall_forall. intros [tcall qsos] Hin.
    apply elem_of_map_to_list in Hin. by apply (Hlog _ _ Hin). }
  clearbody st0. revert st0 H0.
  induction Hl as [|[tcall qsos] l Hq _ IH]; intros st0 H0; [done|].
  simpl. apply IH. simpl. unfold insert_new.
  destruct (all_qsos st0 !! tcall); [done|]. by apply map_Forall_insert_2.
Qed.

Lemma ingest_Forall_key (P : callsign -> small_qso -> Prop) opts cp logs :
  (forall log qso qso', log ∈ logs -> qso ∈ log ->
                        accept_qso cp qso = Some qso' -> P (_tcall qso') qso') ->
  map_Forall (fun tcall qsos => qsos <> [] /\ Forall (P tcall) qsos)
             (all_qsos (ingest opts cp logs)).
Proof.
  unfold ingest.
  set (st0 := {| all_qsos := ∅; scp_calls := ∅; n_valid_logs := 0 |}).
  assert (map_Forall (fun tcall qsos => qsos <> [] /\ Forall (P tcall) qsos)
                     (all_qsos st0)) as H0
    by apply map_Forall_empty.
  clearbody st0. revert st0 H0.
  induction logs as [|log logs IH]; intros st0 H0 HP; [done|].
  simpl. apply IH.
  - apply ingest_log_Forall_key; [|done].
    apply read_log_Forall_key. intros qso qso' Hin.
    apply (HP log); [apply list_elem_of_here | done].
  - intros log' qso qso' Hlog. apply HP. by apply list_elem_of_further.
Qed.

Lemma ingest_stored opts cp logs :
  map_Forall (fun tcall qsos => qsos <> [] /\ Forall (stored_qso cp tcall) qsos)
             (all_qsos (ingest opts cp logs)).
Proof. apply ingest_Forall_key. intros log qso qso' _ _. apply accept_qso_stored. Qed.

(** relative minutes for a contest whose hours fit *)
Lemma stored_qso_rel_mins (dir : callsign) (start hrs : Z) tcall qso :
  0 < hrs <= 596523 ->
  stored_qso (make_contest_parameters dir start hrs) tcall qso ->
  _rel_mins qso = (_time qso - start) `div` 60 /\
  0 <= _rel_mins qso <= hrs * 60 - 1.
Proof.
  intros Hhrs (_ & Ht & Hrel & _).
  cbn [_t_start _t_end make_contest_parameters] in Ht, Hrel.
  rewrite wrap32_small in Ht by lia.
  rewrite Z.quot_div_nonneg in Hrel by lia.
  assert (0 <= (_time qso - start) `div` 60 <= hrs * 60 - 1) as Hq.
  { split; [apply Z.div_pos; lia|].
    apply Z.lt_succ_r. apply Z.div_lt_upper_bound; lia. }
  rewrite wrap32_small in Hrel by lia. lia.
Qed.

Lemma max_rel_mins_hours (hrs : Z) :
  0 < hrs <= 596523 -> wrap32 (wrap32 (hrs * 60) - 1) = hrs * 60 - 1.
Proof.
  intros H. rewrite (wrap32_small (hrs * 60)) by lia.
  apply wrap32_small. lia.
Qed.

Lemma chronological_by_rel_mins (t0 : Z) (vec : list small_qso) :
  Forall (fun q => _rel_mins q = (_time q - t0) `div` 60) vec ->
  StronglySorted chronological vec -> StronglySorted by_rel_mins vec.
Proof.
  intros Hrel Hs. induction Hs as [|x l Hs IH Hall]; [constructor|].
  apply Forall_cons in Hrel as [Hx Hl].
  constructor; [by apply IH|].
  apply Forall_forall. intros y Hy.
  pose proof (proj1 (Forall_forall _ _) Hall y Hy) as Hxy.
  pose proof (proj1 (Forall_forall _ _) Hl y Hy) as Hy'.
  unfold by_rel_mins, chronological in *. rewrite Hx, Hy'.
  apply Z.div_le_mono; lia.
Qed.

(** ** The map of possible busts *)

Lemma possible_busts_inner (call1 : callsign) (rest : list callsign)
    (rv : gmap callsign (gset callsign)) (k c : callsign) :
  c ∈ default ∅ (foldl (fun rv call2 =>
                  if is_bust call1 call2
                  then add_bust call2 call1 (add_bust call1 call2 rv)
                  else rv) rv rest !! k) <->
  c ∈ default ∅ (rv !! k) \/
  (k = call1 /\ c ∈ rest /\ is_bust call1 c = true) \/
  (c = call1 /\ k ∈ rest /\ is_bust call1 k = true).
Proof.
  revert rv. induction rest as [|call2 rest IH]; intros rv; simpl.
  { split; [by left|]. intros [H|[(_ & H & _)|(_ & H & _)]]; [done|..];
      by apply elem_of_nil in H. }
  rewrite IH. rewrite !elem_of_cons.
  destruct (is_bust call1 call2) eqn:Hb.
  - rewrite !add_bust_lookup. split.
    + intros [[[-> ->]|[[-> ->]|H]]|[(-> & H & Hc)|(-> & H & Hk)]]; eauto 10.
    + intros [H|[(-> & [->|H] & Hc)|(-> & [->|H] & Hk)]]; eauto 10.
  - split.
    + intros [H|[(-> & H & Hc)|(-> & H & Hk)]]; eauto 10.
    + intros [H|[(-> & [->|H] & Hc)|(-> & [->|H] & Hk)]]; eauto 10; congruence.
Qed.

Lemma possible_busts_from_spec (calls : list callsign)
    (rv : gmap callsign (gset callsign)) (k c : callsign) :
  c ∈ default ∅ (possible_busts_from calls rv !! k) <->
  c ∈ default ∅ (rv !! k) \/ (k ∈ calls /\ c ∈ calls /\ is_bust k c = true).
Proof.
  revert rv. induction calls as [|call1 rest IH]; intros rv; simpl.
  { split; [by left|]. intros [H|(H & _)]; [done|]. by apply elem_of_nil in H. }
  rewrite IH, possible_busts_inner. rewrite !elem_of_cons.
  split.
  - intros [[H|[(-> & H & Hc)|(-> & H & Hk)]]|(Hk & Hc & Hb)]; eauto 10.
    right. rewrite is_bust_sym. eauto.
  - intros [H|([->|Hk] & [->|Hc] & Hb)]; eauto 10.
    + by rewrite is_bust_irreflexive in Hb.
    + left. right. right. rewrite is_bust_sym. eauto.
Qed.

Lemma add_bust_nonempty (key value : callsign) (rv : gmap callsign (gset callsign)) :
  map_Forall (fun _ s => s <> (∅ : gset callsign)) rv ->
  map_Forall (fun _ s => s <> (∅ : gset callsign)) (add_bust key value rv).
Proof.
  intros Hrv. unfold add_bust. apply map_Forall_insert_2; [|done].
  intros Hempty.
  assert (value ∈ (∅ : gset callsign)) as Hin; [|by apply elem_of_empty in Hin].
  rewrite <- Hempty. apply elem_of_union. left. by apply elem_of_singleton.
Qed.

Lemma possible_busts_from_nonempty (calls : list callsign)
    (rv : gmap callsign (gset callsign)) :
  map_Forall (fun _ s => s <> (∅ : gset callsign)) rv ->
  map_Forall (fun _ s => s <> (∅ : gset callsign)) (possible_busts_from calls rv).
Proof.
  revert rv. induction calls as [|call1 rest IH]; intros rv Hrv; [done|].
  simpl. apply IH. clear IH.
  generalize rest as l. intros l. revert rv Hrv.
  induction l as [|call2 l IHl]; intros rv Hrv; [done|].
  simpl. apply IHl. destruct (is_bust call1 call2); [|done].
  by do 2 apply add_bust_nonempty.
Qed.

Lemma possible_busts_spec (calls : gset callsign) (k c : callsign) :
  c ∈ default ∅ (possible_busts calls !! k) <->
  k ∈ calls /\ c ∈ calls /\ is_bust k c = true.
Proof.
  unfold possible_busts. rewrite possible_busts_from_spec.
  rewrite lookup_empty. simpl. rewrite !elem_of_elements, elem_of_empty. tauto.
Qed.

Lemma possible_busts_is_Some (calls : gset callsign) (k : callsign) :
  is_Some (possible_busts calls !! k) <->
  exists c, k ∈ calls /\ c ∈ calls /\ is_bust k c = true.
Proof.
  split.
  - intros [s Hs].
    assert (s <> ∅) as Hne.
    { eapply (possible_busts_from_nonempty (elements calls) ∅); [|exact Hs].
      apply map_Forall_empty. }
    apply set_choose_L in Hne as [c Hc]. exists c.
    apply possible_busts_spec. by rewrite Hs.
  - intros (c & H). apply possible_busts_spec in H.
    destruct (possible_busts calls !! k); [by eexists|].
    simpl in H. by apply elem_of_empty in H.
Qed.

(** ** The first pass as a filter *)

Lemma union_rotate (A B C : gset Z) : A ∪ (B ∪ C) = (B ∪ A) ∪ C.
Proof. apply set_eq. intros i. rewrite !elem_of_union. tauto. Qed.

Lemma union_mark (b : bool) (i : Z) (ids : gset Z) :
  (if b then {[i]} ∪ ids else ids) = (if b then {[i]} else ∅) ∪ ids.
Proof. destruct b; [done | by rewrite union_empty_l_L]. Qed.

Lemma mark_absorb (b : bool) (i : Z) (ids : gset Z) :
  i ∈ ids -> (if b then {[i]} else ∅) ∪ ids = ids.
Proof.
  intros Hi. destruct b; [|by rewrite union_empty_l_L].
  apply set_eq. intros j. rewrite elem_of_union, elem_of_singleton.
  split; [intros [->|H]; done | by right].
Qed.

Lemma elem_of_marks (marked : small_qso -> bool) (vec : list small_qso) (i : Z) :
  i ∈ ⋃ (mark marked <$> vec) <->
  i ∈ (list_to_set (map _id (filter (fun q => marked q = true) vec)) : gset Z).
Proof.
  rewrite elem_of_union_list, elem_of_list_to_set, list_elem_of_fmap. split.
  - intros (X & HX & Hi). apply list_elem_of_fmap in HX as (q & -> & Hq).
    unfold mark in Hi. destruct (marked q) eqn:Hmk; [|by apply elem_of_empty in Hi].
    apply elem_of_singleton in Hi as ->.
    exists q. split; [done|]. by apply list_elem_of_filter.
  - intros (q & -> & Hq). apply list_elem_of_filter in Hq as [Hmk Hq].
    exists {[_id q]}. split; [|by apply elem_of_singleton].
    apply list_elem_of_fmap. exists q. unfold mark. by rewrite Hmk.
Qed.

Lemma filter_ext_in {A} (P Q : A -> Prop) `{!forall x, Decision (P x)}
    `{!forall x, Decision (Q x)} (l : list A) :
  (forall x, x ∈ l -> (P x <-> Q x)) -> filter P l = filter Q l.
Proof.
  induction l as [|x l IH]; intros Hext; [done|].
  rewrite !filter_cons.
  rewrite IH by (intros y Hy; apply Hext; by apply list_elem_of_further).
  destruct (decide (P x)) as [HP|HP], (decide (Q x)) as [HQ|HQ]; try done;
    exfalso; pose proof (Hext x (list_elem_of_here _ _)); tauto.
Qed.

Lemma foldlM_union {A} (f : gset Z -> A -> option (gset Z)) (S : A -> gset Z)
    (l : list A) (ids : gset Z) :
  (forall ids x, x ∈ l -> f ids x = Some (S x ∪ ids)) ->
  foldlM f ids l = Some (⋃ (S <$> l) ∪ ids).
Proof.
  revert ids. induction l as [|x l IH]; intros ids Hf; simpl.
  { by rewrite union_empty_l_L. }
  rewrite (Hf ids x) by apply list_elem_of_here.
  rewrite IH by (intros ids' y Hy; apply Hf; by apply list_elem_of_further).
  by rewrite union_rotate.
Qed.

Section PassA.

Variable calls_with_no_freq_info calls_with_poor_freq_info : gset callsign.
Variable max_rel_mins : Z.
Variable all_vec pruned_vec : list small_qso.

Hypothesis all_sorted : StronglySorted by_rel_mins all_vec.
Hypothesis all_not_empty : all_vec <> [].
Hypothesis all_in_contest :
  forall q, q ∈ all_vec -> 0 <= _rel_mins q <= max_rel_mins.
Hypothesis pruned_sorted : StronglySorted by_rel_mins pruned_vec.
Hypothesis pruned_not_empty : pruned_vec <> [].
Hypothesis pruned_in_contest :
  forall q, q ∈ pruned_vec -> 0 <= _rel_mins q <= max_rel_mins.

Local Abbreviation marked := (marked_A calls_with_no_freq_info calls_with_poor_freq_info all_vec).

Lemma pass_A_minute_spec (ids : gset Z) (m : Z) :
  0 <= m <= max_rel_mins ->
  pass_A_minute calls_with_no_freq_info calls_with_poor_freq_info max_rel_mins
    all_vec pruned_vec (time_map_entries all_vec max_rel_mins)
    (time_map_entries pruned_vec max_rel_mins) ids m
  = Some (⋃ (mark marked <$> filter (fun q => _rel_mins q = m) pruned_vec) ∪ ids).
Proof.
  intros Hm. unfold pass_A_minute.
  rewrite (at_time_map pruned_vec max_rel_mins m) by done.
  rewrite (at_time_map_succ pruned_vec max_rel_mins m)
    by (done || (intros q Hq; pose proof (pruned_in_contest q Hq); lia)).
  rewrite (at_time_map all_vec max_rel_mins (Z.max (m - CLOCK_SKEW) 0))
    by (done || unfold CLOCK_SKEW; lia).
  rewrite (at_time_map_succ all_vec max_rel_mins
             (Z.min (m + CLOCK_SKEW) max_rel_mins))
    by (done || (intros q Hq; pose proof (all_in_contest q Hq); lia)
        || unfold CLOCK_SKEW; lia).
  simpl. rewrite (range_count_before m (m + 1) pruned_vec) by done.
  rewrite (list_filter_iff (fun q => m <= _rel_mins q < m + 1)
                           (fun q => _rel_mins q = m)) by (intros q; lia).
  apply foldlM_union. intros ids' rqso Hr.
  apply list_elem_of_filter in Hr as [Hrel Hr].
  rewrite (range_count_before _ _ all_vec) by done.
  unfold mark, marked_A.
  rewrite (filter_ext_in
             (fun q => Z.max (m - CLOCK_SKEW) 0 <= _rel_mins q
                       < Z.min (m + CLOCK_SKEW) max_rel_mins + 1)
             (minutes_apart CLOCK_SKEW rqso)).
  - by rewrite union_mark.
  - intros q Hq. apply all_in_contest in Hq.
    unfold minutes_apart, CLOCK_SKEW. rewrite Hrel. lia.
Qed.

Lemma pass_A_spec :
  pass_A calls_with_no_freq_info calls_with_poor_freq_info max_rel_mins
         all_vec pruned_vec (time_map_entries all_vec max_rel_mins)
  = Some (erase_ids (list_to_set (map _id (filter (fun q => marked q = true) pruned_vec)))
                    pruned_vec).
Proof.
  assert (0 <= max_rel_mins) as Hmax.
  { destruct pruned_vec as [|q l] eqn:Hl; [done|].
    pose proof (pruned_in_contest q (list_elem_of_here _ _)). lia. }
  unfold pass_A.
  rewrite (time_map_Some pruned_vec max_rel_mins) by (done || lia). simpl.
  rewrite (foldlM_union _
             (fun m => ⋃ (mark marked <$> filter (fun q => _rel_mins q = m) pruned_vec))).
  2:{ intros ids m Hm. apply elem_of_minutes_of_contest in Hm.
      by apply pass_A_minute_spec. }
  simpl. do 2 f_equal.
  apply set_eq. intros i.
  rewrite <- elem_of_marks, elem_of_union, !elem_of_union_list.
  split.
  - intros [(X & HX & Hi)|Hi]; [|by apply elem_of_empty in Hi].
    apply list_elem_of_fmap in HX as (m & -> & Hm).
    apply elem_of_union_list in Hi as (Y & HY & Hi).
    apply list_elem_of_fmap in HY as (q & -> & Hq).
    apply list_elem_of_filter in Hq as [_ Hq].
    exists (mark marked q). split; [|done].
    apply list_elem_of_fmap. by exists q.
  - intros (Y & HY & Hi). apply list_elem_of_fmap in HY as (q & -> & Hq).
    left. exists (⋃ (mark marked <$> filter (fun q' => _rel_mins q' = _rel_mins q)
                                         pruned_vec)).
    split.
    + apply list_elem_of_fmap. exists (_rel_mins q). split; [done|].
      unfold minutes_of_contest. apply list_elem_of_fmap.
      pose proof (pruned_in_contest q Hq).
      exists (Z.to_nat (_rel_mins q)). split; [lia|].
      apply list_elem_of_In, in_seq. lia.
    + apply elem_of_union_list. exists (mark marked q). split; [|done].
      apply list_elem_of_fmap. exists q. split; [done|].
      by apply list_elem_of_filter.
Qed.

End PassA.

(** ** The second pass as a filter *)

Section PassB.

Variable all_qsos_this_band : gmap callsign (list small_qso).
Variable calls_with_no_freq_info calls_with_poor_freq_info : gset callsign.
Variable max_rel_mins : Z.
Variable all_vec : list small_qso.

Hypothesis all_sorted : StronglySorted by_rel_mins all_vec.
Hypothesis all_not_empty : all_vec <> [].
Hypothesis all_in_contest :
  forall q, q ∈ all_vec -> 0 <= _rel_mins q <= max_rel_mins.
Hypothesis logs_sorted :
  forall call log, all_qsos_this_band !! call = Some log ->
    StronglySorted by_rel_mins log.
Hypothesis logs_in_contest :
  forall call log q, all_qsos_this_band !! call = Some log -> q ∈ log ->
    0 <= _rel_mins q <= max_rel_mins.

Lemma is_stn_running_spec (call : callsign) (qso : small_qso) :
  0 <= _rel_mins qso <= max_rel_mins ->
  is_stn_running all_qsos_this_band calls_with_no_freq_info
    calls_with_poor_freq_info call (_rel_mins qso) (_qrg qso)
    (tcalls all_qsos_this_band) all_vec (time_map_entries all_vec max_rel_mins)
    0 max_rel_mins (_tcall qso)
  = Some (running_entrant all_qsos_this_band calls_with_no_freq_info
            calls_with_poor_freq_info all_vec call qso).
Proof.
  intros Hm. unfold is_stn_running, running_entrant.
  case_bool_decide as Hcall; simpl; [|done].
  destruct (call_has_good_freq_info _ _ _).
  - unfold tcalls in Hcall. apply elem_of_dom in Hcall as [log Hlog].
    rewrite Hlog. simpl.
    pose proof (get_bounds_sorted (_rel_mins qso) 0 max_rel_mins CLOCK_SKEW log
                  (logs_sorted call log Hlog)) as Hb.
    unfold get_bounds in Hb. cbv zeta in Hb. destruct Hb as [_ Hb].
    rewrite Hb.
    do 2 f_equal. apply filter_ext_in. intros q Hq.
    pose proof (logs_in_contest call log q Hlog Hq).
    unfold minutes_apart, CLOCK_SKEW. lia.
  - rewrite (at_time_map all_vec max_rel_mins
               (Z.max (_rel_mins qso - CLOCK_SKEW) 0))
      by (done || unfold CLOCK_SKEW; lia).
    rewrite (at_time_map_succ all_vec max_rel_mins
               (Z.min (_rel_mins qso + CLOCK_SKEW) max_rel_mins))
      by (done || (intros q Hq; pose proof (all_in_contest q Hq); lia)
          || unfold CLOCK_SKEW; lia).
    simpl. rewrite range_count_before by done.
    do 2 f_equal. apply filter_ext_in. intros q Hq.
    pose proof (all_in_contest q Hq).
    unfold minutes_apart, CLOCK_SKEW. lia.
Qed.

Local Abbreviation marked :=
  (marked_B all_qsos_this_band calls_with_no_freq_info
            calls_with_poor_freq_info all_vec).

Lemma pass_B_inner (qso : small_qso) (tl : list callsign) (ids : gset Z) :
  0 <= _rel_mins qso <= max_rel_mins ->
  foldlM (pass_B_step all_qsos_this_band calls_with_no_freq_info
            calls_with_poor_freq_info max_rel_mins
            (tcalls all_qsos_this_band) all_vec
            (time_map_entries all_vec max_rel_mins) qso) ids tl
  = Some ((if existsb (fun tcall =>
                         is_bust tcall (_rcall qso) &&
                         running_entrant all_qsos_this_band
                           calls_with_no_freq_info calls_with_poor_freq_info
                           all_vec tcall qso) tl
           then {[_id qso]} else ∅) ∪ ids).
Proof.
  intros Hm. revert ids. induction tl as [|tcall tl IH]; intros ids; simpl.
  { by rewrite union_empty_l_L. }
  unfold pass_B_step at 1.
  case_bool_decide as Hin.
  - rewrite IH. by rewrite !mark_absorb.
  - destruct (is_bust tcall (_rcall qso)); simpl; [|apply IH].
    rewrite is_stn_running_spec by done. simpl. rewrite IH. f_equal.
    destruct (running_entrant _ _ _ _ _ _); simpl; [|done].
    rewrite mark_absorb; [done|].
    apply elem_of_union. left. by apply elem_of_singleton.
Qed.

Lemma pass_B_spec (pruned_vec : list small_qso) :
  (forall q, q ∈ pruned_vec -> 0 <= _rel_mins q <= max_rel_mins) ->
  pass_B all_qsos_this_band calls_with_no_freq_info calls_with_poor_freq_info
         max_rel_mins (tcalls all_qsos_this_band) all_vec
         (time_map_entries all_vec max_rel_mins) pruned_vec
  = Some (erase_ids (list_to_set (map _id (filter (fun q => marked q = true) pruned_vec)))
                    pruned_vec).
Proof.
  intros Hvec. unfold pass_B.
  rewrite (foldlM_union _ (mark marked)).
  2:{ intros ids q Hq. by apply pass_B_inner, Hvec. }
  simpl. do 2 f_equal.
  apply set_eq. intros i.
  rewrite <- elem_of_marks, elem_of_union, elem_of_empty. tauto.
Qed.

End PassB.

(** ** The third pass as a filter *)

Lemma existsb_ext_elem {A} (f g : A -> bool) (l l' : list A) :
  (forall x, (x ∈ l /\ f x = true) <-> (x ∈ l' /\ g x = true)) ->
  existsb f l = existsb g l'.
Proof.
  intros H. apply Bool.eq_iff_eq_true. rewrite !existsb_exists.
  split; intros (x & Hx & Hf); exists x; rewrite <- list_elem_of_In in *;
    by apply H.
Qed.

Lemma foldl_union {A} (f : gset Z -> A -> gset Z) (S : A -> gset Z)
    (l : list A) (ids : gset Z) :
  (forall ids x, x ∈ l -> f ids x = S x ∪ ids) ->
  foldl f ids l = ⋃ (S <$> l) ∪ ids.
Proof.
  revert ids. induction l as [|x l IH]; intros ids Hf; simpl.
  { by rewrite union_empty_l_L. }
  rewrite (Hf ids x) by apply list_elem_of_here.
  rewrite IH by (intros ids' y Hy; apply Hf; by apply list_elem_of_further).
  by rewrite union_rotate.
Qed.

Lemma elem_of_rcall_logs_fold (vec : list small_qso) (c : callsign) (q : small_qso) :
  q ∈ default [] (foldl (fun rcall_logs qso =>
             <[_rcall qso := default [] (rcall_logs !! _rcall qso) ++ [qso]]>
               rcall_logs) (∅ : gmap callsign (list small_qso)) vec !! c) <->
  q ∈ vec /\ _rcall q = c.
Proof.
  induction vec as [|x vec IH] using rev_ind.
  { simpl. rewrite lookup_empty. simpl. rewrite !elem_of_nil. tauto. }
  rewrite foldl_snoc, elem_of_app, list_elem_of_singleton.
  destruct (decide (_rcall x = c)) as [<-|Hne].
  - rewrite lookup_insert_eq. simpl. rewrite elem_of_app, list_elem_of_singleton, IH.
    split; [intros [[H1 H2]| ->]; auto | intros [[H| ->] H2]; auto].
  - rewrite lookup_insert_ne by done. rewrite IH.
    split; [intros [H1 H2]; auto | intros [[H| ->] H2]; [auto | done]].
Qed.

Lemma elem_of_build_rcall_logs (vec : list small_qso) (c : callsign) (q : small_qso) :
  q ∈ default [] (build_rcall_logs vec !! c) <-> q ∈ vec /\ _rcall q = c.
Proof.
  unfold build_rcall_logs. rewrite lookup_fmap.
  rewrite <- elem_of_rcall_logs_fold.
  destruct (foldl _ _ _ !! c) as [log|]; simpl; [apply elem_of_SORT | done].
Qed.

Lemma elem_of_log_of_rcall_and_busts (rcall_logs : gmap callsign (list small_qso))
    (busts : list callsign) (log : list small_qso) (q : small_qso) :
  q ∈ foldl (fun log rcall_bust => log ++ default [] (rcall_logs !! rcall_bust))
            log busts <->
  q ∈ log \/ exists b, b ∈ busts /\ q ∈ default [] (rcall_logs !! b).
Proof.
  revert log. induction busts as [|b busts IH]; intros log; simpl.
  { split; [by left|]. intros [H|(b & Hb & _)]; [done|]. by apply elem_of_nil in Hb. }
  rewrite IH, elem_of_app. split.
  - intros [[H|H]|(b' & Hb' & H)]; [by left|right..].
    + exists b. split; [apply list_elem_of_here | done].
    + exists b'. split; [by apply list_elem_of_further | done].
  - intros [H|(b' & Hb' & H)]; [by left; left|].
    apply elem_of_cons in Hb' as [->|Hb']; [by left; right|].
    right. by exists b'.
Qed.

Lemma SORT_by_rel_mins (v : list small_qso) :
  rel_mins_monotone v -> StronglySorted by_rel_mins (SORT v).
Proof.
  intros Hmono.
  assert (forall q, q ∈ SORT v -> q ∈ v) as Hin by (intros q; apply elem_of_SORT).
  pose proof (SORT_sorted v) as Hs. revert Hin.
  induction Hs as [|x l Hs IH Hall]; intros Hin; [constructor|].
  constructor.
  - apply IH. intros q Hq. apply Hin. by apply list_elem_of_further.
  - apply Forall_forall. intros y Hy.
    apply Hmono.
    + apply Hin, list_elem_of_here.
    + apply Hin. by apply list_elem_of_further.
    + by apply (proj1 (Forall_forall _ _) Hall).
Qed.

Lemma rcall_histogram_is_Some (vec : list small_qso) (c : callsign) :
  is_Some (rcall_histogram vec !! c) <-> exists q, q ∈ vec /\ _rcall q = c.
Proof.
  unfold rcall_histogram.
  induction vec as [|x vec IH] using rev_ind.
  { simpl. rewrite lookup_empty. split; [by intros [? ?]|].
    intros (q & Hq & _). by apply elem_of_nil in Hq. }
  rewrite foldl_snoc. unfold count_values_add at 1.
  rewrite lookup_insert_is_Some', IH. split.
  - intros [<-|(q & Hq & Hc)].
    + exists x. split; [|done]. apply elem_of_app. right. apply list_elem_of_here.
    + exists q. split; [|done]. apply elem_of_app. by left.
  - intros (q & Hq & Hc). apply elem_of_app in Hq as [Hq|Hq].
    + right. by exists q.
    + apply list_elem_of_singleton in Hq as ->. by left.
Qed.

Lemma elem_of_inv_histogram_order (histogram : gmap callsign Z) (c : callsign) :
  c ∈ inv_histogram_order histogram <-> is_Some (histogram !! c).
Proof.
  unfold inv_histogram_order. rewrite list_elem_of_fmap. split.
  - intros ([c' n] & -> & Hin). rewrite merge_sort_Permutation in Hin.
    apply elem_of_map_to_list in Hin. by exists n.
  - intros [n Hn]. exists (c, n). split; [done|].
    rewrite merge_sort_Permutation. by apply elem_of_map_to_list.
Qed.

Section PassC.

Variable calls_with_no_freq_info calls_with_poor_freq_info : gset callsign.
Variable max_rel_mins : Z.
Variable pruned_vec : list small_qso.

Hypothesis pruned_monotone : rel_mins_monotone pruned_vec.
Hypothesis pruned_in_contest :
  forall q, q ∈ pruned_vec -> 0 <= _rel_mins q <= max_rel_mins.

Local Abbreviation marked :=
  (marked_C calls_with_no_freq_info calls_with_poor_freq_info pruned_vec).
Local Abbreviation rcall_logs := (build_rcall_logs pruned_vec).
Local Abbreviation busts :=
  (possible_busts (list_to_set (map _rcall pruned_vec))).

Lemma pass_C_rcall_spec (ids : gset Z) (rcall : callsign) :
  pass_C_rcall calls_with_no_freq_info calls_with_poor_freq_info max_rel_mins
               rcall_logs busts ids rcall
  = ⋃ (mark marked <$> default [] (rcall_logs !! rcall)) ∪ ids.
Proof.
  unfold pass_C_rcall.
  set (log := SORT (foldl _ _ _)).
  assert (forall q, q ∈ log <->
            q ∈ pruned_vec /\
            (_rcall q = rcall \/ _rcall q ∈ default ∅ (busts !! rcall))) as Hlog.
  { intros q. unfold log. rewrite elem_of_SORT, elem_of_log_of_rcall_and_busts.
    rewrite elem_of_build_rcall_logs. split.
    - intros [[H1 H2]|(b & Hb & H)]; [by auto|].
      apply elem_of_build_rcall_logs in H as [H1 H2].
      apply elem_of_elements in Hb. subst b. auto.
    - intros [H1 [H2|H2]]; [by left|right].
      exists (_rcall q). split; [by apply elem_of_elements|].
      by apply elem_of_build_rcall_logs. }
  assert (StronglySorted by_rel_mins log) as Hsorted.
  { apply SORT_by_rel_mins. intros a b Ha Hb.
    assert (forall q, q ∈ foldl (fun log rcall_bust =>
                 log ++ default [] (rcall_logs !! rcall_bust))
               (default [] (rcall_logs !! rcall))
               (elements (default ∅ (busts !! rcall))) -> q ∈ pruned_vec) as Hsub.
    { intros q Hq. apply elem_of_SORT in Hq. by apply Hlog in Hq as [Hq _]. }
    apply pruned_monotone; by apply Hsub. }
  apply foldl_union. intros ids' rqso Hr.
  apply elem_of_build_rcall_logs in Hr as [Hr Hrc].
  pose proof (get_bounds_sorted (_rel_mins rqso) 0 max_rel_mins RUN_TIME_RANGE
                log Hsorted) as Hb.
  destruct (get_bounds _ _ _ _ _) as [lb ub]. destruct Hb as [_ Hb].
  rewrite Hb.
  assert (existsb (fun qso => if bool_decide (_rcall qso = rcall) then false
                              else frequency_match calls_with_no_freq_info
                                     calls_with_poor_freq_info qso rqso false)
            (filter (fun q => Z.max (_rel_mins rqso - RUN_TIME_RANGE) 0
                              <= _rel_mins q <=
                              Z.min (_rel_mins rqso + RUN_TIME_RANGE) max_rel_mins)
                    log)
          = marked rqso) as ->.
  { unfold marked_C. apply existsb_ext_elem. intros q.
    rewrite !list_elem_of_filter, Hlog, andb_true_iff.
    rewrite possible_busts_spec, !elem_of_list_to_set, !list_elem_of_fmap.
    pose proof (pruned_in_contest rqso Hr) as Hrm.
    unfold minutes_apart, RUN_TIME_RANGE. rewrite Hrc.
    split.
    - intros [[Hwin [Hq [Heq|(_ & _ & Hbust)]]] Hf].
      + by rewrite bool_decide_true in Hf.
      + case_bool_decide as Hne; [done|].
        pose proof (pruned_in_contest q Hq). split; [split; [lia | done] | done].
    - intros [[Hwin Hq] [Hbust Hf]].
      pose proof (pruned_in_contest q Hq).
      assert (_rcall q <> rcall) as Hne.
      { intros Heq. rewrite Heq, is_bust_irreflexive in Hbust. done. }
      rewrite bool_decide_false by done. split; [|done].
      split; [lia|]. split; [done|]. right.
      split; [by exists rqso|]. split; [by exists q | done]. }
  unfold mark. by rewrite union_mark.
Qed.

Lemma pass_C_order (order : list callsign) :
  (forall c, (exists q, q ∈ pruned_vec /\ _rcall q = c) -> c ∈ order) ->
  foldl (pass_C_rcall calls_with_no_freq_info calls_with_poor_freq_info
           max_rel_mins rcall_logs busts) ∅ order
  = list_to_set (map _id (filter (fun q => marked q = true) pruned_vec)).
Proof.
  intros Horder.
  rewrite (foldl_union _ (fun rcall =>
             ⋃ (mark marked <$> default [] (rcall_logs !! rcall))))
    by (intros ids c _; apply pass_C_rcall_spec).
  apply set_eq. intros i.
  rewrite <- elem_of_marks, elem_of_union, !elem_of_union_list.
  split.
  - intros [(X & HX & Hi)|Hi]; [|by apply elem_of_empty in Hi].
    apply list_elem_of_fmap in HX as (c & -> & Hc).
    apply elem_of_union_list in Hi as (Y & HY & Hi).
    apply list_elem_of_fmap in HY as (q & -> & Hq).
    apply elem_of_build_rcall_logs in Hq as [Hq _].
    exists (mark marked q). split; [|done].
    apply list_elem_of_fmap. by exists q.
  - intros (Y & HY & Hi). apply list_elem_of_fmap in HY as (q & -> & Hq).
    left. eexists. split.
    + apply list_elem_of_fmap. exists (_rcall q). split; [done|].
      apply Horder. by exists q.
    + apply elem_of_union_list. exists (mark marked q). split; [|done].
      apply list_elem_of_fmap. exists q. split; [done|].
      by apply elem_of_build_rcall_logs.
Qed.

Lemma pass_C_spec :
  pass_C calls_with_no_freq_info calls_with_poor_freq_info max_rel_mins pruned_vec
  = erase_ids (list_to_set (map _id (filter (fun q => marked q = true) pruned_vec)))
              pruned_vec.
Proof.
  unfold pass_C. f_equal. apply pass_C_order.
  intros c Hc. by apply elem_of_inv_histogram_order, rcall_histogram_is_Some.
Qed.

End PassC.

(** ** The three passes on the logs of a band *)

Lemma StronglySorted_filter {A} (R : A -> A -> Prop) (P : A -> Prop)
    `{!forall x, Decision (P x)} (l : list A) :
  StronglySorted R l -> StronglySorted R (filter P l).
Proof.
  induction 1 as [|x l Hs IH Hall]; [constructor|].
  rewrite filter_cons. destruct (decide (P x)); [|done].
  constructor; [done|].
  apply Forall_forall. intros y Hy. apply list_elem_of_filter in Hy as [_ Hy].
  by apply (proj1 (Forall_forall _ _) Hall).
Qed.

Lemma in_contest_monotone (start max_rel_mins : Z) (vec : list small_qso) :
  (forall q, q ∈ vec -> in_contest_qso start max_rel_mins q) ->
  rel_mins_monotone vec.
Proof.
  intros Hvec a b Ha Hb Hab.
  destruct (Hvec a Ha) as [-> _]. destruct (Hvec b Hb) as [-> _].
  apply Z.div_le_mono; lia.
Qed.

Lemma elem_of_remove_marked (marked : small_qso -> bool) (vec : list small_qso)
    (q : small_qso) :
  q ∈ remove_marked marked vec -> q ∈ vec.
Proof. unfold remove_marked, erase_ids. by intros [_ H]%list_elem_of_filter. Qed.

Lemma remove_marked_NoDup (marked : small_qso -> bool) (vec : list small_qso) :
  NoDup (map _id vec) ->
  remove_marked marked vec = filter (fun q => marked q = false) vec.
Proof.
  intros Hnd. unfold remove_marked, erase_ids.
  apply filter_ext_in. intros q Hq.
  rewrite elem_of_list_to_set, list_elem_of_fmap. split.
  - intros Hno. destruct (marked q) eqn:Hm; [|done].
    exfalso. apply Hno. exists q. split; [done|]. by apply list_elem_of_filter.
  - intros Hm (q' & Hid & Hq'). apply list_elem_of_filter in Hq' as [Hm' Hq'].
    assert (q' = q) as ->; [|congruence].
    apply list_elem_of_lookup in Hq as [i Hi]. apply list_elem_of_lookup in Hq' as [j Hj].
    assert (i = j) as ->; [|congruence].
    eapply NoDup_lookup; [exact Hnd|..]; rewrite list_lookup_fmap.
    + by rewrite Hi.
    + rewrite Hj. simpl. by rewrite Hid.
Qed.

Lemma elem_of_concat {A} (ls : list (list A)) (x : A) :
  x ∈ concat ls <-> exists l, x ∈ l /\ l ∈ ls.
Proof.
  induction ls as [|l ls IH]; simpl.
  { split; [by intros H%elem_of_nil | by intros (l & _ & H%elem_of_nil)]. }
  rewrite elem_of_app, IH. split.
  - intros [H|(l' & Hx & Hl')].
    + exists l. split; [done | apply list_elem_of_here].
    + exists l'. split; [done | by apply list_elem_of_further].
  - intros (l' & Hx & Hl'). apply elem_of_cons in Hl' as [->|Hl']; [by left|].
    right. by exists l'.
Qed.

Lemma elem_of_build_vec (m : gmap callsign (list small_qso)) (q : small_qso) :
  q ∈ build_vec m <-> exists call log, m !! call = Some log /\ q ∈ log.
Proof.
  unfold build_vec. rewrite elem_of_SORT, elem_of_concat. split.
  - intros (log & Hq & Hlog). apply list_elem_of_fmap in Hlog as ([call log'] & -> & Hin).
    apply elem_of_map_to_list in Hin. by exists call, log'.
  - intros (call & log & Hl & Hq). exists log. split; [done|].
    apply list_elem_of_fmap. exists (call, log). split; [done|].
    by apply elem_of_map_to_list.
Qed.

Section BandSpec.

Variable opts : options.
Variable pruned_qsos_this_band all_qsos_this_band : gmap callsign (list small_qso).
Variable calls_with_no_freq_info calls_with_poor_freq_info : gset callsign.
Variable start max_rel_mins : Z.

Hypothesis all_logs : band_logs start max_rel_mins all_qsos_this_band.
Hypothesis pruned_logs : band_logs start max_rel_mins pruned_qsos_this_band.
Hypothesis all_not_empty : build_vec all_qsos_this_band <> [].
Hypothesis pruned_not_empty : build_vec pruned_qsos_this_band <> [].

Lemma band_logs_build_vec (m : gmap callsign (list small_qso)) (q : small_qso) :
  band_logs start max_rel_mins m -> q ∈ build_vec m ->
  in_contest_qso start max_rel_mins q.
Proof.
  intros Hm (call & log & Hl & Hq)%elem_of_build_vec.
  destruct (Hm call log Hl) as [_ HF].
  by apply (proj1 (Forall_forall _ _) HF).
Qed.

Lemma band_logs_sorted (m : gmap callsign (list small_qso)) :
  band_logs start max_rel_mins m -> StronglySorted by_rel_mins (build_vec m).
Proof.
  intros Hm. apply SORT_by_rel_mins.
  apply (in_contest_monotone start max_rel_mins).
  intros q Hq. apply (band_logs_build_vec m); [done|].
  unfold build_vec. by apply elem_of_SORT.
Qed.

Lemma pruned_before_cutoff_spec :
  pruned_before_cutoff pruned_qsos_this_band all_qsos_this_band
    calls_with_no_freq_info calls_with_poor_freq_info max_rel_mins
  = Some (prune_band calls_with_no_freq_info calls_with_poor_freq_info
                     pruned_qsos_this_band all_qsos_this_band).
Proof.
  unfold pruned_before_cutoff, prune_band.
  assert (forall q, q ∈ build_vec all_qsos_this_band ->
                    0 <= _rel_mins q <= max_rel_mins) as Hall.
  { intros q Hq. by destruct (band_logs_build_vec _ q all_logs Hq). }
  assert (forall q, q ∈ build_vec pruned_qsos_this_band ->
                    in_contest_qso start max_rel_mins q) as Hpr.
  { intros q Hq. by apply (band_logs_build_vec _ q pruned_logs Hq). }
  assert (0 <= max_rel_mins) as Hmax.
  { destruct (build_vec all_qsos_this_band) as [|q l] eqn:Hl; [done|].
    pose proof (Hall q (list_elem_of_here _ _)). lia. }
  rewrite (time_map_Some (build_vec all_qsos_this_band) max_rel_mins)
    by (done || lia).
  simpl.
  rewrite pass_A_spec; try done.
  2:{ by apply band_logs_sorted. }
  2:{ by apply band_logs_sorted. }
  2:{ intros q Hq. by destruct (Hpr q Hq). }
  simpl. fold (remove_marked
                 (marked_A calls_with_no_freq_info calls_with_poor_freq_info
                           (build_vec all_qsos_this_band))
                 (build_vec pruned_qsos_this_band)).
  set (vecA := remove_marked _ _).
  assert (forall q, q ∈ vecA -> in_contest_qso start max_rel_mins q) as HvecA.
  { intros q Hq. by apply Hpr, (elem_of_remove_marked _ _ _ Hq). }
  rewrite pass_B_spec; try done.
  2:{ by apply band_logs_sorted. }
  2:{ intros call log Hlog. destruct (all_logs call log Hlog) as [Hs HF].
      eapply (chronological_by_rel_mins start); [|done].
      eapply Forall_impl; [exact HF|]. by intros q [? _]. }
  2:{ intros call log q Hlog Hq. destruct (all_logs call log Hlog) as [_ HF].
      by destruct (proj1 (Forall_forall _ _) HF q Hq). }
  2:{ intros q Hq. by destruct (HvecA q Hq). }
  simpl. fold (remove_marked
                 (marked_B all_qsos_this_band calls_with_no_freq_info
                           calls_with_poor_freq_info
                           (build_vec all_qsos_this_band)) vecA).
  set (vecB := remove_marked _ vecA).
  assert (forall q, q ∈ vecB -> in_contest_qso start max_rel_mins q) as HvecB.
  { intros q Hq. by apply HvecA, (elem_of_remove_marked _ _ _ Hq). }
  rewrite (pass_C_spec _ _ max_rel_mins); [done|..].
  - by apply (in_contest_monotone start max_rel_mins).
  - intros q Hq. by destruct (HvecB q Hq).
Qed.

Lemma process_band_spec :
  process_band opts pruned_qsos_this_band all_qsos_this_band
    calls_with_no_freq_info calls_with_poor_freq_info max_rel_mins
  = Some (local_scp_calls
            (pass_D opts
               (prune_band calls_with_no_freq_info calls_with_poor_freq_info
                           pruned_qsos_this_band all_qsos_this_band))).
Proof. unfold process_band. by rewrite pruned_before_cutoff_spec. Qed.

End BandSpec.

(** ** The minilogs *)

Lemma build_minilog_step (rv : gmap HF_BAND (gmap callsign (list small_qso)))
    (qso : small_qso) (b : HF_BAND) (c : callsign) :
  minilog_of (<[_band qso :=
                  <[_tcall qso := default [] (default ∅ (rv !! _band qso) !! _tcall qso)
                                  ++ [qso]]>
                    (default ∅ (rv !! _band qso))]> rv) b c =
  minilog_of rv b c ++ filter (fun q => _band q = b /\ _tcall q = c) [qso].
Proof.
  unfold minilog_of. rewrite filter_cons, filter_nil.
  destruct (decide (_band qso = b)) as [Hb|Hb].
  - subst b. rewrite lookup_insert_eq. simpl.
    destruct (decide (_tcall qso = c)) as [Hc|Hc].
    + subst c. rewrite lookup_insert_eq. simpl. by rewrite decide_True.
    + rewrite lookup_insert_ne by done. rewrite decide_False by tauto.
      by rewrite app_nil_r.
  - rewrite lookup_insert_ne by done. rewrite decide_False by tauto.
    by rewrite app_nil_r.
Qed.

Lemma build_minilog_fold (l : list small_qso)
    (rv : gmap HF_BAND (gmap callsign (list small_qso))) (b : HF_BAND) (c : callsign) :
  minilog_of (foldl (fun rv qso =>
           let minilog := default ∅ (rv !! _band qso) in
           <[_band qso :=
               <[_tcall qso := default [] (minilog !! _tcall qso) ++ [qso]]>
                 minilog]> rv) rv l) b c =
  minilog_of rv b c ++ filter (fun q => _band q = b /\ _tcall q = c) l.
Proof.
  revert rv. induction l as [|q l IH]; intros rv; simpl.
  { by rewrite app_nil_r. }
  rewrite IH. cbv zeta. rewrite build_minilog_step.
  rewrite <- app_assoc. f_equal.
  rewrite (filter_cons _ q l), filter_cons, filter_nil.
  by destruct (decide _).
Qed.

Lemma build_minilog_inhabited (m : gmap callsign (list small_qso)) :
  minilogs_inhabited (build_minilog m).
Proof.
  unfold build_minilog.
  generalize (concat (map snd (map_to_list m))) as l. intros l.
  assert (minilogs_inhabited ∅) as H0 by apply map_Forall_empty.
  revert H0. generalize (∅ : gmap HF_BAND (gmap callsign (list small_qso))) as rv.
  induction l as [|q l IH]; intros rv Hrv; [done|].
  simpl. apply IH. apply map_Forall_insert_2; [|done]. split.
  - apply insert_non_empty.
  - apply map_Forall_insert_2; [by destruct (default [] _)|].
    destruct (rv !! _band q) as [ml|] eqn:Hml; simpl.
    + by destruct (Hrv _ _ Hml).
    + apply map_Forall_empty.
Qed.

Lemma filter_keyed_other (P : small_qso -> Prop) `{!forall q, Decision (P q)}
    (k c : callsign) (qsos : list small_qso) :
  Forall (fun q => _tcall q = k) qsos -> k <> c ->
  filter (fun q => P q /\ _tcall q = c) qsos = [].
Proof.
  intros HF Hne. induction HF as [|q qsos Hq _ IH]; [done|].
  rewrite filter_cons, IH. rewrite decide_False; [done|]. intros [_ ?]. congruence.
Qed.

Lemma filter_concat_absent (P : small_qso -> Prop) `{!forall q, Decision (P q)}
    (L : list (callsign * list small_qso)) (c : callsign) :
  Forall (fun pr => Forall (fun q => _tcall q = pr.1) pr.2) L ->
  c ∉ L.*1 ->
  filter (fun q => P q /\ _tcall q = c) (concat (map snd L)) = [].
Proof.
  intros HF Hc. induction HF as [|[k qsos] L Hq _ IH]; [done|].
  simpl in *. rewrite filter_app.
  rewrite (filter_keyed_other P k c qsos Hq).
  - apply IH. intros Hin. apply Hc. by apply list_elem_of_further.
  - intros ->. apply Hc. apply list_elem_of_here.
Qed.

Lemma filter_concat_present (P : small_qso -> Prop) `{!forall q, Decision (P q)}
    (L : list (callsign * list small_qso)) (c : callsign) (v : list small_qso) :
  NoDup L.*1 ->
  Forall (fun pr => Forall (fun q => _tcall q = pr.1) pr.2) L ->
  (c, v) ∈ L ->
  filter (fun q => P q /\ _tcall q = c) (concat (map snd L)) = filter P v.
Proof.
  intros Hnd HF Hin. induction HF as [|[k qsos] L Hq HF IH]; [by apply elem_of_nil in Hin|].
  simpl in *. apply NoDup_cons in Hnd as [Hk Hnd]. rewrite filter_app.
  apply elem_of_cons in Hin as [[= <- <-]|Hin].
  - rewrite (filter_concat_absent P L c HF Hk), app_nil_r.
    apply filter_ext_in. intros q Hq'.
    pose proof (proj1 (Forall_forall _ _) Hq q Hq'). tauto.
  - rewrite (filter_keyed_other P k c qsos Hq), IH; [done..|].
    intros ->. apply Hk. apply list_elem_of_fmap. by exists (c, v).
Qed.

Lemma build_minilog_lookup (m : gmap callsign (list small_qso))
    (b : HF_BAND) (c : callsign) :
  keyed_by_tcall m ->
  minilog_of (build_minilog m) b c =
  filter (fun q => _band q = b) (default [] (m !! c)).
Proof.
  intros Hkey. unfold build_minilog. rewrite build_minilog_fold.
  unfold minilog_of at 1. rewrite lookup_empty. simpl. rewrite lookup_empty. simpl.
  assert (Forall (fun pr : callsign * list small_qso =>
                    Forall (fun q => _tcall q = pr.1) pr.2) (map_to_list m)) as HF.
  { apply Forall_forall. intros [k v] Hin. apply elem_of_map_to_list in Hin.
    by apply (Hkey k v). }
  destruct (m !! c) as [v|] eqn:Hc; simpl.
  - apply filter_concat_present; [apply NoDup_fst_map_to_list | done |].
    by apply elem_of_map_to_list.
  - rewrite filter_nil. apply filter_concat_absent; [done|].
    intros Hin. apply list_elem_of_fmap in Hin as ([k v] & -> & Hin).
    apply elem_of_map_to_list in Hin. simpl in Hc. congruence.
Qed.

(** ** [calls_with_unreliable_freq] returns *)

Lemma foldlM_inv {A B} (P : B -> Prop) (f : B -> A -> option B) (l : list A) (b : B) :
  P b ->
  (forall b x, x ∈ l -> P b -> exists b', f b x = Some b' /\ P b') ->
  exists b', foldlM f b l = Some b' /\ P b'.
Proof.
  revert b. induction l as [|x l IH]; intros b Hb Hf; simpl; [by exists b|].
  destruct (Hf b x (list_elem_of_here _ _) Hb) as (b' & -> & Hb').
  apply IH; [done|]. intros b'' y Hy. apply Hf. by apply list_elem_of_further.
Qed.

Section Unreliable.

Variable all_qsos : gmap callsign (list small_qso).
Variable calls_with_no_freq_info : gset callsign.

Hypothesis all_valid :
  map_Forall (fun _ qsos => Forall valid_frequency qsos) all_qsos.

Lemma worked_by_returns (qsos : list small_qso) :
  Forall valid_frequency qsos ->
  exists w, worked_by all_qsos calls_with_no_freq_info qsos = Some w /\
            forall rcall, is_Some (w !! rcall) -> peer all_qsos calls_with_no_freq_info rcall.
Proof.
  intros Hq. unfold worked_by.
  apply (foldlM_inv (fun w : gmap callsign (list BAND_TIME_FREQ) =>
                       forall rcall, is_Some (w !! rcall) -> peer all_qsos calls_with_no_freq_info rcall)).
  { intros rcall. rewrite lookup_empty. by intros [? ?]. }
  intros w qso Hin Hw.
  destruct (negb _ && _) eqn:Hc; [|by exists w].
  apply andb_true_iff in Hc as [Hc1 Hc2].
  apply negb_true_iff, bool_decide_eq_false in Hc1.
  apply bool_decide_eq_true in Hc2.
  destruct (proj1 (Forall_forall _ _) Hq qso Hin) as [band ->]. simpl.
  eexists. split; [done|].
  intros rcall [<-|H]%lookup_insert_is_Some'; [by split | by apply Hw].
Qed.

Lemma build_worked_loop (l : list (callsign * list small_qso))
    (worked0 : gmap callsign (gmap callsign (list BAND_TIME_FREQ))) :
  (forall pr, pr ∈ l -> all_qsos !! pr.1 = Some pr.2) ->
  (forall tcall w rcall, worked0 !! tcall = Some w -> is_Some (w !! rcall) ->
                         peer all_qsos calls_with_no_freq_info rcall) ->
  exists worked,
    foldlM (fun worked '(tcall, qsos) =>
              if negb (bool_decide (tcall ∈ calls_with_no_freq_info))
              then
                worked_by_this_tcall ← worked_by all_qsos calls_with_no_freq_info qsos;
                Some (<[tcall := worked_by_this_tcall]> worked)
              else Some worked) worked0 l = Some worked /\
    (forall tcall, is_Some (worked !! tcall) <->
       is_Some (worked0 !! tcall) \/
       ((tcall ∉ calls_with_no_freq_info) /\ tcall ∈ l.*1)) /\
    (forall tcall w rcall, worked !! tcall = Some w -> is_Some (w !! rcall) ->
                           peer all_qsos calls_with_no_freq_info rcall).
Proof.
  revert worked0.
  induction l as [|[tcall qsos] l IH]; intros worked0 Hl H0; simpl.
  { exists worked0. split; [done|]. split; [|done].
    intros t. split; [by left|]. intros [H|[_ H]]; [done|]. by apply elem_of_nil in H. }
  assert (Forall valid_frequency qsos) as Hq.
  { apply (all_valid tcall). apply (Hl (tcall, qsos)), list_elem_of_here. }
  case_bool_decide as Hno; simpl.
  - destruct (IH worked0 (fun pr Hpr => Hl pr (list_elem_of_further _ _ _ Hpr)) H0)
      as (worked & -> & Hkeys & Hvals).
    exists worked. split; [done|]. split; [|done].
    intros t. rewrite Hkeys, elem_of_cons. split.
    + intros [H|[H1 H2]]; [by left | right; auto].
    + intros [H|[H1 [->|H2]]]; [by left | done | right; auto].
  - destruct (worked_by_returns qsos Hq) as (w & -> & Hw). simpl.
    destruct (IH (<[tcall := w]> worked0)
                 (fun pr Hpr => Hl pr (list_elem_of_further _ _ _ Hpr)))
      as (worked & -> & Hkeys & Hvals).
    { intros t w' rcall Ht. apply lookup_insert_Some in Ht as [[<- <-]|[_ Ht]].
      - apply Hw.
      - by apply (H0 t). }
    exists worked. split; [done|]. split; [|done].
    intros t. rewrite Hkeys, lookup_insert_is_Some', elem_of_cons. split.
    + intros [[->|H]|[H1 H2]]; [right; auto | by left | right; auto].
    + intros [H|[H1 [->|H2]]]; [left; by right | left; by left | right; auto].
Qed.

Lemma build_worked_returns :
  exists worked,
    build_worked all_qsos calls_with_no_freq_info = Some worked /\
    (forall tcall, is_Some (worked !! tcall) <->
                   (tcall ∉ calls_with_no_freq_info) /\ is_Some (all_qsos !! tcall)) /\
    (forall tcall w rcall, worked !! tcall = Some w -> is_Some (w !! rcall) ->
                           peer all_qsos calls_with_no_freq_info rcall).
Proof.
  unfold build_worked.
  destruct (build_worked_loop (map_to_list all_qsos) ∅)
    as (worked & Hw & Hkeys & Hvals).
  { intros [k v] Hin. by apply elem_of_map_to_list. }
  { intros tcall w rcall. by rewrite lookup_empty. }
  exists worked. split; [done|]. split; [|done].
  intros t. rewrite Hkeys, lookup_empty. split.
  - intros [[? ?]|[H1 H2]]; [done|]. split; [done|].
    apply list_elem_of_fmap in H2 as ([k v] & -> & Hin).
    apply elem_of_map_to_list in Hin. by eexists.
  - intros [H1 [v Hv]]. right. split; [done|].
    apply list_elem_of_fmap. exists (t, v). split; [done|].
    by apply elem_of_map_to_list.
Qed.

Lemma accumulate_counts_returns
    (worked : gmap callsign (gmap callsign (list BAND_TIME_FREQ)))
    (tcall : callsign) (rcall_map : gmap callsign (list BAND_TIME_FREQ)) :
  (forall rcall, is_Some (rcall_map !! rcall) -> is_Some (worked !! rcall)) ->
  is_Some (accumulate_counts worked tcall rcall_map).
Proof.
  intros Hkeys. unfold accumulate_counts.
  apply foldlM_is_Some. intros tg [rcall btf_vec] Hin.
  apply elem_of_map_to_list in Hin.
  apply foldlM_is_Some. intros tg' [[tband ttime] tfreq] _.
  destruct (Hkeys rcall) as [rw ->]; [by eexists|]. simpl. by eexists.
Qed.

Lemma calls_with_unreliable_freq_returns :
  exists poor,
    calls_with_unreliable_freq all_qsos calls_with_no_freq_info = Some poor /\
    forall call, call ∈ poor ->
      (call ∉ calls_with_no_freq_info) /\ is_Some (all_qsos !! call).
Proof.
  unfold calls_with_unreliable_freq.
  destruct build_worked_returns as (worked & -> & Hkeys & Hvals). simpl.
  destruct (foldlM_inv
              (fun acc : gmap callsign (Z * Z) =>
                 forall call, is_Some (acc !! call) -> is_Some (worked !! call))
              (fun accumulated_counts '(tcall, rcall_map) =>
                 total_good ← accumulate_counts worked tcall rcall_map;
                 Some (<[tcall := total_good]> accumulated_counts))
              (map_to_list worked) ∅) as (acc & -> & Hacc).
  { intros call. rewrite lookup_empty. by intros [? ?]. }
  { intros acc [tcall rcall_map] Hin Hacc.
    apply elem_of_map_to_list in Hin.
    destruct (accumulate_counts_returns worked tcall rcall_map) as [tg ->].
    { intros rcall Hr. apply Hkeys. by apply (Hvals tcall rcall_map rcall). }
    simpl. eexists. split; [done|].
    intros call [->|H]%lookup_insert_is_Some'; [by eexists | by apply Hacc]. }
  simpl. eexists. split; [done|].
  intros call Hcall. apply elem_of_dom in Hcall as [tg Htg].
  apply map_lookup_filter_Some in Htg as [Htg _].
  apply Hkeys, Hacc. by eexists.
Qed.

End Unreliable.

(** ** The logs that [process_directory] hands on *)

Lemma accept_qso_fields (cp : contest_parameters) (qso qso' : small_qso) :
  accept_qso cp qso = Some qso' ->
  _qrg qso' = _qrg qso /\ _band qso' = _band qso /\ _id qso' = _id qso /\
  _tcall qso <> [].
Proof.
  unfold accept_qso.
  destruct (in_contest_period cp (_time qso)); [|done]. cbn [negb].
  case_bool_decide as Hempty; [done|].
  repeat (case_match; try done).
  by intros [= <-].
Qed.

Section Pipeline.

Variable opts : options.
Variable dir : callsign.
Variable start hrs : Z.
Variable logs : list (list small_qso).

Hypothesis hours_fit : 0 < hrs <= 596523.
Hypothesis logs_constructed : Forall (Forall constructed) logs.

Local Abbreviation cp := (make_contest_parameters dir start hrs).
Local Abbreviation st := (ingest opts cp logs).
Local Abbreviation max_rel_mins := (hrs * 60 - 1).

Lemma ingested_logs :
  map_Forall (fun tcall qsos =>
                qsos <> [] /\
                Forall (fun q => stored_qso cp tcall q /\ valid_frequency q) qsos)
             (all_qsos st).
Proof.
  apply (ingest_Forall_key
           (fun tcall q => stored_qso cp tcall q /\ valid_frequency q)).
  intros log qso qso' Hlog Hqso Hacc. split; [by eapply accept_qso_stored|].
  apply accept_qso_fields in Hacc as (Hqrg & _ & _ & Hne).
  pose proof (proj1 (Forall_forall _ _) logs_constructed log Hlog) as Hl.
  destruct (proj1 (Forall_forall _ _) Hl qso Hqso) as [Hempty|Hvalid]; [done|].
  unfold valid_frequency in *. by rewrite Hqrg.
Qed.

Lemma sorted_logs (tcall : callsign) (qsos : list small_qso) :
  (SORT <$> all_qsos st) !! tcall = Some qsos ->
  qsos <> [] /\ StronglySorted chronological qsos /\
  Forall (fun q => _tcall q = tcall /\ in_contest_qso start max_rel_mins q /\
                   valid_frequency q) qsos.
Proof.
  intros Hl. apply lookup_fmap_Some in Hl as (qsos' & <- & Hl).
  destruct (ingested_logs tcall qsos' Hl) as [Hne HF].
  split.
  { intros Hnil. apply Hne. apply Permutation_nil_r. rewrite <- Hnil.
    symmetry. apply SORT_Permutation. }
  split; [apply SORT_sorted|].
  apply Forall_forall. intros q Hq. apply (proj1 (elem_of_SORT _ _)) in Hq.
  destruct (proj1 (Forall_forall _ _) HF q Hq) as [Hst Hv].
  split; [by destruct Hst|]. split; [|done].
  by apply (stored_qso_rel_mins dir start hrs tcall).
Qed.

Lemma all_keyed : keyed_by_tcall (SORT <$> all_qsos st).
Proof.
  intros tcall qsos Hl. destruct (sorted_logs tcall qsos Hl) as (_ & _ & HF).
  eapply Forall_impl; [exact HF|]. by intros q [? _].
Qed.

Lemma all_band_logs : band_logs start max_rel_mins (SORT <$> all_qsos st).
Proof.
  intros tcall qsos Hl. destruct (sorted_logs tcall qsos Hl) as (_ & Hs & HF).
  split; [done|]. eapply Forall_impl; [exact HF|]. by intros q (_ & ? & _).
Qed.

Lemma all_valid_frequency :
  map_Forall (fun _ qsos => Forall valid_frequency qsos) (SORT <$> all_qsos st).
Proof.
  intros tcall qsos Hl. destruct (sorted_logs tcall qsos Hl) as (_ & _ & HF).
  eapply Forall_impl; [exact HF|]. by intros q (_ & _ & ?).
Qed.

End Pipeline.

Lemma prune_entrant_rcalls_lookup (scp_calls : gset callsign)
    (m : gmap callsign (list small_qso)) (tcall : callsign) (qsos : list small_qso) :
  prune_entrant_rcalls scp_calls m !! tcall = Some qsos <->
  qsos <> [] /\ exists log, m !! tcall = Some log /\
                            qsos = filter (fun qso => _rcall qso ∉ scp_calls) log.
Proof.
  unfold prune_entrant_rcalls.
  rewrite map_lookup_filter_Some, lookup_fmap_Some. simpl. split.
  - intros [(log & <- & Hl) Hne]. split; [done|]. by exists log.
  - intros [Hne (log & Hl & ->)]. split; [|done]. by exists log.
Qed.

Lemma prune_keyed (scp_calls : gset callsign) (m : gmap callsign (list small_qso)) :
  keyed_by_tcall m -> keyed_by_tcall (prune_entrant_rcalls scp_calls m).
Proof.
  intros Hm tcall qsos Hl.
  apply prune_entrant_rcalls_lookup in Hl as (_ & log & Hlog & ->).
  apply Forall_forall. intros q [_ Hq]%list_elem_of_filter.
  by apply (proj1 (Forall_forall _ _) (Hm tcall log Hlog)).
Qed.

Lemma prune_band_logs (start max_rel_mins : Z) (scp_calls : gset callsign)
    (m : gmap callsign (list small_qso)) :
  band_logs start max_rel_mins m ->
  band_logs start max_rel_mins (prune_entrant_rcalls scp_calls m).
Proof.
  intros Hm tcall qsos Hl.
  apply prune_entrant_rcalls_lookup in Hl as (_ & log & Hlog & ->).
  destruct (Hm tcall log Hlog) as [Hs HF]. split.
  - by apply StronglySorted_filter.
  - apply Forall_forall. intros q [_ Hq]%list_elem_of_filter.
    by apply (proj1 (Forall_forall _ _) HF).
Qed.

Lemma minilog_of_lookup (rv : gmap HF_BAND (gmap callsign (list small_qso)))
    (b : HF_BAND) (bm : gmap callsign (list small_qso)) (c : callsign)
    (l : list small_qso) :
  rv !! b = Some bm -> bm !! c = Some l -> minilog_of rv b c = l.
Proof. intros Hb Hc. unfold minilog_of. by rewrite Hb; simpl; rewrite Hc. Qed.

Lemma minilog_band_logs (start max_rel_mins : Z)
    (m : gmap callsign (list small_qso)) (b : HF_BAND)
    (bm : gmap callsign (list small_qso)) :
  keyed_by_tcall m -> band_logs start max_rel_mins m ->
  build_minilog m !! b = Some bm ->
  band_logs start max_rel_mins bm /\ build_vec bm <> [].
Proof.
  intros Hkey Hm Hb.
  destruct (build_minilog_inhabited m b bm Hb) as [Hne Hlogs].
  split.
  - intros c l Hc.
    pose proof (minilog_of_lookup _ b bm c l Hb Hc) as Hl.
    rewrite build_minilog_lookup in Hl by done.
    destruct (m !! c) as [log|] eqn:Hlog; simpl in Hl.
    + destruct (Hm c log Hlog) as [Hs HF]. subst l. split.
      * by apply StronglySorted_filter.
      * apply Forall_forall. intros q [_ Hq]%list_elem_of_filter.
        by apply (proj1 (Forall_forall _ _) HF).
    + exfalso. apply (Hlogs c l Hc). by rewrite <- Hl.
  - apply map_choose in Hne as (c & l & Hc).
    pose proof (Hlogs c l Hc) as Hl.
    destruct l as [|q l]; [done|].
    intros Hnil.
    assert (q ∈ build_vec bm) as Hq.
    { apply elem_of_build_vec. exists c, (q :: l). split; [done | apply list_elem_of_here]. }
    rewrite Hnil in Hq. by apply elem_of_nil in Hq.
Qed.

(** ** The bands *)

Lemma process_bands_loop (opts : options)
    (pruned_per_band_qsos all_per_band_qsos
       : gmap HF_BAND (gmap callsign (list small_qso)))
    (calls_with_no_freq_info calls_with_poor_freq_info : gset callsign)
    (start max_rel_mins : Z) (bands : list HF_BAND)
    (out_calls : list (gset callsign)) :
  (forall b p, pruned_per_band_qsos !! b = Some p ->
               band_logs start max_rel_mins p /\ build_vec p <> []) ->
  (forall b a, all_per_band_qsos !! b = Some a ->
               band_logs start max_rel_mins a /\ build_vec a <> []) ->
  foldlM (fun out_calls this_band =>
            match pruned_per_band_qsos !! this_band,
                  all_per_band_qsos !! this_band with
            | Some pruned_qsos_this_band, Some all_qsos_this_band =>
                band_calls ← process_band opts pruned_qsos_this_band
                                          all_qsos_this_band
                                          calls_with_no_freq_info
                                          calls_with_poor_freq_info
                                          max_rel_mins;
                Some (out_calls ++ [band_calls])
            | _, _ => Some out_calls
            end)
         out_calls bands
  = Some (out_calls ++
          omap (band_result opts calls_with_no_freq_info
                            calls_with_poor_freq_info pruned_per_band_qsos
                            all_per_band_qsos) bands).
Proof.
  intros Hp Ha. revert out_calls.
  induction bands as [|b bands IH]; intros out_calls.
  { simpl. by rewrite app_nil_r. }
  cbn [foldlM omap list_omap].
  assert (band_result opts calls_with_no_freq_info calls_with_poor_freq_info
            pruned_per_band_qsos all_per_band_qsos b =
          match pruned_per_band_qsos !! b, all_per_band_qsos !! b with
          | Some p, Some a =>
              Some (local_scp_calls
                      (pass_D opts
                         (prune_band calls_with_no_freq_info
                                     calls_with_poor_freq_info p a)))
          | _, _ => None
          end) as -> by done.
  destruct (pruned_per_band_qsos !! b) as [p|] eqn:Hpb; [|apply IH].
  destruct (all_per_band_qsos !! b) as [a|] eqn:Hab; [|apply IH].
  destruct (Hp b p Hpb) as [Hpl Hpne]. destruct (Ha b a Hab) as [Hal Hane].
  rewrite (process_band_spec opts p a calls_with_no_freq_info
             calls_with_poor_freq_info start max_rel_mins) by done.
  simpl. rewrite IH. by rewrite <- app_assoc.
Qed.

Lemma process_bands_spec (opts : options)
    (pruned_per_band_qsos all_per_band_qsos
       : gmap HF_BAND (gmap callsign (list small_qso)))
    (calls_with_no_freq_info calls_with_poor_freq_info : gset callsign)
    (start max_rel_mins : Z) :
  (forall b p, pruned_per_band_qsos !! b = Some p ->
               band_logs start max_rel_mins p /\ build_vec p <> []) ->
  (forall b a, all_per_band_qsos !! b = Some a ->
               band_logs start max_rel_mins a /\ build_vec a <> []) ->
  process_bands opts pruned_per_band_qsos all_per_band_qsos
                calls_with_no_freq_info calls_with_poor_freq_info max_rel_mins
  = Some (omap (band_result opts calls_with_no_freq_info
                            calls_with_poor_freq_info pruned_per_band_qsos
                            all_per_band_qsos) contest_bands).
Proof.
  intros Hp Ha. unfold process_bands.
  by rewrite (process_bands_loop opts _ _ _ _ start max_rel_mins).
Qed.

Lemma n_valid_logs_ingest_log opts cp st qso_lines :
  n_valid_logs (ingest_log opts cp st qso_lines) =
  if bool_decide (read_log cp qso_lines = ∅) then n_valid_logs st
  else wrap32 (n_valid_logs st + 1).
Proof.
  unfold ingest_log. case_bool_decide; [done|].
  generalize (map_to_list (read_log cp qso_lines)) as l.
  set (st0 := {| all_qsos := all_qsos st; scp_calls := scp_calls st;
                 n_valid_logs := wrap32 (n_valid_logs st + 1) |}).
  change (wrap32 (n_valid_logs st + 1)) with (n_valid_logs st0).
  generalize st0. intros s l. revert s.
  induction l as [|[tcall qsos] l IH]; intros s; [done|].
  simpl. by rewrite IH.
Qed.

Lemma n_valid_logs_loop opts cp (logs : list (list small_qso)) (s : ingested) :
  0 <= n_valid_logs s -> n_valid_logs s + ssize logs <= INT_MAX ->
  n_valid_logs (foldl (ingest_log opts cp) s logs) =
  n_valid_logs s + ssize (filter (fun log => read_log cp log <> ∅) logs).
Proof.
  revert s. unfold ssize, INT_MAX.
  induction logs as [|log logs IH]; intros s H0 H1; simpl in *; [lia|].
  rewrite IH; rewrite n_valid_logs_ingest_log, ?filter_cons.
  - case_bool_decide as Hlog.
    + rewrite decide_False by (by intros ?). lia.
    + rewrite decide_True by done. rewrite wrap32_small by lia. simpl. lia.
  - case_bool_decide; [lia|]. rewrite wrap32_small by lia. lia.
  - case_bool_decide; [lia|]. rewrite wrap32_small by lia. lia.
Qed.

Lemma n_valid_logs_ingest opts cp (logs : list (list small_qso)) :
  ssize logs <= INT_MAX ->
  n_valid_logs (ingest opts cp logs) =
  ssize (filter (fun log => read_log cp log <> ∅) logs).
Proof.
  intros Hlen. unfold ingest. rewrite n_valid_logs_loop; simpl; lia.
Qed.

Section NeverThrows.

Variable opts : options.
Variable dir : callsign.
Variable start hrs : Z.
Variable logs : list (list small_qso).

Hypothesis hours_fit : 0 < hrs <= 596523.
Hypothesis logs_constructed : Forall (Forall constructed) logs.
Hypothesis logs_counted : ssize logs <= INT_MAX.

Local Abbreviation cp := (make_contest_parameters dir start hrs).

Lemma process_directory_returns :
  (Forall (fun log => read_log cp log = ∅) logs /\
   process_directory opts cp logs = Exits (-1)) \/
  (Exists (fun log => read_log cp log <> ∅) logs /\
   exists rv, process_directory opts cp logs = Returns rv).
Proof.
  unfold process_directory.
  rewrite n_valid_logs_ingest by done.
  destruct (filter (fun log => read_log cp log <> ∅) logs) as [|log0 rest] eqn:Hf.
  { left. split; [|done].
    apply Forall_forall. intros log Hlog.
    destruct (decide (read_log cp log = ∅)) as [|Hne]; [done|].
    assert (log ∈ filter (fun log => read_log cp log <> ∅) logs) as Hin
      by (by apply list_elem_of_filter).
    rewrite Hf in Hin. by apply elem_of_nil in Hin. }
  right. split.
  { apply Exists_exists. exists log0.
    assert (log0 ∈ filter (fun log => read_log cp log <> ∅) logs) as Hin
      by (rewrite Hf; apply list_elem_of_here).
    apply list_elem_of_filter in Hin as [H1 H2]. by split. }
  assert ((ssize (log0 :: rest) =? 0) = false) as ->
    by (apply Z.eqb_neq; unfold ssize; simpl; lia).
  set (all := SORT <$> all_qsos (ingest opts cp logs)).
  destruct (calls_with_unreliable_freq_returns all (no_freq_info all))
    as (poor & -> & _).
  { by apply all_valid_frequency. }
  rewrite max_rel_mins_hours by done.
  rewrite (process_bands_spec opts _ _ _ _ start (hrs * 60 - 1)).
  - by eexists.
  - intros b p Hb. eapply minilog_band_logs; [| |exact Hb].
    + apply prune_keyed. by apply all_keyed.
    + apply prune_band_logs. by apply all_band_logs.
  - intros b a Hb. eapply minilog_band_logs; [| |exact Hb].
    + by apply all_keyed.
    + by apply all_band_logs.
Qed.

End NeverThrows.

Lemma elem_of_pass_D (opts : options) (vec : list small_qso) (q : small_qso) :
  q ∈ pass_D opts vec -> q ∈ vec.
Proof.
  unfold pass_D. destruct (verbose opts).
  - unfold pass_D_verbose. rewrite pass_D_verbose_loop.
    by intros [_ H]%list_elem_of_filter.
  - unfold pass_D_quiet. by intros [_ H]%list_elem_of_filter.
Qed.

Lemma elem_of_pruned_before_cutoff
    (pruned_qsos_this_band all_qsos_this_band : gmap callsign (list small_qso))
    (calls_with_no_freq_info calls_with_poor_freq_info : gset callsign)
    (max_rel_mins : Z) (pruned_vec : list small_qso) (q : small_qso) :
  pruned_before_cutoff pruned_qsos_this_band all_qsos_this_band
    calls_with_no_freq_info calls_with_poor_freq_info max_rel_mins
  = Some pruned_vec ->
  q ∈ pruned_vec -> q ∈ build_vec pruned_qsos_this_band.
Proof.
  unfold pruned_before_cutoff, pass_A, pass_B, pass_C. intros H Hq.
  destruct (time_map (build_vec all_qsos_this_band) max_rel_mins)
    as [all_time_map|]; [|done].
  simpl in H.
  destruct (time_map (build_vec pruned_qsos_this_band) max_rel_mins)
    as [pruned_time_map|]; [|done].
  simpl in H.
  destruct (foldlM _ _ _) as [idsA|]; [|done]. simpl in H.
  destruct (foldlM _ _ _) as [idsB|]; [|done]. simpl in H.
  injection H as <-.
  unfold erase_ids in Hq.
  by apply list_elem_of_filter in Hq as [_ [_ [_ Hq]%list_elem_of_filter]%list_elem_of_filter].
Qed.

Lemma process_band_rcalls (opts : options)
    (pruned_qsos_this_band all_qsos_this_band : gmap callsign (list small_qso))
    (calls_with_no_freq_info calls_with_poor_freq_info : gset callsign)
    (max_rel_mins : Z) (band_calls : gset callsign) (c : callsign) :
  process_band opts pruned_qsos_this_band all_qsos_this_band
    calls_with_no_freq_info calls_with_poor_freq_info max_rel_mins
  = Some band_calls ->
  c ∈ band_calls ->
  exists tcall log q, pruned_qsos_this_band !! tcall = Some log /\ q ∈ log /\
                      _rcall q = c.
Proof.
  unfold process_band. intros H Hc.
  destruct (pruned_before_cutoff _ _ _ _ _) as [pruned_vec|] eqn:Hvec; [|done].
  injection H as <-. unfold local_scp_calls in Hc.
  apply elem_of_list_to_set, list_elem_of_fmap in Hc as (q & -> & Hq).
  apply elem_of_pass_D in Hq.
  apply (elem_of_pruned_before_cutoff _ _ _ _ _ _ _ Hvec) in Hq.
  apply elem_of_build_vec in Hq as (tcall & log & Hl & Hq).
  by exists tcall, log, q.
Qed.

Lemma process_bands_loop_elem (opts : options)
    (pruned_per_band_qsos all_per_band_qsos
       : gmap HF_BAND (gmap callsign (list small_qso)))
    (calls_with_no_freq_info calls_with_poor_freq_info : gset callsign)
    (max_rel_mins : Z) (bands : list HF_BAND)
    (acc out_calls : list (gset callsign)) (s : gset callsign) :
  foldlM (fun out_calls this_band =>
            match pruned_per_band_qsos !! this_band,
                  all_per_band_qsos !! this_band with
            | Some pruned_qsos_this_band, Some all_qsos_this_band =>
                band_calls ← process_band opts pruned_qsos_this_band
                                          all_qsos_this_band
                                          calls_with_no_freq_info
                                          calls_with_poor_freq_info
                                          max_rel_mins;
                Some (out_calls ++ [band_calls])
            | _, _ => Some out_calls
            end)
         acc bands = Some out_calls ->
  s ∈ out_calls ->
  s ∈ acc \/
  exists b p a, pruned_per_band_qsos !! b = Some p /\
                all_per_band_qsos !! b = Some a /\
                process_band opts p a calls_with_no_freq_info
                             calls_with_poor_freq_info max_rel_mins = Some s.
Proof.
  revert acc. induction bands as [|b bands IH]; intros acc Hrun Hs; simpl in Hrun.
  { injection Hrun as <-. by left. }
  destruct (pruned_per_band_qsos !! b) as [p|] eqn:Hpb; [|by apply (IH acc)].
  destruct (all_per_band_qsos !! b) as [a|] eqn:Hab; [|by apply (IH acc)].
  destruct (process_band opts p a _ _ _) as [band_calls|] eqn:Hband; [|done].
  simpl in Hrun. destruct (IH (acc ++ [band_calls]) Hrun Hs) as [Hin|H]; [|by right].
  apply elem_of_app in Hin as [Hin|Hin]; [by left|].
  apply list_elem_of_singleton in Hin as ->. right. by exists b, p, a.
Qed.

Lemma process_bands_elem (opts : options)
    (pruned_per_band_qsos all_per_band_qsos
       : gmap HF_BAND (gmap callsign (list small_qso)))
    (calls_with_no_freq_info calls_with_poor_freq_info : gset callsign)
    (max_rel_mins : Z) (out_calls : list (gset callsign)) (s : gset callsign) :
  process_bands opts pruned_per_band_qsos all_per_band_qsos
                calls_with_no_freq_info calls_with_poor_freq_info max_rel_mins
  = Some out_calls ->
  s ∈ out_calls ->
  exists b p a, pruned_per_band_qsos !! b = Some p /\
                all_per_band_qsos !! b = Some a /\
                process_band opts p a calls_with_no_freq_info
                             calls_with_poor_freq_info max_rel_mins = Some s.
Proof.
  unfold process_bands. intros Hrun Hs.
  destruct (process_bands_loop_elem _ _ _ _ _ _ _ _ _ _ Hrun Hs) as [Hin|H]; [|done].
  by apply elem_of_nil in Hin.
Qed.

Lemma elem_of_build_minilog (m : gmap callsign (list small_qso)) (b : HF_BAND)
    (bm : gmap callsign (list small_qso)) (c : callsign) (l : list small_qso)
    (q : small_qso) :
  build_minilog m !! b = Some bm -> bm !! c = Some l -> q ∈ l ->
  exists tcall log, m !! tcall = Some log /\ q ∈ log.
Proof.
  intros Hb Hc Hq.
  pose proof (minilog_of_lookup _ b bm c l Hb Hc) as Hl.
  unfold build_minilog in Hl. rewrite build_minilog_fold in Hl.
  unfold minilog_of in Hl at 1. rewrite lookup_empty in Hl. simpl in Hl.
  rewrite lookup_empty in Hl. simpl in Hl. subst l.
  apply list_elem_of_filter in Hq as [_ Hq].
  apply elem_of_concat in Hq as (log & Hq & Hlog).
  apply list_elem_of_fmap in Hlog as ([tcall log'] & -> & Hin).
  apply elem_of_map_to_list in Hin. by exists tcall, log'.
Qed.

(** ** The counts of the returned map *)

Lemma foldl_nested {A B C} (f : B -> A -> B) (L : list (C * list A)) (b : B) :
  foldl (fun b '(_, l) => foldl f b l) b L = foldl f b (concat (map snd L)).
Proof.
  revert b. induction L as [|[c l] L IH]; intros b; [done|].
  simpl. by rewrite foldl_app, IH.
Qed.

Lemma rcall_count_Permutation (c : callsign) (l l' : list small_qso) :
  l ≡ₚ l' -> rcall_count c l = rcall_count c l'.
Proof. intros H. unfold rcall_count, ssize. by rewrite H. Qed.

Lemma rcall_count_app (c : callsign) (l l' : list small_qso) :
  rcall_count c (l ++ l') = rcall_count c l + rcall_count c l'.
Proof. unfold rcall_count, ssize. rewrite filter_app, length_app. lia. Qed.

Lemma rcall_count_sorted_logs (c : callsign) (m : gmap callsign (list small_qso)) :
  rcall_count c (concat (map snd (map_to_list (SORT <$> m)))) =
  rcall_count c (build_vec m).
Proof.
  unfold build_vec. rewrite (rcall_count_Permutation c _ _ (SORT_Permutation _)).
  rewrite map_to_list_fmap.
  induction (map_to_list m) as [|[k l] L IH]; [done|].
  change (rcall_count c (SORT l ++ concat (map snd (prod_map id SORT <$> L)))
          = rcall_count c (l ++ concat (map snd L))).
  rewrite !rcall_count_app, IH.
  by rewrite (rcall_count_Permutation c _ _ (SORT_Permutation l)).
Qed.

Lemma rcall_count_recorded (c : callsign) (m : gmap callsign (list small_qso)) :
  rcall_count c (build_vec m) <> 0 <-> recorded_as_rcall c m.
Proof.
  unfold rcall_count, ssize, recorded_as_rcall. split.
  - intros Hne. destruct (filter _ _) as [|q l] eqn:Hf; [done|].
    assert (q ∈ filter (fun qso => _rcall qso = c) (build_vec m)) as Hq
      by (rewrite Hf; apply list_elem_of_here).
    apply list_elem_of_filter in Hq as [Hc Hq].
    apply elem_of_build_vec in Hq as (tcall & log & Hl & Hq).
    by exists tcall, log, q.
  - intros (tcall & log & q & Hl & Hq & Hc).
    assert (q ∈ filter (fun qso => _rcall qso = c) (build_vec m)) as Hin.
    { apply list_elem_of_filter. split; [done|].
      apply elem_of_build_vec. by exists tcall, log. }
    destruct (filter _ _); [by apply elem_of_nil in Hin | simpl; lia].
Qed.

Lemma call_map_add_lookup (call k : callsign) (cm : gmap callsign Z) :
  call_map_add call cm !! k =
  if decide (call = k) then Some (wrap32 (default 0 (cm !! call) + 1)) else cm !! k.
Proof.
  unfold call_map_add. case_decide as Hk.
  - subst k. by rewrite lookup_insert_eq.
  - by rewrite lookup_insert_ne.
Qed.

Lemma count_loop_other (calls : gset callsign) (qsos : list small_qso)
    (rv : gmap callsign Z) (c : callsign) :
  c ∉ calls ->
  foldl (fun rv qso => if bool_decide (_rcall qso ∈ calls)
                       then call_map_add (_rcall qso) rv else rv) rv qsos !! c
  = rv !! c.
Proof.
  intros Hc. revert rv. induction qsos as [|q qsos IH]; intros rv; [done|].
  simpl. rewrite IH. case_bool_decide as Hq; [|done].
  rewrite call_map_add_lookup, decide_False; [done|].
  intros Heq. apply Hc. by rewrite <- Heq.
Qed.

Lemma count_loop_in (calls : gset callsign) (qsos : list small_qso)
    (rv : gmap callsign Z) (c : callsign) :
  c ∈ calls ->
  0 <= default 0 (rv !! c) -> default 0 (rv !! c) + ssize qsos <= INT_MAX ->
  foldl (fun rv qso => if bool_decide (_rcall qso ∈ calls)
                       then call_map_add (_rcall qso) rv else rv) rv qsos !! c
  = if decide (rcall_count c qsos = 0) then rv !! c
    else Some (default 0 (rv !! c) + rcall_count c qsos).
Proof.
  intros Hc H0. unfold INT_MAX.
  induction qsos as [|q qsos IH] using rev_ind; intros Hlen; [done|].
  rewrite foldl_snoc, rcall_count_snoc.
  unfold ssize in Hlen. rewrite length_app in Hlen. simpl in Hlen.
  pose proof (rcall_count_bounds c qsos) as Hb. unfold ssize in *.
  specialize (IH ltac:(lia)).
  destruct (decide (_rcall q = c)) as [Heq|Hne].
  - subst c. rewrite bool_decide_true by done.
    rewrite call_map_add_lookup, decide_True by done. rewrite IH.
    rewrite (decide_False (P := _ + 1 = 0)) by lia.
    case_decide as Hz; simpl.
    + rewrite Hz. rewrite wrap32_small by lia. f_equal; lia.
    + rewrite wrap32_small by lia. f_equal; lia.
  - rewrite Z.add_0_r.
    case_bool_decide; [|done].
    rewrite call_map_add_lookup, decide_False by done. done.
Qed.

Lemma call_map_merge_lookup (cm us : gmap callsign Z) (k : callsign) :
  call_map_merge cm us !! k =
  match us !! k with
  | Some n => Some (wrap32 (default 0 (cm !! k) + n))
  | None => cm !! k
  end.
Proof.
  unfold call_map_merge.
  apply (map_fold_weak_ind
           (fun (r : gmap callsign Z) (us : gmap callsign Z) =>
              r !! k = match us !! k with
                       | Some n => Some (wrap32 (default 0 (cm !! k) + n))
                       | None => cm !! k
                       end)).
  - by rewrite lookup_empty.
  - intros i x m r Hi IH.
    destruct (decide (i = k)) as [->|Hne].
    + rewrite !lookup_insert_eq. rewrite IH, Hi. done.
    + by rewrite !lookup_insert_ne.
Qed.

(** ** The map that [process_directory] returns *)

Lemma ssize_sorted_logs (m : gmap callsign (list small_qso)) :
  ssize (concat (map snd (map_to_list (SORT <$> m)))) = ssize (build_vec m).
Proof.
  unfold build_vec, ssize. rewrite (Permutation_length (SORT_Permutation _)).
  rewrite map_to_list_fmap. f_equal.
  induction (map_to_list m) as [|[k l] L IH]; [done|].
  change (length (SORT l ++ concat (map snd (prod_map id SORT <$> L)))
          = length (l ++ concat (map snd L))).
  rewrite !length_app, IH. by rewrite (Permutation_length (SORT_Permutation l)).
Qed.

Lemma returned_not_entrant (opts : options) (scp_calls : gset callsign)
    (all : gmap callsign (list small_qso))
    (calls_with_no_freq_info calls_with_poor_freq_info : gset callsign)
    (max_rel_mins : Z) (out_calls : list (gset callsign)) (c : callsign) :
  process_bands opts (build_minilog (prune_entrant_rcalls scp_calls all))
                (build_minilog all) calls_with_no_freq_info
                calls_with_poor_freq_info max_rel_mins = Some out_calls ->
  c ∈ ⋃ out_calls -> (c ∉ scp_calls) /\ recorded_as_rcall c all.
Proof.
  intros Hrun Hc. apply elem_of_union_list in Hc as (s & Hs & Hc).
  destruct (process_bands_elem _ _ _ _ _ _ _ _ Hrun Hs) as (b & p & a & Hp & _ & Hband).
  destruct (process_band_rcalls _ _ _ _ _ _ _ _ Hband Hc)
    as (tcall & log & q & Hlog & Hq & Hrc).
  destruct (elem_of_build_minilog _ _ _ _ _ _ Hp Hlog Hq)
    as (tcall' & log' & Hlog' & Hq').
  apply prune_entrant_rcalls_lookup in Hlog' as (_ & log0 & Hlog0 & ->).
  apply list_elem_of_filter in Hq' as [Hno Hq'].
  split; [by rewrite <- Hrc|]. by exists tcall', log0, q.
Qed.

Section Counts.

Variable opts : options.
Variable cp : contest_parameters.
Variable logs : list (list small_qso).
Variable rv : gmap callsign Z.

Hypothesis run : process_directory opts cp logs = Returns rv.
Hypothesis counted :
  ssize (build_vec (all_qsos (ingest opts cp logs))) <= INT_MAX.

Local Abbreviation st := (ingest opts cp logs).

Lemma process_directory_lookup :
  exists returned_calls : gset callsign,
    (forall c, c ∈ returned_calls -> c ∉ scp_calls st) /\
    forall c,
      rv !! c =
      if decide (rcall_count c (build_vec (all_qsos st)) = 0) then None
      else if decide (c ∈ scp_calls st ∪ returned_calls)
           then Some (rcall_count c (build_vec (all_qsos st)))
           else None.
Proof.
  pose proof run as Hrun. unfold process_directory in Hrun.
  destruct (n_valid_logs st =? 0); [done|].
  set (all := SORT <$> all_qsos st) in *.
  destruct (calls_with_unreliable_freq _ _) as [poor|]; [|done].
  destruct (process_bands _ _ _ _ _ _) as [out_calls|] eqn:Hbands; [|done].
  injection Hrun as Hrv.
  pose proof (fun c => returned_not_entrant _ _ _ _ _ _ _ c Hbands) as Hdisj.
  exists (⋃ out_calls). split; [intros c Hc; by destruct (Hdisj c Hc)|].
  intros c.
  unfold count_returned_rcalls in Hrv. rewrite foldl_nested in Hrv.
  set (vec := concat (map snd (map_to_list all))) in *.
  assert (rcall_count c vec = rcall_count c (build_vec (all_qsos st))) as Hcount
    by apply rcall_count_sorted_logs.
  assert (ssize vec = ssize (build_vec (all_qsos st))) as Hsize
    by apply ssize_sorted_logs.
  pose proof (rcall_count_bounds c vec) as Hb.
  assert (count_entrant_rcalls (scp_calls st) all !! c =
          if decide (c ∈ scp_calls st)
          then if decide (rcall_count c vec = 0) then None
               else Some (rcall_count c vec)
          else None) as Hscp.
  { unfold count_entrant_rcalls. rewrite foldl_nested. fold vec.
    destruct (decide (c ∈ scp_calls st)) as [Hin|Hin].
    - rewrite count_loop_in by (rewrite ?lookup_empty; simpl; done || lia).
      by rewrite lookup_empty.
    - by rewrite count_loop_other, lookup_empty. }
  assert (call_map_merge ∅ (count_entrant_rcalls (scp_calls st) all) !! c =
          count_entrant_rcalls (scp_calls st) all !! c) as Hmerge.
  { rewrite call_map_merge_lookup, Hscp, lookup_empty.
    destruct (decide (c ∈ scp_calls st)); [|done].
    destruct (decide (rcall_count c vec = 0)); [done|].
    simpl. rewrite wrap32_small; [done|]. unfold INT_MAX in *. lia. }
  rewrite <- Hcount, <- Hrv.
  destruct (decide (c ∈ ⋃ out_calls)) as [Hret|Hret].
  - destruct (Hdisj c Hret) as [Hno _].
    assert (call_map_merge ∅ (count_entrant_rcalls (scp_calls st) all) !! c = None)
      as Hnone.
    { rewrite Hmerge, Hscp. by rewrite (decide_False (P := c ∈ scp_calls st)). }
    rewrite count_loop_in by (rewrite ?Hnone; simpl; done || lia).
    rewrite Hnone. simpl.
    destruct (decide (rcall_count c vec = 0)) as [Hz|Hnz]; [done|].
    by rewrite (decide_True (P := c ∈ scp_calls st ∪ ⋃ out_calls))
      by (apply elem_of_union; by right).
  - rewrite count_loop_other by done. rewrite Hmerge, Hscp.
    destruct (decide (c ∈ scp_calls st)) as [Hin|Hin];
      destruct (decide (rcall_count c vec = 0)) as [Hz|Hnz]; try done.
    + by rewrite (decide_True (P := c ∈ scp_calls st ∪ ⋃ out_calls))
        by (apply elem_of_union; by left).
    + rewrite (decide_False (P := c ∈ scp_calls st ∪ ⋃ out_calls)); [done|].
      intros [?|?]%elem_of_union; done.
Qed.

End Counts.

(** ** The loops over the parameters of the command line *)

Lemma elem_of_indices (lo hi n : Z) : n ∈ indices lo hi <-> lo <= n < hi.
Proof.
  unfold indices. rewrite list_elem_of_fmap. split.
  - intros (k & -> & Hk). apply list_elem_of_In, in_seq in Hk. lia.
  - intros Hn. exists (Z.to_nat (n - lo)). split; [lia|].
    apply list_elem_of_In, in_seq. lia.
Qed.

Lemma indices_snoc (lo hi : Z) :
  lo <= hi -> indices lo (hi + 1) = indices lo hi ++ [hi].
Proof.
  intros H. unfold indices.
  replace (Z.to_nat (hi + 1 - lo)) with (S (Z.to_nat (hi - lo))) by lia.
  rewrite seq_S, map_app. simpl. do 2 f_equal. lia.
Qed.

Lemma indices_nil (lo hi : Z) : hi <= lo -> indices lo hi = [].
Proof.
  intros H. unfold indices. by replace (Z.to_nat (hi - lo)) with 0%nat by lia.
Qed.

Lemma parameter_lookup (cl : command_line) (n : Z) (s : callsign) :
  0 <= n -> (parameter cl n = Some s <-> _arg cl !! Z.to_nat n = Some s).
Proof.
  intros Hn. unfold parameter, at_.
  destruct (Z.ltb_spec n 0); [lia | done].
Qed.

Lemma value_present_spec (cl : command_line) (s : callsign) :
  value_present cl s = true <->
  exists n, 1 <= n < _argc cl - 1 /\ parameter cl n = Some s.
Proof.
  unfold value_present, n_parameters. rewrite existsb_exists. split.
  - intros (n & Hn & Heq). apply list_elem_of_In, elem_of_indices in Hn.
    apply bool_decide_eq_true in Heq. by exists n.
  - intros (n & Hn & Heq). exists n. split.
    + by apply list_elem_of_In, elem_of_indices.
    + by apply bool_decide_eq_true.
Qed.

Lemma parameter_present_spec (cl : command_line) (s : callsign) :
  parameter_present cl s = true <->
  exists n, 1 <= n < _argc cl /\ parameter cl n = Some s.
Proof.
  unfold parameter_present, n_parameters. rewrite existsb_exists. split.
  - intros (n & Hn & Heq). apply list_elem_of_In, elem_of_indices in Hn.
    apply bool_decide_eq_true in Heq. exists n. split; [lia | done].
  - intros (n & Hn & Heq). exists n. split.
    + apply list_elem_of_In, elem_of_indices. lia.
    + by apply bool_decide_eq_true.
Qed.

(** The loop of [value], run over the parameters before [h]. *)
Lemma value_loop (cl : command_line) (s : callsign) (k : nat) :
  let h := 1 + Z.of_nat k in
  h <= _argc cl - 1 ->
  let rv := foldl (fun rv n =>
                     if bool_decide (parameter cl n = Some s)
                     then default [] (parameter cl (n + 1)) else rv)
                  [] (indices 1 h) in
  ((forall n, 1 <= n < h -> parameter cl n <> Some s) /\ rv = []) \/
  (exists n, 1 <= n < h /\ parameter cl n = Some s /\
             parameter cl (n + 1) = Some rv /\
             forall m, n < m < h -> parameter cl m <> Some s).
Proof.
  induction k as [|k IH]; intros h Hh; cbv zeta.
  { left. split; [intros n; lia|]. subst h. by rewrite indices_nil by lia. }
  subst h. replace (1 + Z.of_nat (S k)) with ((1 + Z.of_nat k) + 1) in * by lia.
  rewrite indices_snoc by lia. rewrite foldl_snoc.
  specialize (IH ltac:(lia)). cbv zeta in IH.
  case_bool_decide as Hs.
  - right. exists (1 + Z.of_nat k). split; [lia|]. split; [done|]. split; [|intros m; lia].
    unfold parameter, at_, _argc, ssize in *.
    destruct (Z.ltb_spec (1 + Z.of_nat k + 1) 0); [lia|].
    destruct (lookup_lt_is_Some_2 (_arg cl) (Z.to_nat (1 + Z.of_nat k + 1)))
      as [v Hv]; [lia|].
    by rewrite Hv.
  - destruct IH as [[Hnone ->]|(n & Hn & Hs' & Hv & Hlast)].
    + left. split; [|done]. intros n Hn.
      destruct (decide (n = 1 + Z.of_nat k)) as [->|Hne]; [done|].
      apply Hnone. lia.
    + right. exists n. split; [lia|]. split; [done|]. split; [done|].
      intros m Hm. destruct (decide (m = 1 + Z.of_nat k)) as [->|Hne]; [done|].
      apply Hlast. lia.
Qed.

(** ** A list file without contests *)

Section Configuration.

Variable env : environment.
Variable value_line : list Z -> Z -> Z.
Variable compare_calls : callsign -> callsign -> bool.

Lemma contests_of_list_file (lines : list callsign)
    (acc : list contest_parameters) :
  Forall (fun line => contest_line line = false) lines ->
  foldl (fun params_vec line =>
           outcome_bind params_vec (fun params_vec =>
             if negb (bool_decide (line = [])) &&
                negb (starts_with_char line "#"%char) &&
                bool_decide (" "%char ∈ line)
             then outcome_bind (contest_of_line env line)
                    (fun cp => Returns (params_vec ++ [cp]))
             else Returns params_vec))
        (Returns acc) lines = Returns acc.
Proof.
  induction 1 as [|line lines Hline _ IH]; [done|].
  simpl. unfold contest_line in Hline. by rewrite Hline.
Qed.

Lemma call_map_pairs_empty : call_map_pairs compare_calls ∅ = [].
Proof. unfold call_map_pairs. by rewrite map_to_list_empty. Qed.

Lemma main_without_contests (cl : command_line) :
  contests_of_command_line env cl = Returns [] ->
  main env value_line compare_calls cl = Returns (1, []).
Proof.
  intros Hc. unfold main. rewrite Hc. simpl.
  unfold output_calls, prune_for_output.
  destruct (_ =? 100).
  - by rewrite call_map_pairs_empty.
  - rewrite map_filter_empty. by rewrite call_map_pairs_empty.
Qed.

End Configuration.

(** ** Logs of the same call in several files *)

Lemma ingest_log_lookup (opts : options) (cp : contest_parameters)
    (st : ingested) (qso_lines : list small_qso) (t : callsign) :
  all_qsos (ingest_log opts cp st qso_lines) !! t =
    match all_qsos st !! t with
    | Some qsos => Some qsos
    | None => read_log cp qso_lines !! t
    end /\
  (t ∈ scp_calls (ingest_log opts cp st qso_lines) <->
   t ∈ scp_calls st \/
   exists qsos, read_log cp qso_lines !! t = Some qsos /\
                TL_LIMIT opts <= ssize qsos).
Proof.
  unfold ingest_log. case_bool_decide as Hempty.
  { rewrite Hempty, lookup_empty. split; [by destruct (all_qsos st !! t)|].
    split; [by left|]. by intros [H|(qsos & H & _)]. }
  set (st0 := {| all_qsos := all_qsos st; scp_calls := scp_calls st;
                 n_valid_logs := wrap32 (n_valid_logs st + 1) |}).
  change (all_qsos st) with (all_qsos st0).
  change (scp_calls st) with (scp_calls st0).
  assert (forall qsos, read_log cp qso_lines !! t = Some qsos <->
                       (t, qsos) ∈ map_to_list (read_log cp qso_lines)) as Hl.
  { intros qsos. by rewrite elem_of_map_to_list. }
  pose proof (NoDup_fst_map_to_list (read_log cp qso_lines)) as Hnd.
  revert Hl Hnd. generalize (read_log cp qso_lines !! t) as r.
  generalize (map_to_list (read_log cp qso_lines)) as l.
  clearbody st0. intros l. revert st0.
  induction l as [|[tcall qsos] l IH]; intros st0 r Hl Hnd; simpl.
  { assert (r = None) as ->.
    { destruct r as [qsos|]; [|done].
      pose proof (proj1 (Hl qsos) eq_refl) as Hin. by apply elem_of_nil in Hin. }
    split; [by destruct (all_qsos st0 !! t)|].
    split; [by left|]. by intros [H|(qsos & H & _)]. }
  apply NoDup_cons in Hnd as [Hfresh Hnd].
  destruct (decide (tcall = t)) as [->|Hne].
  - assert (r = Some qsos) as -> by (apply Hl, list_elem_of_here).
    destruct (IH {| all_qsos := insert_new t qsos (all_qsos st0);
                    scp_calls := if ssize qsos >=? TL_LIMIT opts
                                 then {[t]} ∪ scp_calls st0 else scp_calls st0;
                    n_valid_logs := n_valid_logs st0 |} None) as [IH1 IH2];
      [|done|].
    { intros qsos'. split; [done|]. intros Hin. exfalso. apply Hfresh.
      apply list_elem_of_fmap. by exists (t, qsos'). }
    simpl in IH1, IH2. split.
    + rewrite IH1. unfold insert_new.
      destruct (all_qsos st0 !! t) as [old|] eqn:Hold; [by rewrite Hold|].
      by rewrite lookup_insert_eq.
    + rewrite IH2. split.
      * intros [H|(q & Hq & _)]; [|done].
        destruct (Z.geb_spec (ssize qsos) (TL_LIMIT opts)).
        -- apply elem_of_union in H as [H|H]; [|by left].
           right. exists qsos. split; [done | lia].
        -- by left.
      * intros [H|(q & [= <-] & Hq)]; left.
        -- destruct (_ >=? _); [apply elem_of_union; by right | done].
        -- destruct (Z.geb_spec (ssize qsos) (TL_LIMIT opts)); [|lia].
           apply elem_of_union. left. by apply elem_of_singleton.
  - destruct (IH {| all_qsos := insert_new tcall qsos (all_qsos st0);
                    scp_calls := if ssize qsos >=? TL_LIMIT opts
                                 then {[tcall]} ∪ scp_calls st0 else scp_calls st0;
                    n_valid_logs := n_valid_logs st0 |} r) as [IH1 IH2];
      [|done|].
    { intros qsos'. rewrite Hl, elem_of_cons. split; [|by right].
      intros [[= -> _]|H]; done. }
    simpl in IH1, IH2. split.
    + rewrite IH1. unfold insert_new.
      destruct (all_qsos st0 !! tcall) eqn:Htc; [done|].
      by rewrite lookup_insert_ne.
    + rewrite IH2. split.
      * intros [H|H]; [|by right]. left.
        destruct (_ >=? _); [|done].
        apply elem_of_union in H as [H|H]; [|done].
        apply elem_of_singleton in H. congruence.
      * intros [H|H]; [|by right]. left.
        destruct (_ >=? _); [apply elem_of_union; by right | done].
Qed.

Lemma ingest_lookup_from (opts : options) (cp : contest_parameters)
    (logs : list (list small_qso)) (st : ingested) (t : callsign) :
  all_qsos (foldl (ingest_log opts cp) st logs) !! t =
    match all_qsos st !! t with
    | Some qsos => Some qsos
    | None => head (logs_of cp t logs)
    end /\
  (t ∈ scp_calls (foldl (ingest_log opts cp) st logs) <->
   t ∈ scp_calls st \/
   exists qsos, qsos ∈ logs_of cp t logs /\ TL_LIMIT opts <= ssize qsos).
Proof.
  revert st. induction logs as [|log logs IH]; intros st; simpl.
  { split; [by destruct (all_qsos st !! t)|]. split; [by left|].
    intros [H|(qsos & H & _)]; [done|]. by apply elem_of_nil in H. }
  destruct (IH (ingest_log opts cp st log)) as [IH1 IH2].
  destruct (ingest_log_lookup opts cp st log t) as [H1 H2].
  split.
  - rewrite IH1, H1. unfold logs_of. simpl.
    destruct (all_qsos st !! t); [done|].
    by destruct (read_log cp log !! t).
  - rewrite IH2, H2. unfold logs_of. simpl. split.
    + intros [[H|(qsos & Hq & Hlen)]|(qsos & Hq & Hlen)]; [by left|right..].
      * exists qsos. rewrite Hq. split; [apply list_elem_of_here | done].
      * exists qsos. split; [|done].
        destruct (read_log cp log !! t); [by apply list_elem_of_further | done].
    + intros [H|(qsos & Hq & Hlen)]; [by left; left|].
      destruct (read_log cp log !! t) as [first|] eqn:Hfirst.
      * apply elem_of_cons in Hq as [Heq|Hq].
        -- left. right. exists qsos. split; [by rewrite Heq | done].
        -- right. by exists qsos.
      * right. by exists qsos.
Qed.

(** ** Sums and inversions of a histogram *)

Lemma wrap32_add_l (a b : Z) : wrap32 (wrap32 a + b) = wrap32 (a + b).
Proof.
  unfold wrap32.
  replace ((a + 2147483648) mod 4294967296 - 2147483648 + b + 2147483648)
    with ((a + 2147483648) mod 4294967296 + b) by lia.
  rewrite Zplus_mod_idemp_l. do 2 f_equal. lia.
Qed.

Lemma wrap32_add_comm (y a b : Z) :
  wrap32 (wrap32 (y + a) + b) = wrap32 (wrap32 (y + b) + a).
Proof. rewrite !wrap32_add_l. f_equal. lia. Qed.

Lemma total_count_insert (h : gmap callsign Z) (v : callsign) (n : Z) :
  h !! v = None -> total_count (<[v := n]> h) = wrap32 (total_count h + n).
Proof.
  intros Hv. unfold total_count.
  rewrite map_fold_insert_L; [done| |done].
  intros j1 j2 z1 z2 y _ _ _. apply wrap32_add_comm.
Qed.

Lemma wrap32_add_r (a b : Z) : wrap32 (a + wrap32 b) = wrap32 (a + b).
Proof. by rewrite Z.add_comm, wrap32_add_l, Z.add_comm. Qed.

Lemma total_count_add (h : gmap callsign Z) (v : callsign) :
  total_count (count_values_add v h) = wrap32 (total_count h + 1).
Proof.
  unfold count_values_add.
  destruct (h !! v) as [n|] eqn:Hv; simpl.
  - rewrite <- (insert_delete_eq h).
    rewrite total_count_insert by apply lookup_delete_eq.
    rewrite <- (insert_delete_id h v n Hv) at 2.
    rewrite total_count_insert by apply lookup_delete_eq.
    rewrite wrap32_add_r, wrap32_add_l. f_equal. lia.
  - rewrite total_count_insert by done.
    rewrite wrap32_add_r. f_equal.
Qed.

Lemma wrap32_idemp (a : Z) : wrap32 (wrap32 a) = wrap32 a.
Proof.
  pose proof (wrap32_add_l a 0) as H. by rewrite !Z.add_0_r in H.
Qed.

Lemma wrap32_total_count (h : gmap callsign Z) :
  wrap32 (total_count h) = total_count h.
Proof.
  unfold total_count.
  apply (map_fold_weak_ind (fun (r : Z) (_ : gmap callsign Z) => wrap32 r = r)).
  - done.
  - intros k x m r _ _. apply wrap32_idemp.
Qed.

Lemma total_count_add_all (tvec : list callsign) (h : gmap callsign Z) :
  total_count (count_values_add_all tvec h) =
  wrap32 (wrap32 (total_count h) + ssize tvec).
Proof.
  unfold count_values_add_all, ssize.
  induction tvec as [|v tvec IH] using rev_ind.
  - simpl. rewrite Z.add_0_r. by rewrite !wrap32_total_count.
  - rewrite foldl_snoc, total_count_add, IH, length_app. simpl.
    rewrite wrap32_total_count, wrap32_add_l. f_equal. lia.
Qed.

Lemma occurrences_snoc (v x : callsign) (tvec : list callsign) :
  occurrences v (tvec ++ [x]) =
  occurrences v tvec + (if decide (x = v) then 1 else 0).
Proof.
  unfold occurrences, ssize. rewrite filter_app, length_app.
  rewrite filter_cons, filter_nil. case_decide; simpl; lia.
Qed.

Lemma occurrences_bounds (v : callsign) (tvec : list callsign) :
  0 <= occurrences v tvec <= ssize tvec.
Proof.
  unfold occurrences, ssize.
  pose proof (length_filter (fun x => x = v) tvec). lia.
Qed.

Lemma count_values_add_all_lookup (tvec : list callsign) (v : callsign) :
  ssize tvec <= INT_MAX ->
  count_values_add_all tvec ∅ !! v =
  if decide (occurrences v tvec = 0) then None else Some (occurrences v tvec).
Proof.
  unfold count_values_add_all.
  induction tvec as [|x tvec IH] using rev_ind; intros Hlen.
  - simpl. by rewrite lookup_empty.
  - rewrite foldl_snoc, occurrences_snoc, count_values_add_lookup.
    unfold ssize in Hlen. rewrite length_app in Hlen. simpl in Hlen.
    unfold INT_MAX in *.
    pose proof (occurrences_bounds v tvec) as Hb. unfold ssize in Hb.
    assert (ssize tvec <= 2147483647) as Hvec by (unfold ssize; lia).
    destruct (decide (x = v)) as [Heq|Hne].
    + subst v. rewrite (IH Hvec).
      rewrite (decide_False (P := _ + 1 = 0)) by lia.
      case_decide as H0; simpl.
      * rewrite H0. by rewrite wrap32_small by lia.
      * by rewrite wrap32_small by lia.
    + rewrite (IH Hvec), Z.add_0_r. done.
Qed.

Lemma sorted_invert_spec (h : gmap callsign Z) (v : callsign) (n : Z) :
  v ∈ default ∅ (sorted_invert h !! n) <-> h !! v = Some n.
Proof.
  unfold sorted_invert.
  apply (map_fold_weak_ind
           (fun (rv : gmap Z (gset callsign)) (h : gmap callsign Z) =>
              v ∈ default ∅ (rv !! n) <-> h !! v = Some n)).
  - rewrite !lookup_empty. simpl. rewrite elem_of_empty. done.
  - intros k x m r Hk IH.
    destruct (decide (x = n)) as [->|Hx].
    + rewrite lookup_insert_eq. simpl. rewrite elem_of_union, elem_of_singleton, IH.
      destruct (decide (k = v)) as [->|Hkv].
      * rewrite lookup_insert_eq. split; [done | by left].
      * rewrite lookup_insert_ne by done. split; [intros [?|?]; done | by right].
    + rewrite lookup_insert_ne by done. rewrite IH.
      destruct (decide (k = v)) as [->|Hkv].
      * rewrite lookup_insert_eq, Hk. split; [done | intros [= ?]; done].
      * by rewrite lookup_insert_ne.
Qed.

Lemma sorted_invert_nonempty (h : gmap callsign Z) :
  map_Forall (fun _ s => s <> (∅ : gset callsign)) (sorted_invert h).
Proof.
  unfold sorted_invert.
  apply (map_fold_weak_ind
           (fun (rv : gmap Z (gset callsign)) (h : gmap callsign Z) =>
              map_Forall (fun _ s => s <> (∅ : gset callsign)) rv)).
  - apply map_Forall_empty.
  - intros k x m r Hk IH. apply map_Forall_insert_2; [|done].
    intros Hempty.
    assert (k ∈ (∅ : gset callsign)) as Hin; [|by apply elem_of_empty in Hin].
    rewrite <- Hempty. apply elem_of_union. left. by apply elem_of_singleton.
Qed.

Lemma maximum_snoc (entries : list (callsign * Z)) (value : callsign) (n : Z) :
  -2147483648 < n -> maximum (entries ++ [(value, n)]) = (value, n).
Proof.
  intros Hn. unfold maximum. rewrite foldl_snoc.
  by destruct (Z.ltb_spec (-2147483648) n); [|lia].
Qed.

Lemma minimum_snoc (entries : list (callsign * Z)) (value : callsign) (n : Z) :
  n < 2147483647 -> minimum (entries ++ [(value, n)]) = (value, n).
Proof.
  intros Hn. unfold minimum. rewrite foldl_snoc.
  by destruct (Z.ltb_spec n 2147483647); [|lia].
Qed.

(** ** The constructor of [small_qso] *)

Section ConstructorProps.

Variable from_string_int : callsign -> Z.
Variable contains_letter contains_digit : callsign -> bool.
Variable substring : callsign -> nat -> nat -> callsign.
Variable timegm : tm -> Z.

Local Abbreviation construct :=
  (small_qso_of_fields from_string_int contains_letter contains_digit
                       substring timegm).

Lemma small_qso_of_fields_cases (qso_id : Z) (qso_fields : list callsign) :
  construct qso_id qso_fields = default_small_qso \/
  ((9 <= length qso_fields)%nat /\
   _tcall (construct qso_id qso_fields) = field qso_fields 5 /\
   _rcall (construct qso_id qso_fields) = field qso_fields 8 /\
   _qrg (construct qso_id qso_fields) = from_string_int (field qso_fields 1) /\
   band_from_qrg (_qrg (construct qso_id qso_fields))
   = Some (_band (construct qso_id qso_fields)) /\
   _id (construct qso_id qso_fields) = qso_id /\
   _rel_mins (construct qso_id qso_fields) = 0 /\
   contains_letter (field qso_fields 5) = true /\
   contains_digit (field qso_fields 5) = true /\
   contains_letter (field qso_fields 8) = true /\
   contains_digit (field qso_fields 8) = true).
Proof.
  unfold small_qso_of_fields.
  destruct (Nat.ltb_spec (length qso_fields) 9) as [Hlen|Hlen]; [by left|].
  destruct (contains_letter (field qso_fields 5)); [|by left].
  destruct (contains_digit (field qso_fields 5)); [|by left].
  destruct (contains_letter (field qso_fields 8)); [|by left].
  destruct (contains_digit (field qso_fields 8)); [|by left].
  simpl.
  destruct (band_from_qrg (from_string_int (field qso_fields 1))) as [band|] eqn:Hb;
    [|by left].
  right. simpl. by rewrite Hb.
Qed.

Lemma small_qso_of_fields_constructed (qso_id : Z) (qso_fields : list callsign) :
  constructed (construct qso_id qso_fields).
Proof.
  destruct (small_qso_of_fields_cases qso_id qso_fields)
    as [->|(_ & _ & _ & _ & Hb & _)]; [by left|].
  right. unfold valid_frequency. rewrite Hb. by eexists.
Qed.

Lemma accept_default_small_qso (cp : contest_parameters) :
  accept_qso cp default_small_qso = None.
Proof. unfold accept_qso. by destruct (in_contest_period _ _). Qed.

Lemma construct_all_lookup (lines : list (list callsign)) (qso_id : Z) (i : nat)
    (qso_fields : list callsign) :
  0 <= qso_id -> qso_id + ssize lines <= INT_MAX ->
  lines !! i = Some qso_fields ->
  construct_all from_string_int contains_letter contains_digit substring timegm
                qso_id lines !! i
  = Some (construct (qso_id + Z.of_nat i) qso_fields).
Proof.
  revert qso_id i. unfold ssize, INT_MAX.
  induction lines as [|l lines IH]; intros qso_id i H0 Hmax Hi; [done|].
  simpl in Hmax. destruct i as [|i]; simpl in *.
  - injection Hi as ->. by rewrite Z.add_0_r.
  - rewrite wrap32_small by lia.
    rewrite (IH (qso_id + 1) i) by (done || lia).
    do 2 f_equal. lia.
Qed.

End ConstructorProps.

(** ** A QSO logged at the start of the contest is stored *)

Lemma plain_call_legal (s : callsign) :
  plain_call s -> has_illegal_char s = false.
Proof.
  intros [_ Hs]. unfold has_illegal_char.
  induction Hs as [|c s Hc _ IH]; [done|].
  simpl. rewrite IH, orb_false_r.
  rewrite bool_decide_true; [done|].
  unfold legal_chars.
  change (cs "ABCDEFGHIJKLMNOPQRSTUVWXYZ1234567890/")
    with (cs "ABCDEFGHIJKLMNOPQRSTUVWXYZ1234567890" ++ cs "/").
  apply elem_of_app. by left.
Qed.

Lemma plain_call_remove_from_end (s e : callsign) :
  plain_call s -> "/"%char ∈ e -> remove_from_end s e = s.
Proof.
  intros [_ Hs] He. unfold remove_from_end.
  case_bool_decide as Hlen; [|done].
  case_bool_decide as Hdrop; [|done].
  exfalso.
  assert ("/"%char ∈ s) as Hin.
  { rewrite <- (take_drop (length s - length e) s), Hdrop.
    apply elem_of_app. by right. }
  pose proof (proj1 (Forall_forall _ _) Hs _ Hin) as Hc.
  assert ("/"%char ∉ cs "ABCDEFGHIJKLMNOPQRSTUVWXYZ1234567890") as Hno
    by (apply (bool_decide_unpack _); by vm_compute).
  done.
Qed.

Lemma accept_plain_qso (cp : contest_parameters) (qso : small_qso) :
  plain_qso qso -> in_contest_period cp (_time qso) = true ->
  accept_qso cp qso =
  Some (set_rel_mins (wrap32 ((_time qso - _t_start cp) ÷ 60)) qso).
Proof.
  intros (Ht & Hr & Hne) Hin.
  assert ("/"%char ∈ cs "/QRP") as H1 by (apply (bool_decide_unpack _); by vm_compute).
  assert ("/"%char ∈ cs "/QRPP") as H2 by (apply (bool_decide_unpack _); by vm_compute).
  unfold accept_qso. rewrite Hin. cbn [negb].
  destruct qso as [tcall rcall band qrg time rel id].
  cbn [_tcall _rcall _time set_rel_mins set_tcall set_rcall _band _qrg _id _rel_mins] in *.
  rewrite !(plain_call_remove_from_end tcall) by done.
  rewrite !(plain_call_remove_from_end rcall) by done.
  rewrite bool_decide_false
    by (destruct Ht as [Hl _]; destruct tcall; [simpl in Hl; lia | done]).
  destruct Ht as [Hlt Hct], Hr as [Hlr Hcr].
  rewrite (proj2 (Nat.ltb_ge _ _) Hlt), (proj2 (Nat.ltb_ge _ _) Hlr).
  cbn [orb].
  rewrite (plain_call_legal tcall), (plain_call_legal rcall) by done.
  cbn [orb]. by rewrite bool_decide_false.
Qed.

Lemma accept_qso_outside (cp : contest_parameters) (qso : small_qso) :
  in_contest_period cp (_time qso) = false -> accept_qso cp qso = None.
Proof. intros Hin. unfold accept_qso. by rewrite Hin. Qed.

Lemma read_log_snoc (cp : contest_parameters) (qso_lines : list small_qso)
    (line : small_qso) :
  read_log cp (qso_lines ++ [line]) =
  match accept_qso cp line with
  | Some qso =>
      <[_tcall qso := default [] (read_log cp qso_lines !! _tcall qso) ++ [qso]]>
        (read_log cp qso_lines)
  | None => read_log cp qso_lines
  end.
Proof. unfold read_log. by rewrite foldl_app. Qed.

(** An accepted QSO of a file is in the log that the file gives for its
    call. *)
Lemma read_log_stores (cp : contest_parameters) (qso_lines : list small_qso)
    (qso qso' : small_qso) :
  qso ∈ qso_lines -> accept_qso cp qso = Some qso' ->
  exists qsos, read_log cp qso_lines !! _tcall qso' = Some qsos /\ qso' ∈ qsos.
Proof.
  intros Hin Hacc.
  induction qso_lines as [|line qso_lines IH] using rev_ind.
  { by apply elem_of_nil in Hin. }
  rewrite read_log_snoc.
  apply elem_of_app in Hin as [Hin|Hin].
  - destruct (IH Hin) as (qsos & Hl & Hq).
    destruct (accept_qso cp line) as [q|]; [|by exists qsos].
    destruct (decide (_tcall q = _tcall qso')) as [Heq|Hne].
    + rewrite Heq, lookup_insert_eq, Hl. simpl.
      eexists. split; [done|]. apply elem_of_app. by left.
    + rewrite lookup_insert_ne by done. by exists qsos.
  - apply list_elem_of_singleton in Hin as ->. rewrite Hacc.
    rewrite lookup_insert_eq. eexists. split; [done|].
    apply elem_of_app. right. apply list_elem_of_here.
Qed.

(** What the first file of the directory gives for a call is what
    [process_directory] keeps for it. *)
Lemma ingest_first_file (opts : options) (cp : contest_parameters)
    (qso_lines : list small_qso) (logs : list (list small_qso))
    (tcall : callsign) (qsos : list small_qso) :
  read_log cp qso_lines !! tcall = Some qsos ->
  all_qsos (ingest opts cp (qso_lines :: logs)) !! tcall = Some qsos.
Proof.
  intros Hl. unfold ingest.
  destruct (ingest_lookup_from opts cp (qso_lines :: logs) (mk_ingested ∅ ∅ 0)
                               tcall) as [H1 _].
  rewrite H1. simpl. rewrite lookup_empty.
  unfold logs_of. simpl. by rewrite Hl.
Qed.

(** C5. The contest window is half-open.  For a contest of [hrs] hours
    ([hrs] positive, and small enough for [hrs * 3600] to be an [int]) that
    starts at [start]: the time [start] is in the contest period and the time
    [start + hrs * 3600] is not.  The ingestor accepts a QSO between two
    different plain calls that is logged at [start], with relative minute 0,
    and rejects every QSO logged at [start + hrs * 3600].  A QSO between two
    different plain calls logged within the window is stored in the log that
    its file gives for its call, and in [all_qsos] when the file is the first
    of the directory.  Every QSO the ingestor retains (in the QSOs of one
    log, and in [all_qsos] after all the logs) has its time [t] in
    [start <= t < start + hrs * 3600]. *)
Theorem contest_window_half_open (dir : callsign) (start hrs : Z) :
  0 < hrs <= 596523 ->
  let cp := make_contest_parameters dir start hrs in
  in_contest_period cp start = true /\
  in_contest_period cp (start + hrs * 3600) = false /\
  (forall qso,
     plain_qso qso -> _time qso = start ->
     accept_qso cp qso = Some (set_rel_mins 0 qso)) /\
  (forall qso,
     _time qso = start + hrs * 3600 -> accept_qso cp qso = None) /\
  (forall qso_lines qso,
     qso ∈ qso_lines -> plain_qso qso ->
     start <= _time qso < start + hrs * 3600 ->
     exists qsos,
       read_log cp qso_lines !! _tcall qso = Some qsos /\
       set_rel_mins ((_time qso - start) `div` 60) qso ∈ qsos) /\
  (forall opts qso_lines logs qso,
     qso ∈ qso_lines -> plain_qso qso ->
     start <= _time qso < start + hrs * 3600 ->
     exists qsos,
       all_qsos (ingest opts cp (qso_lines :: logs)) !! _tcall qso = Some qsos /\
       set_rel_mins ((_time qso - start) `div` 60) qso ∈ qsos) /\
  (forall qso_lines tcall qsos qso,
     read_log cp qso_lines !! tcall = Some qsos -> qso ∈ qsos ->
     start <= _time qso < start + hrs * 3600) /\
  (forall opts logs tcall qsos qso,
     all_qsos (ingest opts cp logs) !! tcall = Some qsos -> qso ∈ qsos ->
     start <= _time qso < start + hrs * 3600).
Proof.
  intros Hhrs cp.
  assert (_t_start cp = start) as Hs by done.
  assert (_t_end cp = start + hrs * 3600) as He.
  { unfold cp, make_contest_parameters. simpl.
    rewrite wrap32_small; [done | lia]. }
  assert (forall qso qso', accept_qso cp qso = Some qso' ->
            start <= _time qso' < start + hrs * 3600) as Hacc.
  { intros qso qso' H. apply accept_qso_time in H as [-> H]. lia. }
  assert (forall qso, plain_qso qso ->
            start <= _time qso < start + hrs * 3600 ->
            accept_qso cp qso =
            Some (set_rel_mins ((_time qso - start) `div` 60) qso)) as Hplain.
  { intros qso Hp Ht.
    rewrite (accept_plain_qso cp qso Hp) by (apply in_contest_period_spec; lia).
    rewrite Hs. do 2 f_equal.
    rewrite Z.quot_div_nonneg by lia.
    apply wrap32_small.
    assert (0 <= (_time qso - start) `div` 60) by (apply Z.div_pos; lia).
    assert ((_time qso - start) `div` 60 <= _time qso - start)
      by (apply Z.div_le_upper_bound; lia).
    lia. }
  split; [apply in_contest_period_spec; lia|].
  split.
  { apply not_true_is_false. rewrite in_contest_period_spec. lia. }
  split.
  { intros qso Hp Ht. rewrite (Hplain qso Hp) by lia.
    rewrite Ht, Z.sub_diag. done. }
  split.
  { intros qso Ht. apply accept_qso_outside.
    apply not_true_is_false. rewrite in_contest_period_spec. lia. }
  split.
  { intros qso_lines qso Hin Hp Ht.
    destruct (read_log_stores cp qso_lines qso _ Hin (Hplain qso Hp Ht))
      as (qsos & Hl & Hq).
    by exists qsos. }
  split.
  { intros opts qso_lines logs qso Hin Hp Ht.
    destruct (read_log_stores cp qso_lines qso _ Hin (Hplain qso Hp Ht))
      as (qsos & Hl & Hq).
    exists qsos. split; [|done].
    by apply (ingest_first_file opts cp qso_lines logs). }
  split.
  - intros qso_lines tcall qsos qso Hl Hin.
    pose proof (read_log_Forall _ cp qso_lines Hacc _ _ Hl) as HF.
    by apply (proj1 (Forall_forall _ _) HF).
  - intros opts logs tcall qsos qso Hl Hin.
    pose proof (ingest_Forall _ opts cp logs Hacc _ _ Hl) as HF.
    by apply (proj1 (Forall_forall _ _) HF).
Qed.

Lemma contest_window_half_open_witness :
  0 < 48 <= 596523 /\
  let cp := make_contest_parameters (cs "logs") 1666994400 48 in
  in_contest_period cp 1666994400 = true /\
  in_contest_period cp (1666994400 + 48 * 3600) = false /\
  (forall qso,
     plain_qso qso -> _time qso = 1666994400 ->
     accept_qso cp qso = Some (set_rel_mins 0 qso)) /\
  (forall qso,
     _time qso = 1666994400 + 48 * 3600 -> accept_qso cp qso = None) /\
  (forall qso_lines qso,
     qso ∈ qso_lines -> plain_qso qso ->
     1666994400 <= _time qso < 1666994400 + 48 * 3600 ->
     exists qsos,
       read_log cp qso_lines !! _tcall qso = Some qsos /\
       set_rel_mins ((_time qso - 1666994400) `div` 60) qso ∈ qsos) /\
  (forall opts qso_lines logs qso,
     qso ∈ qso_lines -> plain_qso qso ->
     1666994400 <= _time qso < 1666994400 + 48 * 3600 ->
     exists qsos,
       all_qsos (ingest opts cp (qso_lines :: logs)) !! _tcall qso = Some qsos /\
       set_rel_mins ((_time qso - 1666994400) `div` 60) qso ∈ qsos) /\
  (forall qso_lines tcall qsos qso,
     read_log cp qso_lines !! tcall = Some qsos -> qso ∈ qsos ->
     1666994400 <= _time qso < 1666994400 + 48 * 3600) /\
  (forall opts logs tcall qsos qso,
     all_qsos (ingest opts cp logs) !! tcall = Some qsos -> qso ∈ qsos ->
     1666994400 <= _time qso < 1666994400 + 48 * 3600).
Proof.
  assert (0 < 48 <= 596523) as H by lia.
  split; [exact H|].
  exact (contest_window_half_open (cs "logs") 1666994400 48 H).
Defined.


(** * Further properties of the code

    ** The busts among a set of calls *)

(** X1. [possible_busts] lists for a call of the container exactly the calls
    of the container that are busts of it; a call has an entry exactly when
    it has such a bust (so no entry holds an empty set, and a call outside
    the container has none), and the listing is symmetric. *)
Theorem possible_busts_lists_the_busts (calls : gset callsign) (k : callsign) :
  (forall c, c ∈ busts_of (possible_busts calls) k <->
             k ∈ calls /\ c ∈ calls /\ is_bust k c = true) /\
  (is_Some (possible_busts calls !! k) <->
   exists c, k ∈ calls /\ c ∈ calls /\ is_bust k c = true) /\
  busts_symmetric (possible_busts calls).
Proof.
  split; [|split].
  - intros c. apply possible_busts_spec.
  - apply possible_busts_is_Some.
  - apply possible_busts_symmetric.
Qed.

(** ** Minutes and iterators *)

(** X2. For a non-empty vector in the order of its relative minutes, none of
    them above [max_rel_mins], [time_map] returns, and the entries [m] and
    [m + 1] of the map delimit exactly the QSOs of the minute [m], for every
    minute [m] of the contest. *)
Theorem time_map_delimits_minutes (vec : list small_qso) (max_rel_mins m : Z) :
  StronglySorted by_rel_mins vec -> vec <> [] ->
  Forall (fun q => _rel_mins q <= max_rel_mins) vec ->
  0 <= m <= max_rel_mins ->
  exists (rv : list nat) (first last : nat),
    time_map vec max_rel_mins = Some rv /\
    at_ rv m = Some first /\
    at_ rv (m + 1) = Some last /\
    (first <= last <= length vec)%nat /\
    range vec first last = filter (fun q => _rel_mins q = m) vec.
Proof.
  intros Hs Hne Hmax Hm.
  exists (time_map_entries vec max_rel_mins),
         (count_before m vec), (count_before (m + 1) vec).
  split; [apply time_map_Some; [done | lia]|].
  split; [by apply at_time_map|].
  split.
  { apply at_time_map_succ; try done.
    intros q Hq. by apply (proj1 (Forall_forall _ _) Hmax). }
  split.
  { split; [apply count_before_mono; lia | apply count_before_le_length]. }
  rewrite (range_count_before m (m + 1) vec Hs).
  apply filter_ext_in. intros q _. lia.
Qed.

Lemma time_map_delimits_minutes_witness :
  exists (rv : list nat) (first last : nat),
    time_map example_pruned_vec 59 = Some rv /\
    at_ rv 7 = Some first /\
    at_ rv (7 + 1) = Some last /\
    (first <= last <= length example_pruned_vec)%nat /\
    range example_pruned_vec first last =
    filter (fun q => _rel_mins q = 7) example_pruned_vec.
Proof.
  apply (time_map_delimits_minutes example_pruned_vec 59 7).
  - apply (bool_decide_unpack _). vm_compute. exact I.
  - discriminate.
  - apply (bool_decide_unpack _). vm_compute. exact I.
  - lia.
Defined.

(** X3. On a vector in the order of its relative minutes, [get_bounds]
    returns a range inside the vector that holds exactly the QSOs logged
    within [ALLOWED_SKEW] minutes of the target and between the two limits,
    both ends included. *)
Theorem get_bounds_window (target_minutes minimum_minutes maximum_minutes
    ALLOWED_SKEW : Z) (vec : list small_qso) :
  StronglySorted by_rel_mins vec ->
  - 2147483648 <= target_minutes - ALLOWED_SKEW ->
  target_minutes + ALLOWED_SKEW <= INT_MAX ->
  (fst (get_bounds target_minutes minimum_minutes maximum_minutes
                   ALLOWED_SKEW vec)
   <= snd (get_bounds target_minutes minimum_minutes maximum_minutes
                      ALLOWED_SKEW vec)
   <= length vec)%nat /\
  range vec
        (fst (get_bounds target_minutes minimum_minutes maximum_minutes
                         ALLOWED_SKEW vec))
        (snd (get_bounds target_minutes minimum_minutes maximum_minutes
                         ALLOWED_SKEW vec)) =
  filter (fun q => Z.max (target_minutes - ALLOWED_SKEW) minimum_minutes
                   <= _rel_mins q <=
                   Z.min (target_minutes + ALLOWED_SKEW) maximum_minutes) vec.
Proof.
  intros Hs _ _.
  pose proof (get_bounds_sorted target_minutes minimum_minutes maximum_minutes
                                ALLOWED_SKEW vec Hs) as H.
  by destruct (get_bounds _ _ _ _ vec) as [lb ub].
Qed.

Lemma get_bounds_window_witness :
  (fst (get_bounds 5 0 59 CLOCK_SKEW example_pruned_vec)
   <= snd (get_bounds 5 0 59 CLOCK_SKEW example_pruned_vec)
   <= length example_pruned_vec)%nat /\
  range example_pruned_vec
        (fst (get_bounds 5 0 59 CLOCK_SKEW example_pruned_vec))
        (snd (get_bounds 5 0 59 CLOCK_SKEW example_pruned_vec)) =
  filter (fun q => Z.max (5 - CLOCK_SKEW) 0 <= _rel_mins q
                   <= Z.min (5 + CLOCK_SKEW) 59) example_pruned_vec.
Proof.
  apply (get_bounds_window 5 0 59 CLOCK_SKEW example_pruned_vec).
  - apply (bool_decide_unpack _). vm_compute. exact I.
  - unfold CLOCK_SKEW. lia.
  - unfold CLOCK_SKEW, INT_MAX. lia.
Defined.

(** ** What [process_directory] keeps of the logs *)

(** X4. Every log that [process_directory] keeps is non-empty and filed
    under the transmitted call of its QSOs; each of its QSOs lies in the
    contest period, has two distinct calls of at least three legal
    characters, and carries the number of whole minutes since the start of
    the contest, which is below sixty times the hours of the contest. *)
Theorem ingest_keeps_checked_qsos (opts : options) (dir : callsign)
    (start hrs : Z) (logs : list (list small_qso)) :
  0 < hrs <= 596523 ->
  map_Forall (fun tcall qsos =>
                qsos <> [] /\
                Forall (fun q =>
                          stored_qso (make_contest_parameters dir start hrs)
                                     tcall q /\
                          in_contest_qso start (hrs * 60 - 1) q) qsos)
             (all_qsos (ingest opts (make_contest_parameters dir start hrs)
                               logs)).
Proof.
  intros Hh tcall qsos Hl.
  destruct (ingest_stored opts (make_contest_parameters dir start hrs) logs
                          tcall qsos Hl) as [Hne Hall].
  split; [done|].
  apply Forall_forall. intros q Hq.
  pose proof (proj1 (Forall_forall _ _) Hall q Hq) as Hst.
  split; [done|].
  by apply (stored_qso_rel_mins dir start hrs tcall q).
Qed.

Lemma ingest_keeps_checked_qsos_witness :
  map_Forall (fun tcall qsos =>
                qsos <> [] /\
                Forall (fun q =>
                          stored_qso (make_contest_parameters (cs "logs")
                                        example_start 1) tcall q /\
                          in_contest_qso example_start (1 * 60 - 1) q) qsos)
             (all_qsos (ingest default_options
                               (make_contest_parameters (cs "logs")
                                  example_start 1) example_logs)).
Proof.
  apply (ingest_keeps_checked_qsos default_options (cs "logs") example_start 1
                                   example_logs).
  lia.
Defined.

(** X5. When several files hold a log of the same transmitted call, the log
    of the first of them in the order of the directory is the one kept; the
    call is an entrant of the list as soon as the log of any of the files has
    at least [TL_LIMIT] QSOs, kept or not. *)
Theorem first_log_of_a_call_is_kept (opts : options) (cp : contest_parameters)
    (logs : list (list small_qso)) (tcall : callsign) :
  all_qsos (ingest opts cp logs) !! tcall = head (logs_of cp tcall logs) /\
  (tcall ∈ scp_calls (ingest opts cp logs) <->
   exists qsos, qsos ∈ logs_of cp tcall logs /\ TL_LIMIT opts <= ssize qsos).
Proof.
  unfold ingest.
  destruct (ingest_lookup_from opts cp logs (mk_ingested ∅ ∅ 0) tcall)
    as [H1 H2].
  split.
  - rewrite H1. simpl. by rewrite lookup_empty.
  - rewrite H2. simpl. rewrite elem_of_empty. tauto.
Qed.

(** ** The passes of [process_band] *)

(** X6. The first pass never throws on vectors of QSOs of the contest that
    are in the order of their minutes.  Where the identifiers are distinct it
    removes exactly the pruned QSOs for which some QSO of the band, logged at
    most [CLOCK_SKEW] minutes away, satisfies [tcall_match]. *)
Theorem pass_A_removes_the_matched
    (calls_with_no_freq_info calls_with_poor_freq_info : gset callsign)
    (max_rel_mins : Z) (all_vec pruned_vec : list small_qso) :
  StronglySorted by_rel_mins all_vec -> all_vec <> [] ->
  Forall (fun q => 0 <= _rel_mins q <= max_rel_mins) all_vec ->
  StronglySorted by_rel_mins pruned_vec -> pruned_vec <> [] ->
  Forall (fun q => 0 <= _rel_mins q <= max_rel_mins) pruned_vec ->
  NoDup (map _id pruned_vec) ->
  exists all_time_map,
    time_map all_vec max_rel_mins = Some all_time_map /\
    pass_A calls_with_no_freq_info calls_with_poor_freq_info max_rel_mins
           all_vec pruned_vec all_time_map
    = Some (filter (fun rqso =>
                      marked_A calls_with_no_freq_info
                               calls_with_poor_freq_info all_vec rqso = false)
                   pruned_vec).
Proof.
  intros Hsa Hna Hia Hsp Hnp Hip Hnd.
  exists (time_map_entries all_vec max_rel_mins). split.
  { apply time_map_Some; [done|].
    destruct all_vec as [|q l]; [done|].
    apply Forall_cons_1 in Hia as [Hq _]. lia. }
  rewrite pass_A_spec; try done.
  - f_equal. by apply remove_marked_NoDup.
  - intros q Hq. by apply (proj1 (Forall_forall _ _) Hia).
  - intros q Hq. by apply (proj1 (Forall_forall _ _) Hip).
Qed.

Lemma pass_A_removes_the_matched_witness :
  exists all_time_map,
    time_map (build_vec example_all_20m) 59 = Some all_time_map /\
    pass_A ∅ ∅ 59 (build_vec example_all_20m) example_pruned_vec all_time_map
    = Some (filter (fun rqso =>
                      marked_A ∅ ∅ (build_vec example_all_20m) rqso = false)
                   example_pruned_vec).
Proof.
  apply (pass_A_removes_the_matched ∅ ∅ 59 (build_vec example_all_20m)
                                    example_pruned_vec).
  - apply (bool_decide_unpack _). vm_compute. exact I.
  - by vm_compute.
  - apply (bool_decide_unpack _). vm_compute. exact I.
  - apply (bool_decide_unpack _). vm_compute. exact I.
  - discriminate.
  - apply (bool_decide_unpack _). vm_compute. exact I.
  - apply (bool_decide_unpack _). vm_compute. exact I.
Defined.

(** X7. On the logs of a band, each in chronological order and made of QSOs
    of the contest, [is_stn_running] never throws.  It answers whether the
    call is an entrant of the band and, for an entrant with good frequency
    information, whether its own log has a QSO at most [CLOCK_SKEW] minutes
    and [FREQ_SKEW] kHz away; for another entrant, whether a log other than
    the one of the ignored call has such a QSO with it. *)
Theorem is_stn_running_answer
    (all_qsos_this_band : gmap callsign (list small_qso))
    (calls_with_no_freq_info calls_with_poor_freq_info : gset callsign)
    (start max_rel_mins : Z) (call : callsign) (qso : small_qso) :
  band_logs start max_rel_mins all_qsos_this_band ->
  build_vec all_qsos_this_band <> [] ->
  0 <= _rel_mins qso <= max_rel_mins ->
  exists all_time_map,
    time_map (build_vec all_qsos_this_band) max_rel_mins = Some all_time_map /\
    is_stn_running all_qsos_this_band calls_with_no_freq_info
      calls_with_poor_freq_info call (_rel_mins qso) (_qrg qso)
      (tcalls all_qsos_this_band) (build_vec all_qsos_this_band)
      all_time_map 0 max_rel_mins (_tcall qso)
    = Some (running_entrant all_qsos_this_band calls_with_no_freq_info
              calls_with_poor_freq_info (build_vec all_qsos_this_band) call
              qso).
Proof.
  intros Hall Hne Hq.
  exists (time_map_entries (build_vec all_qsos_this_band) max_rel_mins).
  split; [apply time_map_Some; [done | lia]|].
  apply is_stn_running_spec; try done.
  - by apply (band_logs_sorted start max_rel_mins).
  - intros q Hin. by destruct (band_logs_build_vec start max_rel_mins _ q Hall Hin).
  - intros c log Hlog. destruct (Hall c log Hlog) as [Hs HF].
    eapply (chronological_by_rel_mins start); [|done].
    eapply Forall_impl; [exact HF|]. by intros q [? _].
  - intros c log q Hlog Hin. destruct (Hall c log Hlog) as [_ HF].
    by destruct (proj1 (Forall_forall _ _) HF q Hin).
Qed.

Lemma is_stn_running_answer_witness :
  exists all_time_map,
    time_map (build_vec example_all_20m) 59 = Some all_time_map /\
    is_stn_running example_all_20m ∅ ∅ (cs "K1AAA")
      (_rel_mins example_qso_second) (_qrg example_qso_second)
      (tcalls example_all_20m) (build_vec example_all_20m)
      all_time_map 0 59 (_tcall example_qso_second)
    = Some (running_entrant example_all_20m ∅ ∅ (build_vec example_all_20m)
                            (cs "K1AAA") example_qso_second).
Proof.
  apply (is_stn_running_answer example_all_20m ∅ ∅ example_start 59
                               (cs "K1AAA") example_qso_second).
  - apply (bool_decide_unpack _). vm_compute. exact I.
  - by vm_compute.
  - by vm_compute.
Defined.

(** X8. The second pass never throws on the logs of a band.  Where the
    identifiers are distinct it removes exactly the QSOs whose received call
    is a bust of an entrant of the band that [is_stn_running] finds running
    at the minute and on the frequency of the QSO. *)
Theorem pass_B_removes_busts_of_running_entrants
    (all_qsos_this_band : gmap callsign (list small_qso))
    (calls_with_no_freq_info calls_with_poor_freq_info : gset callsign)
    (start max_rel_mins : Z) (pruned_vec : list small_qso) :
  band_logs start max_rel_mins all_qsos_this_band ->
  build_vec all_qsos_this_band <> [] ->
  Forall (fun q => 0 <= _rel_mins q <= max_rel_mins) pruned_vec ->
  NoDup (map _id pruned_vec) ->
  exists all_time_map,
    time_map (build_vec all_qsos_this_band) max_rel_mins = Some all_time_map /\
    pass_B all_qsos_this_band calls_with_no_freq_info
           calls_with_poor_freq_info max_rel_mins (tcalls all_qsos_this_band)
           (build_vec all_qsos_this_band) all_time_map pruned_vec
    = Some (filter (fun qso =>
                      marked_B all_qsos_this_band calls_with_no_freq_info
                               calls_with_poor_freq_info
                               (build_vec all_qsos_this_band) qso = false)
                   pruned_vec).
Proof.
  intros Hall Hne Hip Hnd.
  exists (time_map_entries (build_vec all_qsos_this_band) max_rel_mins).
  split.
  { apply time_map_Some; [done|].
    destruct (build_vec all_qsos_this_band) as [|q l] eqn:Hl; [done|].
    assert (q ∈ build_vec all_qsos_this_band) as Hin
      by (rewrite Hl; apply list_elem_of_here).
    destruct (band_logs_build_vec start max_rel_mins _ q Hall Hin). lia. }
  rewrite pass_B_spec; try done.
  - f_equal. by apply remove_marked_NoDup.
  - by apply (band_logs_sorted start max_rel_mins).
  - intros q Hin. by destruct (band_logs_build_vec start max_rel_mins _ q Hall Hin).
  - intros c log Hlog. destruct (Hall c log Hlog) as [Hs HF].
    eapply (chronological_by_rel_mins start); [|done].
    eapply Forall_impl; [exact HF|]. by intros q [? _].
  - intros c log q Hlog Hin. destruct (Hall c log Hlog) as [_ HF].
    by destruct (proj1 (Forall_forall _ _) HF q Hin).
  - intros q Hq. by apply (proj1 (Forall_forall _ _) Hip).
Qed.

Lemma pass_B_removes_busts_of_running_entrants_witness :
  exists all_time_map,
    time_map (build_vec example_all_20m) 59 = Some all_time_map /\
    pass_B example_all_20m ∅ ∅ 59 (tcalls example_all_20m)
           (build_vec example_all_20m) all_time_map example_pruned_vec
    = Some (filter (fun qso =>
                      marked_B example_all_20m ∅ ∅ (build_vec example_all_20m)
                               qso = false)
                   example_pruned_vec).
Proof.
  apply (pass_B_removes_busts_of_running_entrants example_all_20m ∅ ∅
           example_start 59 example_pruned_vec).
  - apply (bool_decide_unpack _). vm_compute. exact I.
  - by vm_compute.
  - apply (bool_decide_unpack _). vm_compute. exact I.
  - apply (bool_decide_unpack _). vm_compute. exact I.
Defined.

(** X9. Among QSOs of the contest with distinct identifiers the third pass
    removes exactly those for which a QSO of the vector, logged at most
    [RUN_TIME_RANGE] minutes away, has a received call that is a bust of
    theirs and a matching frequency.  The order in which the received calls
    are visited has no influence on the result. *)
Theorem pass_C_removes_busts_of_runs
    (calls_with_no_freq_info calls_with_poor_freq_info : gset callsign)
    (start max_rel_mins : Z) (pruned_vec : list small_qso) :
  Forall (in_contest_qso start max_rel_mins) pruned_vec ->
  NoDup (map _id pruned_vec) ->
  pass_C calls_with_no_freq_info calls_with_poor_freq_info max_rel_mins
         pruned_vec
  = filter (fun rqso =>
              marked_C calls_with_no_freq_info calls_with_poor_freq_info
                       pruned_vec rqso = false) pruned_vec /\
  forall order : list callsign,
    Forall (fun q => _rcall q ∈ order) pruned_vec ->
    erase_ids
      (foldl (pass_C_rcall calls_with_no_freq_info calls_with_poor_freq_info
                max_rel_mins (build_rcall_logs pruned_vec)
                (possible_busts (list_to_set (map _rcall pruned_vec))))
             ∅ order) pruned_vec
    = pass_C calls_with_no_freq_info calls_with_poor_freq_info max_rel_mins
             pruned_vec.
Proof.
  intros Hin Hnd.
  assert (rel_mins_monotone pruned_vec) as Hmono.
  { apply (in_contest_monotone start max_rel_mins).
    intros q Hq. by apply (proj1 (Forall_forall _ _) Hin). }
  assert (forall q, q ∈ pruned_vec -> 0 <= _rel_mins q <= max_rel_mins) as Hr.
  { intros q Hq. by destruct (proj1 (Forall_forall _ _) Hin q Hq). }
  split.
  - rewrite pass_C_spec by done. by apply remove_marked_NoDup.
  - intros order Ho.
    rewrite pass_C_spec by done.
    rewrite (pass_C_order _ _ max_rel_mins pruned_vec Hmono Hr order); [done|].
    intros c (q & Hq & <-). by apply (proj1 (Forall_forall _ _) Ho).
Qed.

Lemma pass_C_removes_busts_of_runs_witness :
  pass_C ∅ ∅ 59 example_pruned_vec
  = filter (fun rqso => marked_C ∅ ∅ example_pruned_vec rqso = false)
           example_pruned_vec /\
  forall order : list callsign,
    Forall (fun q => _rcall q ∈ order) example_pruned_vec ->
    erase_ids
      (foldl (pass_C_rcall ∅ ∅ 59 (build_rcall_logs example_pruned_vec)
                (possible_busts (list_to_set (map _rcall example_pruned_vec))))
             ∅ order) example_pruned_vec
    = pass_C ∅ ∅ 59 example_pruned_vec.
Proof.
  apply (pass_C_removes_busts_of_runs ∅ ∅ example_start 59 example_pruned_vec).
  - apply (bool_decide_unpack _). vm_compute. exact I.
  - apply (bool_decide_unpack _). vm_compute. exact I.
Defined.

(** X10. On the logs of a band as [process_directory] prepares them
    [process_band] never throws: it returns the received calls that pass the
    cutoff among the QSOs that the three passes leave. *)
Theorem process_band_never_throws (opts : options)
    (pruned_qsos_this_band all_qsos_this_band : gmap callsign (list small_qso))
    (calls_with_no_freq_info calls_with_poor_freq_info : gset callsign)
    (start max_rel_mins : Z) :
  band_logs start max_rel_mins all_qsos_this_band ->
  band_logs start max_rel_mins pruned_qsos_this_band ->
  build_vec all_qsos_this_band <> [] ->
  build_vec pruned_qsos_this_band <> [] ->
  process_band opts pruned_qsos_this_band all_qsos_this_band
    calls_with_no_freq_info calls_with_poor_freq_info max_rel_mins
  = Some (local_scp_calls
            (pass_D opts
               (prune_band calls_with_no_freq_info calls_with_poor_freq_info
                           pruned_qsos_this_band all_qsos_this_band))).
Proof. intros. by apply (process_band_spec opts _ _ _ _ start). Qed.

Lemma process_band_never_throws_witness :
  process_band default_options example_pruned_20m example_all_20m ∅ ∅ 59
  = Some (local_scp_calls
            (pass_D default_options
               (prune_band ∅ ∅ example_pruned_20m example_all_20m))).
Proof.
  apply (process_band_never_throws default_options example_pruned_20m
           example_all_20m ∅ ∅ example_start 59).
  - apply (bool_decide_unpack _). vm_compute. exact I.
  - apply (bool_decide_unpack _). vm_compute. exact I.
  - by vm_compute.
  - by vm_compute.
Defined.

(** ** The logs of one file *)

(** X11. [read_log] files the accepted QSOs of a file under their
    transmitted calls, each log in the order of the file: the log of a call
    holds the accepted QSOs with that call, and a call none of whose QSOs is
    accepted has no log. *)
Theorem read_log_groups_by_tcall (cp : contest_parameters)
    (qso_lines : list small_qso) (tcall : callsign) :
  read_log cp qso_lines !! tcall =
  match filter (fun qso => _tcall qso = tcall) (omap (accept_qso cp) qso_lines) with
  | [] => None
  | qsos => Some qsos
  end.
Proof.
  induction qso_lines as [|line qso_lines IH] using rev_ind; [done|].
  rewrite read_log_snoc, omap_app, filter_app. simpl.
  destruct (accept_qso cp line) as [qso|]; simpl.
  - rewrite filter_cons, filter_nil.
    destruct (decide (_tcall qso = tcall)) as [->|Hne].
    + rewrite lookup_insert_eq, IH.
      by destruct (filter _ (omap (accept_qso cp) qso_lines)).
    + rewrite lookup_insert_ne by done. by rewrite IH, app_nil_r.
  - by rewrite filter_nil, IH, app_nil_r.
Qed.

(** ** The logs of a band *)

(** X12. Where every log holds QSOs of its own transmitted call,
    [build_minilog] gives in the minilog of a band, as the log of a call,
    the QSOs of that band of the log of the call, in their order; no minilog
    and no log of a minilog is empty. *)
Theorem build_minilog_splits_by_band
    (qsos_per_call : gmap callsign (list small_qso)) :
  keyed_by_tcall qsos_per_call ->
  (forall band call,
     minilog_of (build_minilog qsos_per_call) band call =
     filter (fun qso => _band qso = band) (default [] (qsos_per_call !! call))) /\
  minilogs_inhabited (build_minilog qsos_per_call).
Proof.
  intros Hk. split.
  - intros band call. by apply build_minilog_lookup.
  - apply build_minilog_inhabited.
Qed.

Lemma build_minilog_splits_by_band_witness :
  (forall band call,
     minilog_of (build_minilog example_nine_of_ten) band call =
     filter (fun qso => _band qso = band)
            (default [] (example_nine_of_ten !! call))) /\
  minilogs_inhabited (build_minilog example_nine_of_ten).
Proof.
  apply (build_minilog_splits_by_band example_nine_of_ten).
  apply (bool_decide_unpack _). vm_compute. exact I.
Defined.

(** ** Entrants with unreliable frequencies *)

(** X13. Where every QSO has a frequency of a contest band,
    [calls_with_unreliable_freq] never throws, and every call it returns is
    an entrant that is not among the calls without frequency information. *)
Theorem calls_with_unreliable_freq_never_throws
    (all_qsos : gmap callsign (list small_qso))
    (calls_with_no_freq_info : gset callsign) :
  map_Forall (fun _ qsos => Forall valid_frequency qsos) all_qsos ->
  exists calls_with_poor_freq_info,
    calls_with_unreliable_freq all_qsos calls_with_no_freq_info
    = Some calls_with_poor_freq_info /\
    forall call, call ∈ calls_with_poor_freq_info ->
      (call ∉ calls_with_no_freq_info) /\ is_Some (all_qsos !! call).
Proof. apply calls_with_unreliable_freq_returns. Qed.

Lemma calls_with_unreliable_freq_never_throws_witness :
  exists calls_with_poor_freq_info,
    calls_with_unreliable_freq example_nine_of_ten ∅
    = Some calls_with_poor_freq_info /\
    forall call, call ∈ calls_with_poor_freq_info ->
      (call ∉ (∅ : gset callsign)) /\ is_Some (example_nine_of_ten !! call).
Proof.
  apply (calls_with_unreliable_freq_never_throws example_nine_of_ten ∅).
  apply (bool_decide_unpack _). vm_compute. exact I.
Defined.

(** ** The whole of [process_directory] *)

(** X14. On logs of constructed QSOs, for a contest whose length in seconds
    fits an [int], [process_directory] never throws: it ends the program
    with [exit(-1)] when no file yields a stored QSO, and returns a map
    otherwise. *)
Theorem process_directory_never_throws (opts : options) (dir : callsign)
    (start hrs : Z) (logs : list (list small_qso)) :
  0 < hrs <= 596523 ->
  Forall (Forall constructed) logs ->
  ssize logs <= INT_MAX ->
  (Forall (fun log => read_log (make_contest_parameters dir start hrs) log = ∅)
          logs /\
   process_directory opts (make_contest_parameters dir start hrs) logs
   = Exits (-1)) \/
  (Exists (fun log => read_log (make_contest_parameters dir start hrs) log <> ∅)
          logs /\
   exists rv, process_directory opts (make_contest_parameters dir start hrs)
                                logs = Returns rv).
Proof. apply process_directory_returns. Qed.

Lemma process_directory_never_throws_witness :
  (Forall (fun log => read_log (make_contest_parameters (cs "logs")
                                  example_start 1) log = ∅)
          example_logs /\
   process_directory default_options
     (make_contest_parameters (cs "logs") example_start 1) example_logs
   = Exits (-1)) \/
  (Exists (fun log => read_log (make_contest_parameters (cs "logs")
                                  example_start 1) log <> ∅)
          example_logs /\
   exists rv, process_directory default_options
                (make_contest_parameters (cs "logs") example_start 1)
                example_logs = Returns rv).
Proof.
  apply (process_directory_never_throws default_options (cs "logs")
                                        example_start 1 example_logs).
  - lia.
  - apply (bool_decide_unpack _). vm_compute. exact I.
  - by vm_compute.
Defined.

(** X15. The count that [process_directory] returns for a call is the
    number of stored QSOs that have it as received call, and is never zero.
    Every entrant of the list that some stored QSO has as received call is
    in the map. *)
Theorem process_directory_counts (opts : options) (cp : contest_parameters)
    (logs : list (list small_qso)) (rv : gmap callsign Z) :
  process_directory opts cp logs = Returns rv ->
  ssize (build_vec (all_qsos (ingest opts cp logs))) <= INT_MAX ->
  (forall call n,
     rv !! call = Some n ->
     n = rcall_count call (build_vec (all_qsos (ingest opts cp logs))) /\
     0 < n) /\
  (forall call,
     call ∈ scp_calls (ingest opts cp logs) ->
     recorded_as_rcall call (all_qsos (ingest opts cp logs)) ->
     rv !! call =
     Some (rcall_count call (build_vec (all_qsos (ingest opts cp logs))))).
Proof.
  intros Hrun Hsize.
  destruct (process_directory_lookup opts cp logs rv Hrun Hsize)
    as (returned_calls & _ & Hlk).
  split.
  - intros call n Hn. rewrite Hlk in Hn.
    destruct (decide (rcall_count call _ = 0)) as [|Hnz]; [done|].
    destruct (decide (call ∈ _)); [|done].
    injection Hn as <-. split; [done|].
    unfold rcall_count, ssize in *. lia.
  - intros call Hscp Hrec. rewrite Hlk.
    apply rcall_count_recorded in Hrec.
    destruct (decide (rcall_count call _ = 0)) as [|_]; [done|].
    destruct (decide (call ∈ _)) as [|Hno]; [done|].
    exfalso. apply Hno. apply elem_of_union. by left.
Qed.

Lemma process_directory_counts_witness :
  (forall call n,
     example_rv !! call = Some n ->
     n = rcall_count call
           (build_vec (all_qsos (ingest default_options example_cp
                                        example_logs))) /\
     0 < n) /\
  (forall call,
     call ∈ scp_calls (ingest default_options example_cp example_logs) ->
     recorded_as_rcall call
       (all_qsos (ingest default_options example_cp example_logs)) ->
     example_rv !! call =
     Some (rcall_count call
             (build_vec (all_qsos (ingest default_options example_cp
                                          example_logs))))).
Proof.
  apply (process_directory_counts default_options example_cp example_logs
                                  example_rv).
  - vm_compute. reflexivity.
  - by vm_compute.
Defined.

(** ** The command line *)

(** X16. [parameter_present] looks for a name among all the parameters,
    [value_present] among all but the last.  [value] returns the parameter
    that follows the last occurrence of the name before the last parameter,
    and the empty string if there is none: a name given twice takes its
    second value, and a name that is the last parameter has no value. *)
Theorem command_line_lookup (cl : command_line) (s : callsign) :
  (parameter_present cl s = true <->
   exists n, 1 <= n < _argc cl /\ parameter cl n = Some s) /\
  (value_present cl s = true <->
   exists n, 1 <= n < _argc cl - 1 /\ parameter cl n = Some s) /\
  (value_present cl s = false -> value cl s = []) /\
  (value_present cl s = true ->
   exists n, 1 <= n < _argc cl - 1 /\ parameter cl n = Some s /\
             (forall m, n < m < _argc cl - 1 -> parameter cl m <> Some s) /\
             parameter cl (n + 1) = Some (value cl s)).
Proof.
  split; [apply parameter_present_spec|].
  split; [apply value_present_spec|].
  split.
  { intros Hv. unfold value. by rewrite Hv. }
  intros Hv.
  pose proof (proj1 (value_present_spec cl s) Hv) as (n0 & Hn0 & Hs0).
  pose proof (value_loop cl s (Z.to_nat (_argc cl - 2))) as H.
  cbv zeta in H.
  replace (1 + Z.of_nat (Z.to_nat (_argc cl - 2))) with (_argc cl - 1) in H by lia.
  specialize (H ltac:(lia)).
  unfold value. rewrite Hv. simpl. unfold n_parameters.
  destruct H as [[Hnone _]|(n & Hn & Hs & Hnext & Hlast)].
  - by destruct (Hnone n0 Hn0).
  - exists n. split; [lia|]. split; [done|]. split; [done|]. exact Hnext.
Qed.

(** ** Adding the maps of the contests *)

Lemma call_map_merge_swap (cm a b : gmap callsign Z) :
  call_map_merge (call_map_merge cm a) b = call_map_merge (call_map_merge cm b) a.
Proof.
  apply map_eq. intros k. rewrite !call_map_merge_lookup.
  destruct (a !! k) as [x|], (b !! k) as [y|]; simpl; try done.
  f_equal. apply wrap32_add_comm.
Qed.

Lemma add_contest_swap (env : environment) (opts : options)
    (xscp_calls : outcome (gmap callsign Z)) (x y : contest_parameters) :
  contest_returns env opts x -> contest_returns env opts y ->
  add_contest env opts (add_contest env opts xscp_calls x) y =
  add_contest env opts (add_contest env opts xscp_calls y) x.
Proof.
  intros [rx Hx] [ry Hy]. unfold add_contest.
  destruct xscp_calls as [cm|code| |]; cbn [outcome_bind]; [|reflexivity..].
  rewrite Hx, Hy. cbn [outcome_bind].
  f_equal. apply call_map_merge_swap.
Qed.

Lemma add_contest_Permutation (env : environment) (opts : options)
    (params_vec params_vec' : list contest_parameters) :
  params_vec ≡ₚ params_vec' ->
  Forall (contest_returns env opts) params_vec ->
  forall xscp_calls,
    foldl (add_contest env opts) xscp_calls params_vec =
    foldl (add_contest env opts) xscp_calls params_vec'.
Proof.
  induction 1 as [|x l l' Hp IH|x y l|l l' l'' Hp1 IH1 Hp2 IH2];
    intros HF xscp_calls; cbn [foldl].
  - done.
  - apply IH. by apply Forall_cons_1 in HF as [_ ?].
  - apply Forall_cons_1 in HF as [Hy HF]. apply Forall_cons_1 in HF as [Hx _].
    rewrite (add_contest_swap env opts xscp_calls y x Hy Hx). reflexivity.
  - rewrite IH1 by done. apply IH2. by rewrite <- Hp1.
Qed.

(** X17. [CALL_MAP += CALL_MAP] adds the count of every call of the second
    map to the count that the first map has for it, zero if it has none, on
    [int]; the other calls keep their counts.  Adding two maps one after the
    other gives the same map in either order. *)
Theorem call_map_merge_adds_counts (cm us vs : gmap callsign Z)
    (call : callsign) :
  call_map_merge cm us !! call =
    match us !! call with
    | Some n => Some (wrap32 (default 0 (cm !! call) + n))
    | None => cm !! call
    end /\
  call_map_merge (call_map_merge cm us) vs =
  call_map_merge (call_map_merge cm vs) us.
Proof. split; [apply call_map_merge_lookup | apply call_map_merge_swap]. Qed.

(** X18. The map that [main] accumulates from contests that all return does
    not depend on the order in which their maps are added, that is, on the
    order in which the tasks complete. *)
Theorem contests_add_up_in_any_order (env : environment) (opts : options)
    (params_vec params_vec' : list contest_parameters) :
  params_vec ≡ₚ params_vec' ->
  Forall (contest_returns env opts) params_vec ->
  process_contests env opts params_vec = process_contests env opts params_vec'.
Proof.
  intros Hp HF. unfold process_contests.
  destruct params_vec as [|cp l].
  { apply Permutation_nil_l in Hp. by subst. } 
  destruct params_vec' as [|cp' l'].
  { symmetry in Hp. by apply Permutation_nil_cons in Hp. }
  destruct (MAX_PARALLEL opts =? 0); [done|].
  apply (add_contest_Permutation env opts (cp :: l) (cp' :: l') Hp HF).
Qed.

Lemma contests_add_up_in_any_order_witness :
  process_contests example_environment default_options
                   [example_cp; example_cp_two_hours]
  = process_contests example_environment default_options
                     [example_cp_two_hours; example_cp].
Proof.
  apply (contests_add_up_in_any_order example_environment default_options
           [example_cp; example_cp_two_hours]
           [example_cp_two_hours; example_cp]).
  - apply perm_swap.
  - apply Forall_cons_2; [|apply Forall_cons_2; [|apply Forall_nil_2]].
    + unfold contest_returns. eexists. vm_compute. reflexivity.
    + unfold contest_returns. eexists. vm_compute. reflexivity.
Defined.

(** ** Counting values *)

(** X19. The histogram built by adding the values of a vector one after the
    other to an empty [count_values] maps every value of the vector to the
    number of its occurrences and holds no other value; its total count is
    the size of the vector.  (For a vector of at most [INT_MAX] values: the
    counts are [int32_t].) *)
Theorem count_values_counts_occurrences (tvec : list callsign) :
  ssize tvec <= INT_MAX ->
  (forall v, count_values_add_all tvec ∅ !! v =
             if decide (occurrences v tvec = 0) then None
             else Some (occurrences v tvec)) /\
  total_count (count_values_add_all tvec ∅) = ssize tvec.
Proof.
  intros Hlen. split.
  - intros v. by apply count_values_add_all_lookup.
  - rewrite total_count_add_all. unfold total_count. rewrite map_fold_empty.
    unfold ssize, INT_MAX in *.
    rewrite (wrap32_small 0) by lia. apply wrap32_small. lia.
Qed.

Lemma count_values_counts_occurrences_witness :
  (forall v, count_values_add_all [cs "N7DR"; cs "K1AAA"; cs "N7DR"] ∅ !! v =
             if decide (occurrences v [cs "N7DR"; cs "K1AAA"; cs "N7DR"] = 0)
             then None
             else Some (occurrences v [cs "N7DR"; cs "K1AAA"; cs "N7DR"])) /\
  total_count (count_values_add_all [cs "N7DR"; cs "K1AAA"; cs "N7DR"] ∅)
  = ssize [cs "N7DR"; cs "K1AAA"; cs "N7DR"].
Proof.
  apply (count_values_counts_occurrences [cs "N7DR"; cs "K1AAA"; cs "N7DR"]).
  by vm_compute.
Defined.

(** X20. [sorted_invert] files every value under its count: the set found
    under a count holds exactly the values that have this count, and no set
    of the result is empty. *)
Theorem sorted_invert_files_by_count (h : gmap callsign Z) :
  (forall v n, v ∈ default ∅ (sorted_invert h !! n) <-> h !! v = Some n) /\
  map_Forall (fun _ values => values <> (∅ : gset callsign)) (sorted_invert h).
Proof.
  split; [intros v n; apply sorted_invert_spec | apply sorted_invert_nonempty].
Qed.

(** X21. [maximum] and [minimum] do not compare the counts with each other:
    [max_value] and [min_value] keep their initial values, so both functions
    return the entry that the loop visits last, provided its count is
    neither the least nor the greatest [int32_t]. *)
Theorem maximum_and_minimum_return_the_last_entry
    (entries : list (callsign * Z)) (value : callsign) (n : Z) :
  -2147483648 < n < 2147483647 ->
  maximum (entries ++ [(value, n)]) = (value, n) /\
  minimum (entries ++ [(value, n)]) = (value, n).
Proof.
  intros Hn. split; [apply maximum_snoc | apply minimum_snoc]; lia.
Qed.

Lemma maximum_and_minimum_return_the_last_entry_witness :
  maximum ([(cs "K1AAA", 5)] ++ [(cs "W2BBB", 1)]) = (cs "W2BBB", 1) /\
  minimum ([(cs "K1AAA", 5)] ++ [(cs "W2BBB", 1)]) = (cs "W2BBB", 1).
Proof.
  apply (maximum_and_minimum_return_the_last_entry [(cs "K1AAA", 5)]
                                                   (cs "W2BBB") 1).
  lia.
Defined.

(** ** The construction of QSOs *)

Section Construction.

Variable from_string_int : callsign -> Z.
Variable contains_letter contains_digit : callsign -> bool.
Variable substring : callsign -> nat -> nat -> callsign.
Variable timegm : tm -> Z.

Local Abbreviation construct :=
  (small_qso_of_fields from_string_int contains_letter contains_digit
                       substring timegm).

Local Abbreviation construct_lines :=
  (construct_all from_string_int contains_letter contains_digit substring
                 timegm).

Lemma length_construct_all (lines : list (list callsign)) (qso_id : Z) :
  length (construct_lines qso_id lines) = length lines.
Proof.
  revert qso_id. induction lines as [|l lines IH]; intros qso_id; [done|].
  simpl. by rewrite IH.
Qed.

(** X22. The constructor of [small_qso] leaves either the empty QSO, which
    [process_directory] never stores, or a QSO made of at least nine
    fields: its calls are the sixth and the ninth field and hold a letter
    and a digit each, its frequency is the second field and lies in its
    band, and its identifier is the value of the counter. *)
Theorem constructor_gives_empty_or_valid (qso_id : Z)
    (qso_fields : list callsign) :
  (construct qso_id qso_fields = default_small_qso /\
   forall cp, accept_qso cp (construct qso_id qso_fields) = None) \/
  ((9 <= length qso_fields)%nat /\
   _tcall (construct qso_id qso_fields) = field qso_fields 5 /\
   _rcall (construct qso_id qso_fields) = field qso_fields 8 /\
   _qrg (construct qso_id qso_fields) = from_string_int (field qso_fields 1) /\
   band_from_qrg (_qrg (construct qso_id qso_fields))
   = Some (_band (construct qso_id qso_fields)) /\
   _id (construct qso_id qso_fields) = qso_id /\
   contains_letter (field qso_fields 5) = true /\
   contains_digit (field qso_fields 5) = true /\
   contains_letter (field qso_fields 8) = true /\
   contains_digit (field qso_fields 8) = true).
Proof.
  destruct (small_qso_of_fields_cases from_string_int contains_letter
              contains_digit substring timegm qso_id qso_fields)
    as [Hd|(H1 & H2 & H3 & H4 & H5 & H6 & _ & H7)].
  - left. split; [done|]. intros cp. rewrite Hd. apply accept_default_small_qso.
  - right. by repeat (split; [done|]).
Qed.

(** X23. The QSOs constructed from the lines of the logs take consecutive
    values of the counter, whether the line is in error or not; so two QSOs
    that are not empty and come from different lines have different
    identifiers.  (As long as the counter, an [int], does not overflow.) *)
Theorem constructed_ids_are_distinct (lines : list (list callsign))
    (qso_id : Z) (i j : nat) (qi qj : small_qso) :
  0 <= qso_id -> qso_id + ssize lines <= INT_MAX ->
  construct_lines qso_id lines !! i = Some qi ->
  construct_lines qso_id lines !! j = Some qj ->
  qi <> default_small_qso -> qj <> default_small_qso ->
  i <> j -> _id qi <> _id qj.
Proof.
  intros H0 Hmax Hi Hj Hdi Hdj Hij.
  assert (forall k q, construct_lines qso_id lines !! k = Some q ->
                      q <> default_small_qso ->
                      _id q = qso_id + Z.of_nat k) as Hk.
  { intros k q Hq Hd.
    destruct (lookup_lt_is_Some_2 lines k) as [qso_fields Hf].
    { rewrite <- (length_construct_all lines qso_id).
      by apply lookup_lt_is_Some_1. }
    rewrite (construct_all_lookup from_string_int contains_letter
               contains_digit substring timegm lines qso_id k qso_fields)
      in Hq by done.
    injection Hq as <-.
    destruct (small_qso_of_fields_cases from_string_int contains_letter
                contains_digit substring timegm (qso_id + Z.of_nat k)
                qso_fields) as [Hdef|(_ & _ & _ & _ & _ & Hid' & _)];
      [by destruct Hd | done]. }
  rewrite (Hk i qi Hi Hdi), (Hk j qj Hj Hdj). lia.
Qed.

End Construction.

Lemma constructed_ids_are_distinct_witness :
  (0 <> 1)%nat /\
  _id (small_qso_of_fields (fun _ => 14050) (fun _ => true) (fun _ => true)
         (fun s _ _ => s) (fun _ => 0) 0 (replicate 9 (cs "K1AAA")))
  <> _id (small_qso_of_fields (fun _ => 14050) (fun _ => true) (fun _ => true)
            (fun s _ _ => s) (fun _ => 0) 1 (replicate 9 (cs "W2BBB"))).
Proof.
  split; [lia|].
  apply (constructed_ids_are_distinct
           (fun _ => 14050) (fun _ => true) (fun _ => true) (fun s _ _ => s)
           (fun _ => 0)
           [replicate 9 (cs "K1AAA"); replicate 9 (cs "W2BBB")] 0 0 1).
  - lia.
  - by vm_compute.
  - reflexivity.
  - reflexivity.
  - by vm_compute.
  - by vm_compute.
  - lia.
Defined.

(** ** Entrants and list files *)

(** X24. With a [TL_LIMIT] of at most one, as by default, the calls included
    automatically are exactly the calls that have a log. *)
Theorem every_entrant_is_included (opts : options) (cp : contest_parameters)
    (logs : list (list small_qso)) (tcall : callsign) :
  TL_LIMIT opts <= 1 ->
  tcall ∈ scp_calls (ingest opts cp logs) <->
  is_Some (all_qsos (ingest opts cp logs) !! tcall).
Proof.
  intros Htl. unfold ingest.
  destruct (ingest_lookup_from opts cp logs (mk_ingested ∅ ∅ 0) tcall)
    as [H1 H2].
  rewrite H1, H2. simpl. rewrite lookup_empty, elem_of_empty. split.
  - intros [[]|(qsos & Hin & _)].
    destruct (logs_of cp tcall logs) as [|l ls]; [by apply elem_of_nil in Hin|].
    by eexists.
  - intros [qsos Hhead]. right. exists qsos.
    destruct (logs_of cp tcall logs) as [|l ls] eqn:Hl; [done|].
    injection Hhead as ->. split; [apply list_elem_of_here|].
    assert (qsos ∈ logs_of cp tcall logs) as Hin
      by (rewrite Hl; apply list_elem_of_here).
    unfold logs_of in Hin. apply list_elem_of_omap in Hin as (log & _ & Hlog).
    pose proof (read_log_Forall_key (fun _ _ => True) cp log
                  ltac:(done) tcall qsos Hlog) as [Hne _].
    unfold ssize. destruct qsos; [done|]. simpl length. lia.
Qed.

Lemma every_entrant_is_included_witness :
  cs "K1AAA" ∈ scp_calls (ingest default_options example_cp example_logs) <->
  is_Some (all_qsos (ingest default_options example_cp example_logs)
           !! cs "K1AAA").
Proof.
  apply (every_entrant_is_included default_options example_cp example_logs
                                   (cs "K1AAA")).
  by vm_compute.
Defined.

Section ListFile.

Variable env : environment.
Variable value_line : list Z -> Z -> Z.
Variable compare_calls : callsign -> callsign -> bool.

(** X25. A list file supplies contests only through its lines that hold a
    space.  When the file named after [-dir @] exists and none of its lines
    is such a line (a file of bare directory names, say), the program
    processes nothing, writes no call and returns 1. *)
Theorem list_file_without_contest_lines (cl : command_line) :
  value_present cl (cs "-dir") = true ->
  starts_with_char (value cl (cs "-dir")) "@"%char = true ->
  file_exists env (drop 1 (value cl (cs "-dir"))) = true ->
  Forall (fun line => contest_line line = false)
         (read_lines env (drop 1 (value cl (cs "-dir")))) ->
  main env value_line compare_calls cl = Returns (1, []).
Proof.
  intros Hdir Hat Hfile Hlines.
  apply main_without_contests.
  unfold contests_of_command_line. rewrite Hdir, Hat, Hfile. simpl.
  by apply contests_of_list_file.
Qed.

End ListFile.

Lemma list_file_without_contest_lines_witness :
  main example_list_environment example_value_line example_compare_calls
       example_list_command_line = Returns (1, []).
Proof.
  apply (list_file_without_contest_lines example_list_environment
           example_value_line example_compare_calls example_list_command_line).
  - reflexivity.
  - reflexivity.
  - reflexivity.
  - apply (bool_decide_unpack _). vm_compute. exact I.
Defined.

(** ** Frequencies *)

(** X26. The lambda [frequency_match] does not depend on the order of its
    two QSOs, and a match in its strict form ([def] false) is a match in its
    lenient form ([def] true).  The two forms agree when neither log is
    without or with poor frequency information. *)
Theorem frequency_match_forms
    (calls_with_no_freq_info calls_with_poor_freq_info : gset callsign)
    (qso1 qso2 : small_qso) :
  (forall def,
     frequency_match calls_with_no_freq_info calls_with_poor_freq_info
                     qso1 qso2 def
     = frequency_match calls_with_no_freq_info calls_with_poor_freq_info
                       qso2 qso1 def) /\
  (frequency_match calls_with_no_freq_info calls_with_poor_freq_info
                   qso1 qso2 false = true ->
   frequency_match calls_with_no_freq_info calls_with_poor_freq_info
                   qso1 qso2 true = true) /\
  (call_has_good_freq_info (_tcall qso1) calls_with_no_freq_info
                           calls_with_poor_freq_info = true ->
   call_has_good_freq_info (_tcall qso2) calls_with_no_freq_info
                           calls_with_poor_freq_info = true ->
   frequency_match calls_with_no_freq_info calls_with_poor_freq_info
                   qso1 qso2 true
   = frequency_match calls_with_no_freq_info calls_with_poor_freq_info
                     qso1 qso2 false).
Proof.
  unfold frequency_match, call_has_good_freq_info.
  assert (Z.abs (_qrg qso1 - _qrg qso2) = Z.abs (_qrg qso2 - _qrg qso1)) as Habs
    by lia.
  split; [|split].
  - intros []; rewrite Habs;
      repeat case_bool_decide; simpl; try done; by destruct (_ <=? _).
  - repeat case_bool_decide; simpl; try done; by destruct (_ <=? _).
  - repeat case_bool_decide; simpl; try done.
Qed.

(** ** The comparison with 0.9 *)

(** X27. For up to a hundred pairings the comparison made in
    [calls_with_unreliable_freq], of a [float] quotient with the [double]
    0.9, marks a log exactly when at most nine tenths of its pairings are
    good: the ratio 0.9 itself is marked. *)
Theorem unreliable_up_to_a_hundred_pairings (total good : Z) :
  0 < total <= 100 -> 0 <= good <= total ->
  unreliable (total, good) = true <-> 10 * good <= 9 * total.
Proof. apply unreliable_small_counts. Qed.

Lemma unreliable_up_to_a_hundred_pairings_witness :
  unreliable (10, 9) = true <-> 10 * 9 <= 9 * 10.
Proof. apply (unreliable_up_to_a_hundred_pairings 10 9); lia. Defined.

(** ** The pruned logs *)

(** X28. The pruned logs that [process_directory] hands to the bands hold,
    for every entrant, the QSOs of its log whose received call is not a call
    of the list, in their order; an entrant all of whose QSOs are with calls
    of the list has no pruned log. *)
Theorem pruned_logs_hold_the_other_rcalls (scp_calls : gset callsign)
    (qsos_per_call : gmap callsign (list small_qso)) (tcall : callsign) :
  prune_entrant_rcalls scp_calls qsos_per_call !! tcall =
  match filter (fun qso => _rcall qso ∉ scp_calls)
               (default [] (qsos_per_call !! tcall)) with
  | [] => None
  | qsos => Some qsos
  end.
Proof.
  destruct (prune_entrant_rcalls scp_calls qsos_per_call !! tcall)
    as [qsos|] eqn:Hp.
  - apply prune_entrant_rcalls_lookup in Hp as (Hne & log & Hlog & ->).
    rewrite Hlog. simpl. by destruct (filter _ log).
  - destruct (qsos_per_call !! tcall) as [log|] eqn:Hlog; simpl; [|done].
    destruct (filter (fun qso => _rcall qso ∉ scp_calls) log) as [|q l] eqn:Hf;
      [done|].
    assert (prune_entrant_rcalls scp_calls qsos_per_call !! tcall
            = Some (q :: l)) as Hsome.
    { apply prune_entrant_rcalls_lookup. split; [done|]. by exists log. }
    congruence.
Qed.

(** ** No slot for a task *)

Section NoTask.

Variable env : environment.
Variable opts : options.

Lemma poll_no_futures (ready : nat -> bool) (s : scheduler) :
  futures s = [] -> poll env opts ready s = Returns s.
Proof. intros Hf. unfold poll. by rewrite Hf. Qed.

(** With no task running and a limit of zero, the waiting loop never
    ends. *)
Lemma wait_for_slot_forever (ready : nat -> nat -> bool) (fuel : nat)
    (s : scheduler) :
  MAX_PARALLEL opts = 0 -> futures s = [] -> processing_directories s = 0 ->
  wait_for_slot env opts ready fuel s = None.
Proof.
  intros Hmax Hf Hp. induction fuel as [|fuel IH]; simpl.
  - by rewrite Hp, Hmax.
  - rewrite Hp, Hmax. simpl. rewrite poll_no_futures by done.
    exact IH.
Qed.

(** With another limit the first wait ends at once. *)
Lemma wait_for_slot_free (ready : nat -> nat -> bool) (fuel : nat)
    (s : scheduler) :
  processing_directories s <> MAX_PARALLEL opts ->
  wait_for_slot env opts ready fuel s = Some (Returns s).
Proof.
  intros Hne. destruct fuel; simpl;
    by rewrite (proj2 (Z.eqb_neq _ _) Hne).
Qed.

End NoTask.

(** ** The loops agree with the sum of the contests

    When every task has completed by the time it is looked at, the loops
    collect the maps in the order in which the tasks were started. *)

Section PromptTasks.

Variable env : environment.
Variable opts : options.

Hypothesis some_slot : MAX_PARALLEL opts <> 0.

Local Abbreviation sum_from s :=
  (foldl (add_contest env opts) (Returns (xscp_calls s)) (futures s)).

Local Abbreviation counted := (counted_futures env opts).

Lemma poll_prompt (s : scheduler) (cp : contest_parameters)
    (fs : list contest_parameters) :
  futures s = cp :: fs -> contest_returns env opts cp ->
  exists s',
    poll env opts (fun _ => true) s = Returns s' /\
    futures s' = fs /\
    processing_directories s' = wrap32 (processing_directories s - 1) /\
    sum_from s' = sum_from s.
Proof.
  intros Hf [rv Hrv]. unfold poll. rewrite Hf.
  cbn [length seq list_find]. rewrite decide_True by done.
  cbn [fmap option_fmap option_map lookup list_lookup]. rewrite Hrv.
  cbn [outcome_bind].
  eexists. split; [reflexivity|]. cbn [futures processing_directories xscp_calls].
  split; [done|]. split; [done|].
  cbn [foldl]. unfold add_contest at 3. cbn [outcome_bind]. rewrite Hrv.
  done.
Qed.

Lemma wait_for_slot_prompt (fuel : nat) (s : scheduler) :
  (1 <= fuel)%nat -> counted s -> ssize (futures s) <= INT_MAX ->
  exists s',
    wait_for_slot env opts (fun _ _ => true) fuel s = Some (Returns s') /\
    counted s' /\ ssize (futures s') <= ssize (futures s) /\
    sum_from s' = sum_from s.
Proof.
  intros Hfuel [Hp HF] Hlen.
  destruct (decide (processing_directories s = MAX_PARALLEL opts)) as [Heq|Hne].
  2:{ exists s. rewrite wait_for_slot_free by done. by repeat split. }
  destruct fuel as [|fuel]; [lia|]. simpl.
  rewrite (proj2 (Z.eqb_eq _ _) Heq). simpl.
  destruct (futures s) as [|cp fs] eqn:Hf.
  { exfalso. apply some_slot. rewrite <- Heq, Hp. done. }
  apply Forall_cons_1 in HF as [Hcp HF].
  destruct (poll_prompt s cp fs Hf Hcp) as (s' & -> & Hf' & Hp' & Hsum).
  assert (processing_directories s' = ssize fs) as Hp''.
  { rewrite Hp', Hp. unfold ssize, INT_MAX in *. simpl length in *.
    rewrite wrap32_small by lia. lia. }
  exists s'. rewrite wait_for_slot_free.
  - split; [done|]. split; [split; [by rewrite Hf'|by rewrite Hf']|].
    split; [|by rewrite Hsum, Hf].
    rewrite Hf'. unfold ssize. simpl length. lia.
  - rewrite Hp'', <- Heq, Hp. unfold ssize. simpl length. lia.
Qed.

Lemma queue_contests_prompt (fuel : nat) (rest : list contest_parameters) :
  (1 <= fuel)%nat -> Forall (contest_returns env opts) rest ->
  forall s : scheduler,
    counted s -> ssize (futures s) + ssize rest <= INT_MAX ->
    exists s',
      queue_contests env opts (fun _ _ _ => true) fuel s rest
      = Some (Returns s') /\
      counted s' /\
      (length (futures s') <= length (futures s) + length rest)%nat /\
      sum_from s' =
      foldl (add_contest env opts) (Returns (xscp_calls s)) (futures s ++ rest).
Proof.
  intros Hfuel Hrest. induction Hrest as [|cp rest Hcp Hrest IH];
    intros s Hs Hlen.
  { exists s. rewrite app_nil_r. split; [done|]. split; [done|].
    split; [simpl; lia | done]. }
  cbn [queue_contests].
  destruct (wait_for_slot_prompt fuel s Hfuel Hs) as (s1 & -> & [Hp1 HF1] & Hl1 & Hsum1).
  { unfold ssize in *. lia. }
  set (s2 := {| futures := futures s1 ++ [cp];
                processing_directories := wrap32 (processing_directories s1 + 1);
                xscp_calls := xscp_calls s1 |}).
  destruct (IH s2) as (s' & Hq & Hc & Hlen' & Hsum).
  - split.
    + cbn [s2 processing_directories futures]. rewrite Hp1.
      unfold ssize, INT_MAX in *. rewrite length_app. simpl length in *.
      rewrite wrap32_small by lia. lia.
    + cbn [s2 futures]. apply Forall_app. split; [done|].
      by apply Forall_cons_2.
  - cbn [s2 futures]. unfold ssize in *. rewrite length_app. simpl length in *. lia.
  - exists s'. split; [done|]. split; [done|].
    split.
    { cbn [s2 futures] in Hlen'. rewrite length_app in Hlen'.
      unfold ssize in Hl1. simpl length in *. lia. }
    rewrite Hsum. cbn [s2 futures xscp_calls].
    rewrite <- !app_assoc. cbn [app].
    rewrite !foldl_app. by rewrite Hsum1.
Qed.

Lemma collect_futures_prompt (fuel : nat) :
  forall s : scheduler,
    (length (futures s) <= fuel)%nat ->
    Forall (contest_returns env opts) (futures s) ->
    exists s',
      collect_futures env opts (fun _ _ => true) fuel s = Some (Returns s') /\
      sum_from s = Returns (xscp_calls s').
Proof.
  induction fuel as [|fuel IH]; intros s Hlen HF.
  - destruct (futures s) as [|cp fs] eqn:Hf; [|simpl in Hlen; lia].
    exists s. simpl. by rewrite Hf.
  - destruct (futures s) as [|cp fs] eqn:Hf.
    { exists s. simpl. by rewrite Hf. }
    apply Forall_cons_1 in HF as [Hcp HF].
    destruct (poll_prompt s cp fs Hf Hcp) as (s1 & Hpoll & Hf1 & _ & Hsum1).
    destruct (IH s1) as (s' & Hc & Hsum).
    { rewrite Hf1. simpl in Hlen. lia. }
    { by rewrite Hf1. }
    exists s'. simpl. rewrite Hf, Hpoll. split; [done|].
    rewrite <- Hsum, Hsum1. by rewrite Hf.
Qed.

(** With a limit other than zero and tasks that return and have completed
    whenever the loops look at them, the loops collect what
    [process_contests] gives. *)
Lemma run_contests_prompt (fuel : nat) (params_vec : list contest_parameters) :
  (1 <= fuel)%nat -> (length params_vec <= fuel)%nat ->
  ssize params_vec <= INT_MAX ->
  Forall (contest_returns env opts) params_vec ->
  run_contests env opts (fun _ _ _ => true) (fun _ _ => true) fuel params_vec
  = Some (process_contests env opts params_vec).
Proof.
  intros Hfuel Hlen Hmax HF. unfold run_contests.
  destruct (queue_contests_prompt fuel params_vec Hfuel HF initial_scheduler)
    as (s & -> & [Hp HFs] & Hlen' & Hsum).
  { split; [done | apply Forall_nil_2]. }
  { done. }
  destruct (collect_futures_prompt fuel s) as (s' & -> & Hsum'); [|done|].
  { cbn [initial_scheduler futures length] in Hlen'. lia. }
  f_equal. rewrite <- Hsum', Hsum. cbn [initial_scheduler futures xscp_calls app].
  unfold process_contests.
  destruct params_vec as [|cp l]; [done|].
  by rewrite (proj2 (Z.eqb_neq _ _) some_slot).
Qed.

End PromptTasks.

(** ** With [-p 0] *)

(** X29. With [-p 0] and at least one contest to process the program never
    ends: the first loop of [main] never gets past its wait for a slot.
    However many passes it makes over the futures, and whatever [wait_for]
    would say of a task, no task has been started, so none is collected and
    the counter stays equal to [MAX_PARALLEL].  The sum of the contests,
    [process_contests], gives [Hangs] accordingly. *)
Theorem no_parallel_task_hangs (env : environment) (opts : options)
    (params_vec : list contest_parameters)
    (ready : nat -> nat -> nat -> bool) (ready_end : nat -> nat -> bool)
    (fuel : nat) :
  MAX_PARALLEL opts = 0 -> params_vec <> [] ->
  queue_contests env opts ready fuel initial_scheduler params_vec = None /\
  run_contests env opts ready ready_end fuel params_vec = None /\
  process_contests env opts params_vec = Hangs.
Proof.
  intros Hmax Hne.
  destruct params_vec as [|cp rest]; [done|].
  assert (queue_contests env opts ready fuel initial_scheduler (cp :: rest)
          = None) as Hq.
  { cbn [queue_contests].
    by rewrite (wait_for_slot_forever env opts (ready (length rest)) fuel
                  initial_scheduler Hmax). }
  split; [done|]. split.
  - unfold run_contests. by rewrite Hq.
  - unfold process_contests. by rewrite Hmax.
Qed.

Lemma no_parallel_task_hangs_witness :
  queue_contests example_no_task_environment
    (options_of_command_line example_no_task_environment
                             example_no_task_command_line)
    (fun _ _ _ => true) 1000 initial_scheduler [example_cp] = None /\
  run_contests example_no_task_environment
    (options_of_command_line example_no_task_environment
                             example_no_task_command_line)
    (fun _ _ _ => true) (fun _ _ => true) 1000 [example_cp] = None /\
  process_contests example_no_task_environment
    (options_of_command_line example_no_task_environment
                             example_no_task_command_line)
    [example_cp] = Hangs.
Proof.
  apply (no_parallel_task_hangs example_no_task_environment
           (options_of_command_line example_no_task_environment
                                    example_no_task_command_line)
           [example_cp] (fun _ _ _ => true) (fun _ _ => true) 1000).
  - reflexivity.
  - discriminate.
Defined.

(** ** A band without pruned QSOs *)

(** X30. Handed a band that has QSOs but no pruned QSO, [process_band]
    throws: the time map of the empty pruned vector is empty, and the first
    pass reads its entry 0 with [at].  ([process_directory] starts no task
    for such a band.) *)
Theorem process_band_throws_without_pruned_qsos (opts : options)
    (pruned_qsos_this_band all_qsos_this_band : gmap callsign (list small_qso))
    (calls_with_no_freq_info calls_with_poor_freq_info : gset callsign)
    (max_rel_mins : Z) :
  0 <= max_rel_mins ->
  build_vec all_qsos_this_band <> [] ->
  build_vec pruned_qsos_this_band = [] ->
  process_band opts pruned_qsos_this_band all_qsos_this_band
    calls_with_no_freq_info calls_with_poor_freq_info max_rel_mins = None.
Proof.
  intros Hmax Hne Hempty.
  unfold process_band, pruned_before_cutoff, pass_A. rewrite Hempty.
  rewrite (time_map_Some (build_vec all_qsos_this_band) max_rel_mins)
    by (done || lia).
  unfold minutes_of_contest.
  destruct (Z.to_nat (max_rel_mins + 1)) as [|n] eqn:Hn; [lia|].
  reflexivity.
Qed.

Lemma process_band_throws_without_pruned_qsos_witness :
  process_band default_options ∅ example_all_20m ∅ ∅ 59 = None.
Proof.
  apply (process_band_throws_without_pruned_qsos default_options ∅
           example_all_20m ∅ ∅ 59).
  - lia.
  - by vm_compute.
  - reflexivity.
Defined.
